(** * QUBOVert: Metropolis simulation engine and QUBO/Ising containers

    A shallow embedding of [qubovert/sim/_simulations.py] (classes
    [SpinSimulation] and [BooleanSimulation]), of
    [qubovert/utils/_qubo_matrix.py] (classes [QUBOMatrix], [IsingCoupling]
    and [IsingField]), of [next_block] of
    [qubovert/program/_parse_helper.py], and of the problems [VertexCover]
    and [GraphPartitioning], which build such containers.

    Python objects are mutable and exceptions leave the mutations done so
    far in place, so methods are computations in a state-and-exception
    monad [Py S A := S -> (exn + A) * S]: the state is returned also when
    an exception is raised.  Dictionaries are [gmap]s, tuples and lists are
    [list]s, Python integers are [Z].  The coefficients of a model are of
    any number type ([int], [float], ...): the engine is written over a
    class of coefficients, with the integers and the binary64 floats as
    instances. *)

From Stdlib Require Import Floats.
From stdpp Require Import gmap strings list fin_maps sorting.
From Stdlib Require Import ZArith Lia QArith Qcanon Ascii.
Local Open Scope Z_scope.

(** ** Exceptions and the state-and-exception monad *)

Inductive exn : Type :=
  | ValueError (msg : string)
  | KeyError (msg : string)
  | IndexError
  | AttributeError
  | ZeroDivisionError.

(** The payload of the [KeyError] raised by a failed [dict] lookup. *)
Definition missing_key : string := "key not found".

Definition Py (S A : Type) : Type := S -> (exn + A) * S.

Global Instance Py_ret {S} : MRet (Py S) := fun A a s => (inr a, s).

Global Instance Py_bind {S} : MBind (Py S) := fun A B f m s =>
  match m s with
  | (inl e, s') => (inl e, s')
  | (inr a, s') => f a s'
  end.

Definition raise {S A} (e : exn) : Py S A := fun s => (inl e, s).

Definition get {S} : Py S S := fun s => (inr s, s).

(** [for x in xs: body x] *)
Fixpoint for_each {S A} (xs : list A) (body : A -> Py S unit) : Py S unit :=
  match xs with
  | [] => mret tt
  | x :: xs' => body x;; for_each xs' body
  end.

(** [for _ in range(n): body] *)
Fixpoint for_range {S} (n : nat) (body : Py S unit) : Py S unit :=
  match n with
  | O => mret tt
  | S n' => body;; for_range n' body
  end.

(** A property of the state that every step of a computation keeps is kept
    by the computation, whether it returns or raises. *)
Definition keeps {S A} (P : S -> Prop) (m : Py S A) : Prop :=
  forall s, P s -> P (snd (m s)).

(** A computation that cannot raise from states satisfying an invariant it
    keeps. *)
Definition safe {S A} (P : S -> Prop) (m : Py S A) : Prop :=
  forall s, P s -> exists a s', m s = (inr a, s') /\ P s'.

(** Exceptions outside a monad, for constructors: a failed constructor
    leaves no object behind. *)
Definition result (A : Type) : Type := (exn + A)%type.

Definition rbind {A B} (m : result A) (f : A -> result B) : result B :=
  match m with
  | inl e => inl e
  | inr a => f a
  end.

(** Python list slicing [l[start:]], negative [start] counting from the end. *)
Definition slice_from {A} (start : Z) (l : list A) : list A :=
  if start <? 0
  then drop (Z.to_nat (Z.max 0 (Z.of_nat (length l) + start))) l
  else drop (Z.to_nat start) l.

(** ** The coefficients of a model

    The numbers a model maps its terms to, with the operations the engine
    applies to them: the integer [0] a sum starts from, [+], the product
    [c * p] of a coefficient and an integer (a product of values of the
    state), the product [n * e] of an integer literal and a number, and
    the test [dE <= 0]. *)

Class Coefficient (C : Type) : Type := {
  c_zero : C;
  c_add : C -> C -> C;
  c_mul_int : C -> Z -> C;
  c_int_mul : Z -> C -> C;
  c_le0 : C -> bool
}.

(** Python's [int]. *)
Global Instance Z_Coefficient : Coefficient Z := {|
  c_zero := 0;
  c_add := Z.add;
  c_mul_int := Z.mul;
  c_int_mul := Z.mul;
  c_le0 := fun x => x <=? 0
|}.

(** Python's [float], the binary64 numbers.  An integer operand is
    converted first, rounded to the nearest float as Python does (Python
    raises [OverflowError] from [2^1024] on, where this conversion gives
    an infinity; the values of a state are far below). *)
Definition float_of_int (n : Z) : float :=
  SF2Prim (binary_normalize prec emax n 0 false).

Global Instance float_Coefficient : Coefficient float := {|
  c_zero := float_of_int 0;
  c_add := PrimFloat.add;
  c_mul_int := fun c p => PrimFloat.mul c (float_of_int p);
  c_int_mul := fun n e => PrimFloat.mul (float_of_int n) e;
  c_le0 := fun x => PrimFloat.leb x (float_of_int 0)
|}.

(** ** The shared random source

    Python's module-level [random] state.  [random_seed] is [random.seed],
    [random_random] is [random.random()], [random_choices g pop k] is
    [random.choices(pop, k=k)], and [lt_exp u dE T] is the floating-point
    test [u < exp(-dE / T)] of the Metropolis rule. *)

Class RandomSource (C : Type) : Type := {
  rng : Type;
  sample : Type;
  random_seed : Z -> rng;
  random_random : rng -> sample * rng;
  random_choices : forall {A : Type}, rng -> list A -> nat -> list A * rng;
  lt_exp : sample -> C -> Qc -> bool
}.

(** [random.choices] only returns members of the population. *)
Class RandomSourceLaws {C : Type} (R : RandomSource C) : Prop := {
  random_choices_elem :
    forall (A : Type) (g : rng) (pop : list A) (k : nat) (x : A),
      x ∈ fst (random_choices g pop k) -> x ∈ pop
}.

(** [random.random()] is below [1] and [exp] of a positive number is
    above [1]: with integer energies, the test [u < exp(-dE / T)] holds
    whenever [dE > 0] and [T < 0]. *)
Class MetropolisLaws (R : RandomSource Z) : Prop := {
  lt_exp_positive_exponent :
    forall (u : sample) (dE : Z) (T : Qc),
      0 < dE -> (T < Q2Qc 0)%Qc -> lt_exp u dE T = true
}.

(** ** SpinSimulation and BooleanSimulation *)

Section Simulations.
Context {label : Type} `{Countable label}.
Context {C : Type} `{Coefficient C}.
Context {R : RandomSource C}.

(** A term is a tuple of labels; a model maps terms to coefficients. *)
Abbreviation term := (list label).
Abbreviation assignment := (gmap label Z).
Abbreviation graph := (gmap (list label) C).

(** The [model] argument of the constructors: its items, and its
    [variables] attribute when it is one of qubovert's model types
    (absent for a plain [dict]). *)
Record model_arg : Type := {
  model_items : graph;
  model_variables : option (list label)
}.

(** The dynamic class of [self]; it decides which [state] property and
    which [set_state] a call dispatches to. *)
Inductive sim_class : Type := SpinSimulation | BooleanSimulation.

Record simulation : Type := {
  cls : sim_class;
  _variables : list label;
  _initial_state : assignment;
  _state : assignment;
  _past_states : list assignment;
  _memory : Z;
  _subgraphs : gmap label graph
}.

Definition with_state (st : assignment) (self : simulation) : simulation :=
  {| cls := cls self; _variables := _variables self;
     _initial_state := _initial_state self; _state := st;
     _past_states := _past_states self; _memory := _memory self;
     _subgraphs := _subgraphs self |}.

Definition with_past_states (ps : list assignment) (self : simulation)
  : simulation :=
  {| cls := cls self; _variables := _variables self;
     _initial_state := _initial_state self; _state := _state self;
     _past_states := ps; _memory := _memory self;
     _subgraphs := _subgraphs self |}.

(** Modelled from the spec: [spin_to_boolean] of [qubovert.utils] is not
    among the sources; the spec gives [boolean = (1 - spin) / 2]. *)
Definition spin_to_boolean (z : assignment) : assignment :=
  (fun s => (1 - s) / 2) <$> z.

(** Modelled from the spec: [boolean_to_spin] of [qubovert.utils] is not
    among the sources; the spec gives it as the inverse of
    [boolean = (1 - spin) / 2]. *)
Definition boolean_to_spin (x : assignment) : assignment :=
  (fun b => 1 - 2 * b) <$> x.

(** Modelled from the spec: the product of the current values of the
    labels of a term, as [puso_value] needs it.  A label missing from the
    assignment is a failed lookup ([None]). *)
Definition term_product (z : assignment) (k : term) : option Z :=
  foldr (fun i acc => v ← z !! i; p ← acc; Some (v * p)) (Some 1) k.

(** Modelled from the spec: [puso_value] of [qubovert.utils] is not among
    the sources; the spec gives the energy as the sum over all terms of
    coefficient times the product of the term's variables' current
    values. *)
Definition puso_value (z : assignment) (H : graph) : option C :=
  map_fold (fun k c acc =>
              p ← term_product z k; a ← acc; Some (c_add (c_mul_int c p) a))
           (Some c_zero) H.

(** [{v: state[v] for v in variables}] *)
Fixpoint restrict (variables : list label) (state : assignment)
  : result assignment :=
  match variables with
  | [] => inr ∅
  | v :: vs =>
      match state !! v with
      | None => inl (KeyError missing_key)
      | Some x => rbind (restrict vs state) (fun d => inr (<[v := x]> d))
      end
  end.

(** [any(v not in allowed for v in d.values())] *)
Definition any_value_not_in (allowed : list Z) (d : assignment) : bool :=
  bool_decide (Exists (fun kv => snd kv ∉ allowed) (map_to_list d)).

(** The [state] property: a copy of the current state, in the domain of
    the class. *)
Definition state (self : simulation) : assignment :=
  match cls self with
  | SpinSimulation => _state self
  | BooleanSimulation => spin_to_boolean (_state self)
  end.

Definition initial_state (self : simulation) : assignment :=
  _initial_state self.

Definition memory (self : simulation) : Z := _memory self.

(** [SpinSimulation.set_state]: the attribute is assigned before the
    values are checked. *)
Definition SpinSimulation_set_state (st : assignment) : Py simulation unit :=
  fun self =>
    match restrict (_variables self) st with
    | inl e => (inl e, self)
    | inr d =>
        let self' := with_state d self in
        if any_value_not_in [1; -1] (_state self')
        then (inl (ValueError "State must contain only 1's and -1's"), self')
        else (inr tt, self')
    end.

(** [BooleanSimulation.set_state]: the values are checked on a local
    dictionary, then the attribute is assigned. *)
Definition BooleanSimulation_set_state (st : assignment)
  : Py simulation unit :=
  fun self =>
    match restrict (_variables self) st with
    | inl e => (inl e, self)
    | inr d =>
        if any_value_not_in [0; 1] d
        then (inl (ValueError "State must contain only 0's and 1's"), self)
        else (inr tt, with_state (boolean_to_spin d) self)
    end.

Definition set_state (st : assignment) : Py simulation unit :=
  fun self =>
    match cls self with
    | SpinSimulation => SpinSimulation_set_state st self
    | BooleanSimulation => BooleanSimulation_set_state st self
    end.

Definition reset : Py simulation unit :=
  fun self =>
    let self' := with_past_states [] self in
    set_state (_initial_state self') self'.

Definition get_past_states (num_states : option Z) (self : simulation)
  : list assignment :=
  if bool_decide (num_states = Some 1) then [state self]
  else
    let n := default (_memory self) num_states in
    slice_from (- n + 1) (_past_states self) ++ [state self].

Definition _add_past_state : Py simulation unit :=
  fun self =>
    if bool_decide (_memory self ≠ 0) then
      let ps := _past_states self ++ [state self] in
      let ps' := if Z.of_nat (length ps) >? _memory self then tail ps
                 else ps in
      (inr tt, with_past_states ps' self)
    else (inr tt, self).

(** [self._state[label] *= -1] *)
Definition _flip_bit (i : label) : Py simulation unit :=
  fun self =>
    match _state self !! i with
    | None => (inl (KeyError missing_key), self)
    | Some v => (inr tt, with_state (<[i := v * -1]> (_state self)) self)
    end.

(** The process: the object [self] and the module-level random state. *)
Record world : Type := { self_ : simulation; random_ : rng }.

Definition on_self {A} (m : Py simulation A) : Py world A :=
  fun w =>
    let (r, s) := m (self_ w) in
    (r, {| self_ := s; random_ := random_ w |}).

Definition seed_random (seed : option Z) : Py world unit :=
  fun w =>
    match seed with
    | Some s => (inr tt, {| self_ := self_ w; random_ := random_seed s |})
    | None => (inr tt, w)
    end.

Definition draw_choices (k : nat) : Py world (list label) :=
  fun w =>
    let (drawn, g) := random_choices (random_ w) (_variables (self_ w)) k in
    (inr drawn, {| self_ := self_ w; random_ := g |}).

Definition draw_random : Py world sample :=
  fun w =>
    let (u, g) := random_random (random_ w) in
    (inr u, {| self_ := self_ w; random_ := g |}).

(** [dE = -2 * puso_value(self._state, self._subgraphs[i])] *)
Definition delta_E (i : label) : Py simulation C :=
  fun self =>
    match _subgraphs self !! i with
    | None => (inl (KeyError missing_key), self)
    | Some sub =>
        match puso_value (_state self) sub with
        | None => (inl (KeyError missing_key), self)
        | Some e => (inr (c_int_mul (-2) e), self)
        end
    end.

(** Truth value of a temperature: [T] is false exactly when it is zero. *)
Definition truthy_T (T : Qc) : bool := negb (Qc_eq_bool T (Q2Qc 0)).

(** The body of the loop over the drawn labels:
    [if dE <= 0 or (T and random.random() < exp(-dE / T)): flip]. *)
Definition candidate (T : Qc) (i : label) : Py world unit :=
  dE ← on_self (delta_E i);
  if c_le0 dE then on_self (_flip_bit i)
  else if truthy_T T then
    u ← draw_random;
    if lt_exp u dE T then on_self (_flip_bit i) else mret tt
  else mret tt.

(** The branch [num_updates == 1] of [update]: one sweep. *)
Definition sweep (T : Qc) : Py world unit :=
  on_self _add_past_state;;
  w ← get;
  drawn ← draw_choices (length (_variables (self_ w)));
  for_each drawn (candidate T).

(** [update(T, num_updates, seed)].  The recursive calls [self.update(T)]
    of the branch [num_updates > 1] have [num_updates = 1] and no seed, so
    each of them runs [sweep T]. *)
Definition update (T : Qc) (num_updates : Z) (seed : option Z)
  : Py world unit :=
  seed_random seed;;
  if num_updates <? 0
  then raise (ValueError "Cannot update a negative number of times")
  else if 1 <? num_updates
  then for_range (Z.to_nat num_updates) (sweep T)
  else if num_updates =? 1 then sweep T
  else mret tt.

Definition schedule_update (schedule : list (Qc * Z)) (seed : option Z)
  : Py world unit :=
  seed_random seed;;
  for_each schedule (fun '(T, n) => update T n None).

(** The reading of [schedule_update] given by the spec: seed once, then
    for each phase issue that many single-sweep [update] calls. *)
Definition schedule_as_single_updates (schedule : list (Qc * Z))
  (seed : option Z) : Py world unit :=
  seed_random seed;;
  for_each schedule
    (fun '(T, n) => for_range (Z.to_nat n) (update T 1 None)).

(** [self._subgraphs[v][k] = c] *)
Definition add_to_subgraph (k : term) (c : C) (v : label)
  (subs : gmap label graph) : result (gmap label graph) :=
  match subs !! v with
  | None => inl (KeyError missing_key)
  | Some d => inr (<[v := <[k := c]> d]> subs)
  end.

Fixpoint add_term (k : term) (c : C) (vs : list label)
  (subs : gmap label graph) : result (gmap label graph) :=
  match vs with
  | [] => inr subs
  | v :: vs' => rbind (add_to_subgraph k c v subs) (add_term k c vs')
  end.

Fixpoint add_terms (items : list (term * C)) (subs : gmap label graph)
  : result (gmap label graph) :=
  match items with
  | [] => inr subs
  | (k, c) :: items' => rbind (add_term k c k subs) (add_terms items')
  end.

(** The adjacency index: [{v: {} for v in variables}], then every term is
    entered under each of its labels. *)
Definition build_subgraphs (variables : list label) (model : graph)
  : result (gmap label graph) :=
  add_terms (map_to_list model)
            (list_to_map ((fun v => (v, ∅)) <$> variables)).

(** [list({v for k in model for v in k})] *)
Definition labels_of (model : graph) : list label :=
  elements (map_fold (fun k _ (acc : gset label) => list_to_set k ∪ acc)
                     ∅ model).

(** [SpinSimulation.__init__], run with [self] of class [c]. *)
Definition SpinSimulation_init (c : sim_class) (model : model_arg)
  (initial : option assignment) (mem : Z) : result simulation :=
  let variables :=
    match model_variables model with
    | Some vs => vs
    | None =>
        match initial with
        | Some st => fst <$> map_to_list st
        | None => labels_of (model_items model)
        end
    end in
  let init :=
    match initial with
    | Some st => st
    | None => list_to_map ((fun v => (v, 1)) <$> variables)
    end in
  let self0 :=
    {| cls := c; _variables := variables; _initial_state := init;
       _state := ∅; _past_states := []; _memory := mem;
       _subgraphs := ∅ |} in
  match set_state init self0 with
  | (inl e, _) => inl e
  | (inr _, self1) =>
      rbind (build_subgraphs variables (model_items model))
        (fun subs =>
           inr {| cls := c; _variables := variables;
                  _initial_state := init; _state := _state self1;
                  _past_states := []; _memory := mem;
                  _subgraphs := subs |})
  end.

(** [BooleanSimulation.__init__]; [pubo_to_puso] is not among the
    sources, so the constructor is given its result [puso]. *)
Definition BooleanSimulation_init (puso : model_arg)
  (initial : option assignment) (mem : Z) : result simulation :=
  match initial with
  | Some st => SpinSimulation_init BooleanSimulation puso (Some st) mem
  | None =>
      match model_variables puso with
      | None => inl AttributeError
      | Some vs =>
          SpinSimulation_init BooleanSimulation puso
            (Some (list_to_map ((fun v => (v, 0)) <$> vs))) mem
      end
  end.

(** Calls of a client program on a simulation.  Each call of a run is
    inside its own [try]: an exception ends the call and the next call
    finds the object as it was left. *)
Inductive call : Type :=
  | CallUpdate (T : Qc) (num_updates : Z) (seed : option Z)
  | CallScheduleUpdate (schedule : list (Qc * Z)) (seed : option Z)
  | CallReset
  | CallSetState (st : assignment).

Definition do_call (c : call) : Py world unit :=
  match c with
  | CallUpdate T n seed => update T n seed
  | CallScheduleUpdate schedule seed => schedule_update schedule seed
  | CallReset => on_self reset
  | CallSetState st => on_self (set_state st)
  end.

Definition run_calls (cs : list call) (w : world) : world :=
  foldl (fun w c => snd (do_call c w)) w cs.

Definition covers (z : assignment) (H : graph) : Prop :=
  forall k c, H !! k = Some c -> forall i, i ∈ k -> is_Some (z !! i).

(** The terms of a model that mention label [i]. *)
Definition incident (i : label) (model : graph) : graph :=
  filter (fun kc => i ∈ fst kc) model.

(** The dictionary under label [i] once [items] have been entered into an
    index that had [d] there. *)
Definition entered (i : label) (items : list (term * C)) (d : graph) : graph :=
  foldl (fun d kc => if decide (i ∈ fst kc) then <[fst kc := snd kc]> d else d)
        d items.

(** A simulation whose adjacency index is that of [model] and whose state
    assigns every variable: what a successful construction establishes. *)
Definition indexes (model : graph) (s : simulation) : Prop :=
  (forall i, _subgraphs s !! i =
             if decide (i ∈ _variables s) then Some (incident i model)
             else None) /\
  (forall k c, model !! k = Some c -> forall i, i ∈ k -> i ∈ _variables s) /\
  (forall i, i ∈ _variables s -> is_Some (_state s !! i)).

(** Every term of the model lists pairwise distinct labels. *)
Definition distinct_labels (model : graph) : Prop :=
  map_Forall (fun k _ => NoDup k) model.

(** Every variable has a value. *)
Definition total_on (variables : list label) (z : assignment) : Prop :=
  Forall (fun v => is_Some (z !! v)) variables.

(** A property of the simulation, read on the process. *)
Definition of_self (P : simulation -> Prop) : world -> Prop :=
  fun w => P (self_ w).

(** With [memory = 0] no snapshot is ever stored. *)
Definition no_history (s : simulation) : Prop :=
  _memory s = 0 /\ _past_states s = [].

(** The simulation indexes [model] and its variables are [variables]. *)
Definition indexes_over (model : graph)
  (variables : list label) : simulation -> Prop :=
  fun s => indexes model s /\ _variables s = variables.

(** The attributes no method assigns after the construction. *)
Definition same_frame (s0 s : simulation) : Prop :=
  cls s = cls s0 /\ _variables s = _variables s0 /\
  _initial_state s = _initial_state s0 /\ _memory s = _memory s0 /\
  _subgraphs s = _subgraphs s0.

(** The history holds at most [max(0, memory)] snapshots. *)
Definition bounded_history (mem : Z) (s : simulation) : Prop :=
  _memory s = mem /\ Z.of_nat (length (_past_states s)) <= Z.max 0 mem.

(** Every value of the state is a spin. *)
Definition spins (s : simulation) : Prop :=
  map_Forall (fun _ x => x = 1 \/ x = -1) (_state s).

(** A call other than [set_state]. *)
Definition not_set_state (c : call) : Prop :=
  match c with
  | CallSetState _ => False
  | _ => True
  end.

End Simulations.

(** ** The energy of a model with integer coefficients *)

Section IntegerEnergy.
Context {label : Type} `{Countable label}.

(** The energy as a total function: the value of a label outside the
    assignment is taken to be [0].  It agrees with [puso_value] whenever
    the assignment covers the labels of the model. *)
Definition value_of (z : gmap label Z) (i : label) : Z := default 0 (z !! i).

Definition product_of (z : gmap label Z) (k : list label) : Z :=
  foldr (fun i acc => value_of z i * acc) 1 k.

Definition energy_of (z : gmap label Z) (H : gmap (list label) Z) : Z :=
  map_fold (fun k c acc => c * product_of z k + acc) 0 H.


End IntegerEnergy.

(** ** QUBOMatrix, IsingCoupling and IsingField *)

(** The numbers stored as coefficients, with the operations the containers
    use: the literal [0], the literal [-1], truth value, [+], [-], [*] and
    true division [/] (which raises on a zero divisor). *)
Class Number (V : Type) : Type := {
  zero : V;
  minus_one : V;
  truthy : V -> bool;
  add : V -> V -> V;
  sub : V -> V -> V;
  mul : V -> V -> V;
  truediv : V -> V -> result V
}.

(** A number is false exactly when it is the zero. *)
Class NumberLaws (V : Type) `{Number V} : Prop := {
  truthy_false_iff : forall v : V, truthy v = false <-> v = zero
}.

(** Keys: a tuple of integers or a bare integer. *)
Inductive pykey : Type :=
  | KTuple (items : list Z)
  | KInt (n : Z).

Global Instance pykey_eq_dec : EqDecision pykey.
Proof. solve_decision. Defined.

Global Instance pykey_countable : Countable pykey.
Proof.
  refine (inj_countable'
            (fun k => match k with KTuple l => inl l | KInt n => inr n end)
            (fun s => match s with inl l => KTuple l | inr n => KInt n end) _).
  intros []; reflexivity.
Defined.

Inductive matrix_class : Type := QUBOMatrix | IsingCoupling | IsingField.

Section Matrices.
Context {V : Type} `{Number V}.

Record matrix : Type := {
  mcls : matrix_class;
  entries : gmap pykey V
}.

Definition with_entries (d : gmap pykey V) (self : matrix) : matrix :=
  {| mcls := mcls self; entries := d |}.

(** [try: k = tuple(sorted(key)) except TypeError: k = key] *)
Definition sorted_key (key : pykey) : pykey :=
  match key with
  | KTuple l => KTuple (merge_sort Z.le l)
  | KInt n => KInt n
  end.

(** [__getitem__]: [self.get(k, 0)] under the sorted key. *)
Definition getitem (key : pykey) (self : matrix) : V :=
  default zero (entries self !! sorted_key key).

(** [dict.__setitem__(k, value)] if [value] is true, else [self.pop(k, 0)]. *)
Definition store (k : pykey) (value : V) : Py matrix unit :=
  fun self =>
    if truthy value
    then (inr tt, with_entries (<[k := value]> (entries self)) self)
    else (inr tt, with_entries (delete k (entries self)) self).

Definition QUBOMatrix_setitem (key : pykey) (value : V) : Py matrix unit :=
  match key with
  | KTuple [a; b] =>
      if (a <? 0) || (b <? 0)
      then raise (KeyError
                    "Key formatted incorrectly, must be tuple of two integers")
      else store (KTuple (merge_sort Z.le [a; b])) value
  | _ => raise (KeyError
                  "Key formatted incorrectly, must be tuple of two integers")
  end.

Definition IsingCoupling_setitem (key : pykey) (value : V) : Py matrix unit :=
  match key with
  | KInt _ =>
      raise (KeyError
               "Key formatted incorrectly, must be tuple of two different integers")
  | KTuple [] => raise IndexError
  | KTuple [_] => raise IndexError
  | KTuple (a :: b :: _) =>
      if bool_decide (a = b)
      then raise (KeyError
                    "Key formatted incorrectly, must be tuple of two different integers")
      else QUBOMatrix_setitem key value
  end.

Definition IsingField_setitem (key : pykey) (value : V) : Py matrix unit :=
  match key with
  | KInt n =>
      if n <? 0
      then raise (KeyError
                    "Key formatted incorrectly, must be a positive integer")
      else store (KInt n) value
  | KTuple _ =>
      raise (KeyError "Key formatted incorrectly, must be a positive integer")
  end.

(** [self[key] = value], dispatched on the class of [self]. *)
Definition setitem (key : pykey) (value : V) : Py matrix unit :=
  fun self =>
    match mcls self with
    | QUBOMatrix => QUBOMatrix_setitem key value self
    | IsingCoupling => IsingCoupling_setitem key value self
    | IsingField => IsingField_setitem key value self
    end.

(** [self[key] += value] *)
Definition iadd_item (key : pykey) (value : V) : Py matrix unit :=
  fun self => setitem key (add (getitem key self) value) self.

(** [self[key] -= value] *)
Definition isub_item (key : pykey) (value : V) : Py matrix unit :=
  fun self => setitem key (sub (getitem key self) value) self.

(** [self[key] *= value] *)
Definition imul_item (key : pykey) (value : V) : Py matrix unit :=
  fun self => setitem key (mul (getitem key self) value) self.

(** [self[key] /= value] *)
Definition itruediv_item (key : pykey) (value : V) : Py matrix unit :=
  fun self =>
    match truediv (getitem key self) value with
    | inl e => (inl e, self)
    | inr q => setitem key q self
    end.

(** [__init__]: [items] are the items of the dictionary built from the
    arguments, in iteration order; the dictionary is cleared and every
    item is added back with [self[key] += value]. *)
Definition matrix_init (c : matrix_class) (items : list (pykey * V))
  : result matrix :=
  match for_each items (fun '(k, v) => iadd_item k v)
                 {| mcls := c; entries := ∅ |} with
  | (inl e, _) => inl e
  | (inr _, self) => inr self
  end.

(** [copy]: [type(self)(dict.copy(self))] *)
Definition copy (self : matrix) : result matrix :=
  matrix_init (mcls self) (map_to_list (entries self)).

(** [update]: [for k, v in dict(...).items(): self[k] = v] *)
Definition update_items (items : list (pykey * V)) : Py matrix unit :=
  for_each items (fun '(k, v) => setitem k v).

Definition iadd (other : list (pykey * V)) : Py matrix unit :=
  for_each other (fun '(k, v) => iadd_item k v).

Definition isub (other : list (pykey * V)) : Py matrix unit :=
  for_each other (fun '(k, v) => isub_item k v).

(** [for k in tuple(self.keys()): self[k] *= other] *)
Definition imul (other : V) : Py matrix unit :=
  fun self =>
    for_each (fst <$> map_to_list (entries self))
             (fun k => imul_item k other) self.

Definition itruediv (other : V) : Py matrix unit :=
  fun self =>
    for_each (fst <$> map_to_list (entries self))
             (fun k => itruediv_item k other) self.

(** [d = self.copy(); d op= other; return d] *)
Definition on_copy (m : Py matrix unit) (self : matrix) : result matrix :=
  rbind (copy self)
        (fun d => match m d with
                  | (inl e, _) => inl e
                  | (inr _, d') => inr d'
                  end).

Definition matrix_add (self : matrix) (other : list (pykey * V))
  : result matrix := on_copy (iadd other) self.

Definition matrix_sub (self : matrix) (other : list (pykey * V))
  : result matrix := on_copy (isub other) self.

Definition matrix_mul (self : matrix) (other : V) : result matrix :=
  on_copy (imul other) self.

Definition matrix_truediv (self : matrix) (other : V) : result matrix :=
  on_copy (itruediv other) self.

(** [__radd__] is [self + other]; [__rmul__] is [self * other];
    [__rsub__] is [-1*self + other]. *)
Definition matrix_radd (self : matrix) (other : list (pykey * V))
  : result matrix := matrix_add self other.

Definition matrix_rmul (self : matrix) (other : V) : result matrix :=
  matrix_mul self other.

Definition matrix_rsub (self : matrix) (other : list (pykey * V))
  : result matrix :=
  rbind (matrix_rmul self minus_one) (fun d => matrix_add d other).

(** One statement on a variable [d] bound to a container: an item
    assignment, [d.update(...)], an in-place operator, or [d = d op other].
    The state afterwards is the object [d] is bound to, also when the
    statement raised. *)
Inductive statement : Type :=
  | SetItem (key : pykey) (value : V)
  | Update (items : list (pykey * V))
  | IAdd (other : list (pykey * V))
  | ISub (other : list (pykey * V))
  | IMul (other : V)
  | ITrueDiv (other : V)
  | Add (other : list (pykey * V))
  | RAdd (other : list (pykey * V))
  | Sub (other : list (pykey * V))
  | RSub (other : list (pykey * V))
  | Mul (other : V)
  | RMul (other : V)
  | TrueDiv (other : V)
  | Copy.

Definition rebind (r : result matrix) : Py matrix unit :=
  fun self =>
    match r with
    | inl e => (inl e, self)
    | inr d => (inr tt, d)
    end.

Definition exec (s : statement) : Py matrix unit :=
  fun self =>
    match s with
    | SetItem key value => setitem key value self
    | Update items => update_items items self
    | IAdd other => iadd other self
    | ISub other => isub other self
    | IMul other => imul other self
    | ITrueDiv other => itruediv other self
    | Add other => rebind (matrix_add self other) self
    | RAdd other => rebind (matrix_radd self other) self
    | Sub other => rebind (matrix_sub self other) self
    | RSub other => rebind (matrix_rsub self other) self
    | Mul other => rebind (matrix_mul self other) self
    | RMul other => rebind (matrix_rmul self other) self
    | TrueDiv other => rebind (matrix_truediv self other) self
    | Copy => rebind (copy self) self
    end.

(** A run of statements, each inside its own [try]: an exception ends the
    statement and the next one runs on the object as it was left. *)
Definition run (prog : list statement) (self : matrix) : matrix :=
  foldl (fun d s => snd (exec s d)) self prog.

(** The coefficient accumulated under the stored key [k] by adding the
    items one by one: the values of the items whose sorted key is [k],
    summed from [0] in iteration order. *)
Definition accumulated (items : list (pykey * V)) (k : pykey) : V :=
  foldl add zero
        (snd <$> filter (fun kv => sorted_key (fst kv) = k) items).

(** What the dictionary holds for a coefficient: nothing when it is
    false. *)
Definition cell (v : V) : option V := if truthy v then Some v else None.

(** No stored value is false. *)
Definition no_zero (d : matrix) : Prop :=
  forall k v, entries d !! k = Some v -> truthy v = true.

(** A constructor call or a binary operator that returned, returned a
    container with the property. *)
Definition returned (P : matrix -> Prop) (r : result matrix) : Prop :=
  match r with
  | inl _ => True
  | inr d => P d
  end.

(** The format a key must have for an item assignment to be accepted. *)
Definition well_formed (c : matrix_class) (key : pykey) : Prop :=
  match c, key with
  | QUBOMatrix, KTuple [a; b] => 0 <= a /\ 0 <= b
  | IsingCoupling, KTuple [a; b] => 0 <= a /\ 0 <= b /\ a <> b
  | IsingField, KInt n => 0 <= n
  | _, _ => False
  end.

(** The container has class [c], and every stored key has the format of
    the class and is sorted. *)
Definition canonical_for (c : matrix_class) (d : matrix) : Prop :=
  mcls d = c /\
  forall k v, entries d !! k = Some v -> well_formed c k /\ sorted_key k = k.

End Matrices.

Arguments matrix V : clear implicits.
Arguments statement V : clear implicits.

(** ** The block parser of [qubovert/program/_parse_helper.py]

    Python strings are lists of characters; [open_] and [close] are
    one-character strings, as in every call of the repository. *)

(** [code.index(open_)] *)
Fixpoint str_index (c : ascii) (code : list ascii) : option nat :=
  match code with
  | [] => None
  | s :: rest => if decide (s = c) then Some O else S <$> str_index c rest
  end.

(** The loop of [next_block] over the rest of the code, entered with the
    counters [count] and [i]: the index [i] at which [count] reaches zero,
    or nothing when the loop runs to the end of the code. *)
Fixpoint scan_block (open_ close : ascii) (code : list ascii) (count : Z)
  (i : nat) : option nat :=
  match code with
  | [] => None
  | s :: rest =>
      let count' :=
        if decide (s = open_) then count + 1
        else if decide (s = close) then count - 1
        else count in
      if decide (count' = 0) then Some i
      else scan_block open_ close rest count' (S i)
  end.

(** [next_block(code, open_, close)]: a [ValueError] when [open_] does not
    occur, [None] when the loop ends without a return, else the pair of
    the block and the index after its closing bracket. *)
Definition next_block (code : list ascii) (open_ close : ascii)
  : result (option (list ascii * nat)) :=
  match str_index open_ code with
  | None => inl (ValueError "substring not found")
  | Some j =>
      let code' := drop (j + 1) code in
      match scan_block open_ close code' 1 0 with
      | None => inr None
      | Some i => inr (Some (take i code', (i + 1)%nat))
      end
  end.

(** Texts whose brackets match: no bracket, or a bracketed block inside a
    text of the kind. *)
Inductive balanced (open_ close : ascii) : list ascii -> Prop :=
  | balanced_nil : balanced open_ close []
  | balanced_char (c : ascii) (b : list ascii) :
      c <> open_ -> c <> close -> balanced open_ close b ->
      balanced open_ close (c :: b)
  | balanced_block (b1 b2 : list ascii) :
      balanced open_ close b1 -> balanced open_ close b2 ->
      balanced open_ close (open_ :: (b1 ++ (close :: b2))).

(** Occurrences of a character, as an integer. *)
Definition occurrences (c : ascii) (code : list ascii) : Z :=
  Z.of_nat (length (filter (fun s => s = c) code)).

(** ** Concrete instances *)

(** Exact rational numbers as coefficients. *)
Global Instance Qc_Number : Number Qc := {|
  zero := Q2Qc 0;
  minus_one := Q2Qc (-1);
  truthy := fun q => negb (Qc_eq_bool q (Q2Qc 0));
  add := Qcplus;
  sub := Qcminus;
  mul := Qcmult;
  truediv := fun x y =>
    if Qc_eq_bool y (Q2Qc 0) then inl ZeroDivisionError else inr (Qcdiv x y)
|}.

(** A linear congruential generator as random source.  The Metropolis
    test [u < exp(-dE / T)] holds for every draw when the exponent is
    positive ([dE > 0] and [T < 0]); otherwise a draw passes it when it
    falls in the lower half. *)
Definition lcg_next (g : Z) : Z := (g * 1103515245 + 12345) mod 2147483648.

Fixpoint lcg_choices {A : Type} (g : Z) (pop : list A) (k : nat)
  : list A * Z :=
  match k with
  | O => ([], g)
  | S k' =>
      let g' := lcg_next g in
      match pop !! Z.to_nat ((g' / 65536) mod Z.of_nat (length pop)) with
      | None => ([], g')
      | Some x => let (xs, g'') := lcg_choices g' pop k' in (x :: xs, g'')
      end
  end.

Definition lcg : RandomSource Z := {|
  rng := Z;
  sample := Z;
  random_seed := fun s => s mod 2147483648;
  random_random := fun g => (lcg_next g, lcg_next g);
  random_choices := @lcg_choices;
  lt_exp := fun u dE T =>
    match (T ?= Q2Qc 0)%Qc with
    | Lt => (0 <? dE) || (u <? 1073741824)
    | _ => u <? 1073741824
    end
|}.

(** A ferromagnetic chain on three spins, as a plain dictionary. *)
Definition chain : model_arg (label := nat) (C := Z) := {|
  model_items := {[ [0; 1]%nat := -1; [1; 2]%nat := -1 ]};
  model_variables := None
|}.

(** The object a constructor call evaluates to (the empty simulation
    stands for a call that raised). *)
Definition constructed {C : Type}
  (r : result (simulation (label := nat) (C := C)))
  : simulation (label := nat) (C := C) :=
  match r with
  | inr s => s
  | inl _ =>
      {| cls := SpinSimulation; _variables := []; _initial_state := ∅;
         _state := ∅; _past_states := []; _memory := 0; _subgraphs := ∅ |}
  end.

(** [SpinSimulation(chain, memory=mem)] *)
Definition chain_sim (mem : Z) : simulation (label := nat) (C := Z) :=
  constructed (SpinSimulation_init SpinSimulation chain None mem).

(** A process holding [chain_sim mem], with the generator in state [g]. *)
Definition chain_world (mem : Z) (g : Z) : world (label := nat) (R := lcg) :=
  @Build_world nat _ _ Z lcg (chain_sim mem) g.




(** Two fields with float coefficients, [{(0,): 0.5, (1,): 1e17}]; both
    numbers are binary64 floats. *)
Definition float_fields : model_arg (label := nat) (C := float) := {|
  model_items := {[ [0]%nat := 0.5%float; [1]%nat := 1e17%float ]};
  model_variables := None
|}.

(** [SpinSimulation(float_fields)] *)
Definition float_fields_sim : simulation (label := nat) (C := float) :=
  constructed (SpinSimulation_init SpinSimulation float_fields None 0).

(** ** Graph problems that build containers: VertexCover and
    GraphPartitioning *)

(** [enumerate(l)] *)
Definition enumerate {A : Type} (l : list A) : list (Z * A) :=
  imap (fun i x => (Z.of_nat i, x)) l.

(** A dictionary comprehension or [dict(pairs)]: the items are entered in
    order, a later one replacing an earlier one under the same key. *)
Definition dict_of {K A : Type} `{Countable K} (items : list (K * A))
  : gmap K A :=
  foldl (fun m kv => <[fst kv := snd kv]> m) ∅ items.

(** [d[k]], raising [KeyError] on a missing key. *)
Definition dict_get {K A S : Type} `{Countable K} (d : gmap K A) (k : K)
  : Py S A :=
  match d !! k with
  | Some a => mret a
  | None => raise (KeyError missing_key)
  end.

(** [{y for x in edges for y in x}] *)
Definition endpoints {vertex : Type} `{Countable vertex}
  (edges : gset (vertex * vertex)) : gset vertex :=
  list_to_set (e ← elements edges; [fst e; snd e]).

(** The output of a QUBO or Ising solver: a dictionary from variable
    labels to values, or a list of values indexed by the labels. *)
Inductive solver_output : Type :=
  | AsDict (d : gmap Z Z)
  | AsList (l : list Z).

(** [solution if isinstance(solution, dict) else dict(enumerate(solution))] *)
Definition as_dict (solution : solver_output) : gmap Z Z :=
  match solution with
  | AsDict d => d
  | AsList l => dict_of (enumerate l)
  end.

(** [sum_{i <= j} x[i] x[j] Q[(i, j)]], the objective the docstrings of
    [to_qubo] and [to_ising] give for a container: the sum over the stored
    entries of the coefficient times the values of the labels of the
    key. *)
Definition key_product (x : Z -> Qc) (k : pykey) : Qc :=
  match k with
  | KTuple l => foldr (fun i acc => (x i * acc)%Qc) (Q2Qc 1) l
  | KInt n => x n
  end.

Definition objective (x : Z -> Qc) (Q : matrix Qc) : Qc :=
  map_fold (fun k q acc => (q * key_product x k + acc)%Qc) (Q2Qc 0)
           (entries Q).

(** The sum of a list of numbers. *)
Definition total (l : list Qc) : Qc := foldr Qcplus (Q2Qc 0) l.

(** The variable that stands for a vertex under a numbering. *)
Definition variable_of {vertex : Type} `{Countable vertex}
  (numbering : gmap vertex Z) (v : vertex) : Z :=
  default 0 (numbering !! v).

Module VertexCover.
Section VertexCover.
Context {vertex : Type} `{Countable vertex}.

Record t : Type := {
  _edges : gset (vertex * vertex);
  _vertices : gset vertex;
  _vertex_to_index : gmap vertex Z;
  _index_to_vertex : gmap Z vertex;
  _N : Z;
  _n : Z
}.

(** [__init__(self, edges)] *)
Definition init (edges : gset (vertex * vertex)) : t :=
  let vertices := endpoints edges in
  let vertex_to_index :=
    dict_of ((fun ix => (snd ix, fst ix)) <$> enumerate (elements vertices)) in
  {| _edges := edges;
     _vertices := vertices;
     _vertex_to_index := vertex_to_index;
     _index_to_vertex :=
       dict_of ((fun xi => (snd xi, fst xi)) <$> map_to_list vertex_to_index);
     _N := Z.of_nat (size vertices);
     _n := Z.of_nat (size edges) |}.

Definition E (self : t) : gset (vertex * vertex) := _edges self.

Definition V (self : t) : gset vertex := _vertices self.

Definition num_binary_variables (self : t) : Z := _N self.

(** The body of the loop over the edges in [to_qubo]. *)
Definition encode_edge (self : t) (A : Qc) (e : vertex * vertex)
  : Py (matrix Qc) unit :=
  iu ← dict_get (_vertex_to_index self) (fst e);
  iv ← dict_get (_vertex_to_index self) (snd e);
  iadd_item (KTuple [iu; iv]) A;;
  isub_item (KTuple [iu; iu]) A;;
  isub_item (KTuple [iv; iv]) A.

(** [to_qubo(self, A, B)]: the pair [(Q, offset)]. *)
Definition to_qubo (self : t) (A B : Qc) : result (matrix Qc * Qc) :=
  rbind (matrix_init QUBOMatrix [])
    (fun Q =>
       let offset := (Q2Qc (inject_Z (_n self)) * A)%Qc in
       match (for_each (seqZ 0 (_N self))
                       (fun i => iadd_item (KTuple [i; i]) B);;
              for_each (elements (_edges self)) (encode_edge self A)) Q with
       | (inl e, _) => inl e
       | (inr _, Q') => inr (Q', offset)
       end).

(** [set(self._index_to_vertex[i] for i, x in solution.items() if x == 1)] *)
Fixpoint colored (self : t) (items : list (Z * Z)) : result (gset vertex) :=
  match items with
  | [] => inr ∅
  | (i, x) :: items' =>
      if decide (x = 1) then
        match _index_to_vertex self !! i with
        | None => inl (KeyError missing_key)
        | Some v => rbind (colored self items') (fun s => inr ({[v]} ∪ s))
        end
      else colored self items'
  end.

Definition convert_solution (self : t) (solution : solver_output)
  : result (gset vertex) :=
  colored self (map_to_list (as_dict solution)).

(** [is_solution_valid]: [solution] is a set of vertices, or a solver
    output that is converted first. *)
Definition is_solution_valid (self : t)
  (solution : gset vertex + solver_output) : result bool :=
  rbind (match solution with
         | inl s => inr s
         | inr out => convert_solution self out
         end)
    (fun s =>
       inr (bool_decide
              (Forall (fun e => fst e ∈ s \/ snd e ∈ s)
                      (elements (_edges self))))).

End VertexCover.
End VertexCover.

Module GraphPartitioning.
Section GraphPartitioning.
Context {vertex : Type} `{Countable vertex}.

Record t : Type := {
  _edges : gset (vertex * vertex);
  _vertices : gset vertex;
  _vertex_to_index : gmap vertex Z;
  _index_to_vertex : gmap Z vertex;
  _N : Z;
  _n : Z;
  _degree : Z
}.

(** [all_degs[q] = all_degs.setdefault(q, 0) + 1] for every end [q] of
    every edge. *)
Definition count_end (all_degs : gmap vertex Z) (q : vertex)
  : gmap vertex Z :=
  <[q := default 0 (all_degs !! q) + 1]> all_degs.

Definition all_degrees (edges : gset (vertex * vertex)) : gmap vertex Z :=
  foldl (fun degs e => count_end (count_end degs (fst e)) (snd e)) ∅
        (elements edges).

(** [max(all_degs.values()) if all_degs else 0] *)
Definition max_degree (all_degs : gmap vertex Z) : Z :=
  match snd <$> map_to_list all_degs with
  | [] => 0
  | d :: ds => foldl Z.max d ds
  end.

(** [__init__(self, edges)] *)
Definition init (edges : gset (vertex * vertex)) : result t :=
  let vertices := endpoints edges in
  let vertex_to_index :=
    dict_of ((fun ix => (snd ix, fst ix)) <$> enumerate (elements vertices)) in
  let N := Z.of_nat (size vertices) in
  if decide (N mod 2 = 0) then
    inr {| _edges := edges;
           _vertices := vertices;
           _vertex_to_index := vertex_to_index;
           _index_to_vertex :=
             dict_of ((fun xi => (snd xi, fst xi))
                        <$> map_to_list vertex_to_index);
           _N := N;
           _n := Z.of_nat (size edges);
           _degree := max_degree (all_degrees edges) |}
  else inl (ValueError "The graph must have an even number of vertices").

Definition E (self : t) : gset (vertex * vertex) := _edges self.

Definition V (self : t) : gset vertex := _vertices self.

Definition degree (self : t) : Z := _degree self.

Definition num_binary_variables (self : t) : Z := _N self.

(** The body of the loop over the edges in [to_ising]; [B / 2] divides by
    a literal and cannot raise. *)
Definition encode_edge (self : t) (B : Qc) (e : vertex * vertex)
  : Py (matrix Qc) unit :=
  iu ← dict_get (_vertex_to_index self) (fst e);
  iv ← dict_get (_vertex_to_index self) (snd e);
  isub_item (KTuple [iu; iv]) (B / Q2Qc 2)%Qc.

(** [to_ising(self, A, B)]: the triple [(h, J, offset)]; with [A] omitted,
    [A = min(2 * degree, N) * B / 8]. *)
Definition to_ising (self : t) (A : option Qc) (B : Qc)
  : result (matrix Qc * matrix Qc * Qc) :=
  let A :=
    match A with
    | Some a => a
    | None =>
        (Q2Qc (inject_Z (Z.min (2 * _degree self) (_N self))) * B
         / Q2Qc 8)%Qc
    end in
  rbind (matrix_init IsingField [])
    (fun h =>
       rbind (matrix_init IsingCoupling [])
         (fun J =>
            let offset :=
              (A * Q2Qc (inject_Z (_N self))
               + B * Q2Qc (inject_Z (_n self)) / Q2Qc 2)%Qc in
            match (for_each (seqZ 0 (_N self))
                     (fun i =>
                        for_each (seqZ (i + 1) (_N self - (i + 1)))
                          (fun j =>
                             iadd_item (KTuple [i; j]) (Q2Qc 2 * A)%Qc));;
                   for_each (elements (_edges self)) (encode_edge self B))
                    J with
            | (inl e, _) => inl e
            | (inr _, J') => inr (h, J', offset)
            end)).

(** The vertices of the variables that satisfy [keep]. *)
Fixpoint part (self : t) (keep : Z -> bool) (items : list (Z * Z))
  : result (gset vertex) :=
  match items with
  | [] => inr ∅
  | (i, x) :: items' =>
      if keep x then
        match _index_to_vertex self !! i with
        | None => inl (KeyError missing_key)
        | Some v => rbind (part self keep items') (fun s => inr ({[v]} ∪ s))
        end
      else part self keep items'
  end.

(** [convert_solution]: the vertices with value [1], then the others. *)
Definition convert_solution (self : t) (solution : solver_output)
  : result (gset vertex * gset vertex) :=
  rbind (part self (fun x => bool_decide (x = 1))
              (map_to_list (as_dict solution)))
    (fun partition1 =>
       rbind (part self (fun x => bool_decide (x <> 1))
                   (map_to_list (as_dict solution)))
         (fun partition2 => inr (partition1, partition2))).

(** [is_solution_valid]: [solution] is a pair of sets, or a solver output
    that is converted first. *)
Definition is_solution_valid (self : t)
  (solution : gset vertex * gset vertex + solver_output) : result bool :=
  rbind (match solution with
         | inl parts => inr parts
         | inr out => convert_solution self out
         end)
    (fun parts => inr (bool_decide (size (fst parts) = size (snd parts)))).

End GraphPartitioning.
End GraphPartitioning.

(** * Properties *)

(** ** The monad *)

Section MonadFacts.
Context {S : Type}.

Lemma bind_unfold {A B} (m : Py S A) (f : A -> Py S B) (s : S) :
  (m ≫= f) s =
  match m s with
  | (inl e, s') => (inl e, s')
  | (inr a, s') => f a s'
  end.
Proof. reflexivity. Qed.

Lemma bind_ok {A B} (m : Py S A) (f : A -> Py S B) (s s' : S) (a : A) :
  m s = (inr a, s') -> (m ≫= f) s = f a s'.
Proof. intros Hm. rewrite bind_unfold, Hm. reflexivity. Qed.

Lemma bind_raise {A B} (m : Py S A) (f : A -> Py S B) (s s' : S) (e : exn) :
  m s = (inl e, s') -> (m ≫= f) s = (inl e, s').
Proof. intros Hm. rewrite bind_unfold, Hm. reflexivity. Qed.

Lemma bind_ret_unit (m : Py S unit) (s : S) :
  (m ≫= fun _ => mret tt) s = m s.
Proof.
  rewrite bind_unfold. destruct (m s) as [[e|[]] s']; reflexivity.
Qed.

Lemma bind_ext {A B} (m m' : Py S A) (f f' : A -> Py S B) (s : S) :
  m s = m' s -> (forall a s', f a s' = f' a s') ->
  (m ≫= f) s = (m' ≫= f') s.
Proof.
  intros Hm Hf. rewrite !bind_unfold, Hm.
  destruct (m' s) as [[e|a] s']; [reflexivity | apply Hf].
Qed.

Lemma for_range_ext (n : nat) (body body' : Py S unit) :
  (forall s, body s = body' s) ->
  forall s, for_range n body s = for_range n body' s.
Proof.
  intros Hb. induction n as [|n IH]; intros s; simpl; [reflexivity|].
  apply bind_ext; [apply Hb | intros _ s'; apply IH].
Qed.

Lemma for_each_ext {A} (xs : list A) (body body' : A -> Py S unit) :
  (forall x s, body x s = body' x s) ->
  forall s, for_each xs body s = for_each xs body' s.
Proof.
  intros Hb. induction xs as [|x xs IH]; intros s; simpl; [reflexivity|].
  apply bind_ext; [apply Hb | intros _ s'; apply IH].
Qed.

Lemma keeps_ret {A} (P : S -> Prop) (a : A) : keeps P (mret a).
Proof. intros s Hs. exact Hs. Qed.

Lemma keeps_raise {A} (P : S -> Prop) (e : exn) : keeps P (raise (A:=A) e).
Proof. intros s Hs. exact Hs. Qed.

Lemma keeps_get (P : S -> Prop) : keeps P get.
Proof. intros s Hs. exact Hs. Qed.

Lemma keeps_bind {A B} (P : S -> Prop) (m : Py S A) (f : A -> Py S B) :
  keeps P m -> (forall a, keeps P (f a)) -> keeps P (m ≫= f).
Proof.
  intros Hm Hf s Hs. rewrite bind_unfold.
  specialize (Hm s Hs). destruct (m s) as [[e|a] s']; simpl in *.
  - exact Hm.
  - apply Hf, Hm.
Qed.

Lemma keeps_for_each {A} (P : S -> Prop) (xs : list A)
  (body : A -> Py S unit) :
  (forall x, keeps P (body x)) -> keeps P (for_each xs body).
Proof.
  intros Hb. induction xs as [|x xs IH]; simpl.
  - apply keeps_ret.
  - apply keeps_bind; [apply Hb | intros _; exact IH].
Qed.

Lemma keeps_for_range (P : S -> Prop) (n : nat) (body : Py S unit) :
  keeps P body -> keeps P (for_range n body).
Proof.
  intros Hb. induction n as [|n IH]; simpl.
  - apply keeps_ret.
  - apply keeps_bind; [exact Hb | intros _; exact IH].
Qed.

Lemma safe_ret {A} (P : S -> Prop) (a : A) : safe P (mret a).
Proof. intros s Hs. exists a, s. split; [reflexivity | exact Hs]. Qed.

Lemma safe_bind {A B} (P : S -> Prop) (m : Py S A) (f : A -> Py S B) :
  safe P m -> (forall a, safe P (f a)) -> safe P (m ≫= f).
Proof.
  intros Hm Hf s Hs. destruct (Hm s Hs) as (a & s' & Hms & Hs').
  rewrite (bind_ok _ _ _ _ _ Hms). apply Hf, Hs'.
Qed.

Lemma safe_for_each {A} (P : S -> Prop) (Q : A -> Prop) (xs : list A)
  (body : A -> Py S unit) :
  (forall x, Q x -> safe P (body x)) -> Forall Q xs ->
  safe P (for_each xs body).
Proof.
  intros Hb Hxs. induction Hxs as [|x xs Hx _ IH]; simpl.
  - apply safe_ret.
  - apply safe_bind; [apply Hb, Hx | intros _; exact IH].
Qed.

Lemma safe_for_range (P : S -> Prop) (n : nat) (body : Py S unit) :
  safe P body -> safe P (for_range n body).
Proof.
  intros Hb. induction n as [|n IH]; simpl.
  - apply safe_ret.
  - apply safe_bind; [exact Hb | intros _; exact IH].
Qed.

End MonadFacts.

(** ** The update loop *)

Section UpdateFacts.
Context {label : Type} `{Countable label}.
Context {R : RandomSource Z}.

Abbreviation world_ := (world (label := label)).

Lemma seed_random_None (w : world_) : seed_random None w = (inr tt, w).
Proof. reflexivity. Qed.

(** A call [self.update(T)] runs one sweep. *)
Lemma update_single (T : Qc) (w : world_) : update T 1 None w = sweep T w.
Proof. reflexivity. Qed.

Lemma update_zero (T : Qc) (w : world_) : update T 0 None w = (inr tt, w).
Proof. reflexivity. Qed.

Lemma update_many (T : Qc) (n : Z) (w : world_) :
  1 < n -> update T n None w = for_range (Z.to_nat n) (sweep T) w.
Proof.
  intros Hn. unfold update. rewrite (bind_ok _ _ _ _ _ (seed_random_None w)).
  destruct (Z.ltb_spec n 0) as [?|_]; [lia|].
  destruct (Z.ltb_spec 1 n) as [_|?]; [reflexivity | lia].
Qed.

(** A call with a count [n >= 0] and no seed does what [n] single-sweep
    calls do. *)
Lemma update_as_singles (T : Qc) (n : Z) (w : world_) :
  0 <= n ->
  update T n None w = for_range (Z.to_nat n) (update T 1 None) w.
Proof.
  intros Hn.
  destruct (Z.eq_dec n 0) as [->|Hn0]; [reflexivity|].
  destruct (Z.eq_dec n 1) as [->|Hn1].
  - change (Z.to_nat 1) with 1%nat. simpl for_range.
    symmetry. apply bind_ret_unit.
  - rewrite update_many by lia.
    apply for_range_ext. intros s. symmetry. apply update_single.
Qed.

Lemma for_each_ext_Forall {S A} (P : A -> Prop) (xs : list A)
  (body body' : A -> Py S unit) :
  (forall x s, P x -> body x s = body' x s) -> Forall P xs ->
  forall s, for_each xs body s = for_each xs body' s.
Proof.
  intros Hb Hxs. induction Hxs as [|x xs Hx _ IH]; intros s; simpl.
  - reflexivity.
  - apply bind_ext; [apply Hb, Hx | intros _ s'; apply IH].
Qed.

(** C8: for a schedule of phases with non-negative sweep counts,
    [schedule_update] gives the same result, the same final simulation
    (state and history) and the same random state as seeding once and
    issuing, for each phase in order, that many single-sweep [update]
    calls at the phase's temperature. *)
Theorem schedule_update_refines_single_updates
  (schedule : list (Qc * Z)) (seed : option Z) (w : world_) :
  Forall (fun phase => 0 <= snd phase) schedule ->
  schedule_update schedule seed w =
  schedule_as_single_updates schedule seed w.
Proof.
  intros Hs. unfold schedule_update, schedule_as_single_updates.
  apply bind_ext; [reflexivity|]. intros _ w'.
  apply (for_each_ext_Forall (fun phase => 0 <= snd phase)); [|exact Hs].
  intros [T n] s Hn. simpl in *. apply update_as_singles, Hn.
Qed.

(** C6 (as the code has it): a call with [num_updates < 0] raises the
    [ValueError] after the seeding: the simulation (state and history) is
    unchanged, no snapshot is taken and no flip is tried, but when a seed
    is given the random source has been re-initialised from it. *)
Theorem update_negative_count_raises_after_seeding
  (T : Qc) (n : Z) (seed : option Z) (w : world_) :
  n < 0 ->
  update T n seed w =
  (inl (ValueError "Cannot update a negative number of times"),
   {| self_ := self_ w;
      random_ := match seed with
                 | Some s => random_seed s
                 | None => random_ w
                 end |}).
Proof.
  intros Hn. unfold update, seed_random. rewrite bind_unfold.
  destruct seed as [s|]; destruct w as [sf g]; simpl;
    destruct (Z.ltb_spec n 0) as [_|?]; solve [reflexivity | lia].
Qed.

End UpdateFacts.

(** ** The adjacency index *)

Section IndexFacts.
Context {label : Type} `{Countable label}.

Abbreviation graph_ := (gmap (list label) Z).
Abbreviation index_ := (gmap label (gmap (list label) Z)).

Lemma add_term_spec (k : list label) (c : Z) (vs : list label)
  (subs subs' : index_) :
  add_term k c vs subs = inr subs' ->
  (forall v, v ∈ vs -> is_Some (subs !! v)) /\
  (forall i, subs' !! i =
             if decide (i ∈ vs) then insert k c <$> subs !! i
             else subs !! i).
Proof.
  revert subs. induction vs as [|v vs IH]; intros subs Hadd; simpl in Hadd.
  - injection Hadd as <-. split.
    + intros v Hv. inversion Hv.
    + intros i. rewrite decide_False; [reflexivity | apply not_elem_of_nil].
  - unfold add_to_subgraph in Hadd.
    destruct (subs !! v) as [d|] eqn:Hv; [|discriminate]. simpl in Hadd.
    apply IH in Hadd as [Hdom Hlook]. split.
    + intros u Hu. apply elem_of_cons in Hu as [->|Hu].
      * rewrite Hv. eauto.
      * specialize (Hdom u Hu). rewrite lookup_insert in Hdom.
        destruct (decide (v = u)) as [<-|]; [rewrite Hv; eauto | exact Hdom].
    + intros i. rewrite Hlook, lookup_insert.
      destruct (decide (v = i)) as [<-|Hne].
      * rewrite Hv. rewrite (decide_True (P := v ∈ v :: vs))
          by (apply elem_of_cons; auto).
        destruct (decide (v ∈ vs)); simpl; [|reflexivity].
        rewrite insert_insert_eq. reflexivity.
      * destruct (decide (i ∈ vs)) as [Hi|Hi].
        -- rewrite decide_True by (apply elem_of_cons; auto).
           reflexivity.
        -- rewrite decide_False; [reflexivity|].
           intros Hc. apply elem_of_cons in Hc as [->|?]; tauto.
Qed.

Lemma entered_cons (i : label) (k : list label) (c : Z)
  (items : list (list label * Z)) (d : graph_) :
  entered i ((k, c) :: items) d =
  entered i items (if decide (i ∈ k) then <[k := c]> d else d).
Proof. reflexivity. Qed.

Lemma add_terms_spec (items : list (list label * Z)) (subs subs' : index_) :
  add_terms items subs = inr subs' ->
  (forall k c, (k, c) ∈ items -> forall v, v ∈ k -> is_Some (subs !! v)) /\
  (forall i, subs' !! i = entered i items <$> subs !! i).
Proof.
  revert subs. induction items as [|[k c] items IH]; intros subs Hadd;
    simpl in Hadd.
  - injection Hadd as <-. split.
    + intros k c Hkc. inversion Hkc.
    + intros i. simpl. destruct (subs !! i); reflexivity.
  - destruct (add_term k c k subs) as [e|subs1] eqn:H1; [discriminate|].
    simpl in Hadd. apply add_term_spec in H1 as [Hdom1 Hlook1].
    apply IH in Hadd as [Hdom Hlook]. split.
    + intros k' c' Hkc v Hv. apply elem_of_cons in Hkc as [[= -> ->]|Hkc].
      * apply Hdom1, Hv.
      * specialize (Hdom k' c' Hkc v Hv). rewrite Hlook1 in Hdom.
        destruct (decide (v ∈ k)); [|exact Hdom].
        destruct (subs !! v); [eauto | destruct Hdom; discriminate].
    + intros i. rewrite Hlook, Hlook1.
      destruct (subs !! i) as [d|].
      * change (entered i ((k, c) :: items) <$> Some d)
          with (Some (entered i ((k, c) :: items) d)).
        rewrite entered_cons.
        destruct (decide (i ∈ k)); reflexivity.
      * destruct (decide (i ∈ k)); reflexivity.
Qed.

Lemma entered_lookup (i : label) (items : list (list label * Z))
  (d : graph_) (k : list label) :
  NoDup (items.*1) ->
  entered i items d !! k =
  match (list_to_map items : graph_) !! k with
  | Some c => if decide (i ∈ k) then Some c else d !! k
  | None => d !! k
  end.
Proof.
  revert d. induction items as [|[k0 c0] items IH]; intros d Hnd.
  - simpl. rewrite lookup_empty. reflexivity.
  - apply NoDup_cons in Hnd as [Hk0 Hnd]. rewrite entered_cons. simpl.
    rewrite IH by exact Hnd. rewrite lookup_insert.
    destruct (decide (k0 = k)) as [<-|Hne].
    + rewrite (not_elem_of_list_to_map_1 _ _ Hk0).
      destruct (decide (i ∈ k0)); [apply lookup_insert_eq | reflexivity].
    + destruct (list_to_map items !! k) as [c|]; destruct (decide (i ∈ k));
        try reflexivity;
        destruct (decide (i ∈ k0)); try reflexivity;
        apply lookup_insert_ne, Hne.
Qed.

Lemma entered_map_to_list (i : label) (model : graph_) :
  entered i (map_to_list model) ∅ = incident i model.
Proof.
  apply map_eq. intros k.
  rewrite entered_lookup by apply NoDup_fst_map_to_list.
  rewrite list_to_map_to_list, lookup_empty. unfold incident.
  apply option_eq. intros c. rewrite map_lookup_filter_Some. simpl.
  destruct (model !! k) as [c'|]; [|intuition discriminate].
  destruct (decide (i ∈ k)); intuition congruence.
Qed.

Lemma empty_index_lookup (variables : list label) (i : label) :
  (list_to_map ((fun v => (v, ∅)) <$> variables) : index_) !! i =
  if decide (i ∈ variables) then Some ∅ else None.
Proof.
  induction variables as [|v vs IH].
  - change (list_to_map _) with (∅ : index_).
    rewrite lookup_empty, decide_False; [reflexivity | apply not_elem_of_nil].
  - change (list_to_map _)
      with (<[v := ∅]> (list_to_map ((fun v => (v, ∅)) <$> vs) : index_)).
    rewrite lookup_insert. destruct (decide (v = i)) as [<-|Hne].
    + rewrite decide_True; [reflexivity | apply elem_of_cons; auto].
    + rewrite IH. destruct (decide (i ∈ vs)) as [Hi|Hi].
      * rewrite decide_True; [reflexivity | apply elem_of_cons; auto].
      * rewrite decide_False; [reflexivity|].
        intros Hc. apply elem_of_cons in Hc as [->|?]; tauto.
Qed.

(** The index built by the constructor: under every variable, the terms
    of the model that mention it; and every label of the model is a
    variable (or the construction raises). *)
Lemma build_subgraphs_spec (variables : list label) (model : graph_)
  (subs : index_) :
  build_subgraphs variables model = inr subs ->
  (forall i, subs !! i =
             if decide (i ∈ variables) then Some (incident i model)
             else None) /\
  (forall k c, model !! k = Some c -> forall i, i ∈ k -> i ∈ variables).
Proof.
  unfold build_subgraphs. intros Hb.
  apply add_terms_spec in Hb as [Hdom Hlook]. split.
  - intros i. rewrite Hlook, empty_index_lookup.
    destruct (decide (i ∈ variables)); simpl; [|reflexivity].
    rewrite entered_map_to_list. reflexivity.
  - intros k c Hk i Hi.
    apply elem_of_map_to_list in Hk. specialize (Hdom k c Hk i Hi).
    rewrite empty_index_lookup in Hdom.
    destruct (decide (i ∈ variables)); [assumption|].
    destruct Hdom; discriminate.
Qed.

End IndexFacts.

(** ** The energy and the effect of one flip *)

Section EnergyFacts.
Context {label : Type} `{Countable label}.

Abbreviation assignment_ := (gmap label Z).
Abbreviation model_ := (gmap (list label) Z).

Lemma term_product_total (z : assignment_) (k : list label) :
  (forall i, i ∈ k -> is_Some (z !! i)) ->
  term_product z k = Some (product_of z k).
Proof.
  induction k as [|i k IH]; intros Hk; simpl; [reflexivity|].
  destruct (Hk i) as [v Hv]; [apply elem_of_cons; auto|].
  rewrite IH by (intros j Hj; apply Hk, elem_of_cons; auto).
  unfold value_of. rewrite Hv. reflexivity.
Qed.

Lemma energy_of_insert (z : assignment_) (m : model_) (k : list label)
  (c : Z) :
  m !! k = None ->
  energy_of z (<[k := c]> m) = c * product_of z k + energy_of z m.
Proof.
  intros Hk. unfold energy_of.
  rewrite map_fold_insert_L; [reflexivity | | exact Hk].
  intros. lia.
Qed.

Lemma puso_value_insert (z : assignment_) (m : model_) (k : list label)
  (c : Z) :
  m !! k = None ->
  puso_value z (<[k := c]> m) =
  p ← term_product z k; a ← puso_value z m; Some (c * p + a).
Proof.
  intros Hk. unfold puso_value.
  rewrite map_fold_insert_L; [reflexivity | | exact Hk].
  intros j1 j2 c1 c2 y _ _ _.
  destruct (term_product z j1), (term_product z j2), y; simpl;
    try reflexivity.
  f_equal. lia.
Qed.

Lemma covers_insert (z : assignment_) (m : model_) (k : list label) (c : Z) :
  m !! k = None -> covers z (<[k := c]> m) ->
  (forall i, i ∈ k -> is_Some (z !! i)) /\ covers z m.
Proof.
  intros Hk Hc. split.
  - intros i Hi. apply (Hc k c); [apply lookup_insert_eq | exact Hi].
  - intros k' c' Hk' i Hi. apply (Hc k' c'); [|exact Hi].
    rewrite lookup_insert_ne; [exact Hk' | congruence].
Qed.

(** On an assignment that covers the model, [puso_value] returns the
    energy. *)
Lemma puso_value_total (z : assignment_) (m : model_) :
  covers z m -> puso_value z m = Some (energy_of z m).
Proof.
  induction m as [|k c m Hk IH] using map_ind; intros Hc.
  - reflexivity.
  - apply covers_insert in Hc as [Hkz Hc]; [|exact Hk].
    rewrite puso_value_insert, energy_of_insert by exact Hk.
    rewrite (term_product_total _ _ Hkz), (IH Hc). reflexivity.
Qed.

Lemma covers_incident (z : assignment_) (m : model_) (i : label) :
  covers z m -> covers z (incident i m).
Proof.
  intros Hc k c Hk. apply map_lookup_filter_Some in Hk as [Hk _].
  exact (Hc k c Hk).
Qed.

Lemma incident_insert (i : label) (m : model_) (k : list label) (c : Z) :
  m !! k = None ->
  incident i (<[k := c]> m) =
  if decide (i ∈ k) then <[k := c]> (incident i m) else incident i m.
Proof.
  intros Hk. unfold incident. destruct (decide (i ∈ k)) as [Hi|Hi].
  - apply map_filter_insert_True. exact Hi.
  - apply map_filter_insert_not'; [exact Hi|].
    intros y Hy. congruence.
Qed.

Lemma value_of_insert (z : assignment_) (i j : label) (v : Z) :
  value_of (<[i := v]> z) j = if decide (i = j) then v else value_of z j.
Proof.
  unfold value_of. rewrite lookup_insert.
  destruct (decide (i = j)); reflexivity.
Qed.

(** Negating the value of [i] negates the product of a term that lists
    [i] once, and leaves the product of a term without [i] as it is. *)
Lemma product_of_flip (z : assignment_) (i : label) (k : list label) :
  NoDup k ->
  product_of (<[i := value_of z i * -1]> z) k =
  if decide (i ∈ k) then - product_of z k else product_of z k.
Proof.
  induction k as [|j k IH]; intros Hnd.
  - rewrite decide_False; [reflexivity | apply not_elem_of_nil].
  - apply NoDup_cons in Hnd as [Hj Hnd]. simpl.
    rewrite value_of_insert, (IH Hnd).
    destruct (decide (i = j)) as [->|Hne].
    + rewrite (decide_False (P := j ∈ k)) by exact Hj.
      rewrite decide_True by (apply elem_of_cons; auto). lia.
    + destruct (decide (i ∈ k)) as [Hi|Hi].
      * rewrite decide_True by (apply elem_of_cons; auto). lia.
      * rewrite decide_False; [reflexivity|].
        intros Hc. apply elem_of_cons in Hc as [?|?]; tauto.
Qed.

(** Flipping [i] changes the energy by [-2] times the energy of the terms
    incident to [i]. *)
Lemma energy_of_flip (z : assignment_) (i : label) (m : model_) :
  distinct_labels m ->
  energy_of (<[i := value_of z i * -1]> z) m - energy_of z m =
  -2 * energy_of z (incident i m).
Proof.
  induction m as [|k c m Hk IH] using map_ind; intros Hd.
  - reflexivity.
  - apply map_Forall_insert in Hd as [Hnd Hd]; [|exact Hk].
    rewrite !energy_of_insert by exact Hk.
    rewrite incident_insert by exact Hk.
    rewrite (product_of_flip _ _ _ Hnd). specialize (IH Hd).
    destruct (decide (i ∈ k)).
    + rewrite energy_of_insert; [lia|].
      apply map_lookup_filter_None. left. exact Hk.
    + lia.
Qed.

End EnergyFacts.

(** ** Invariants of the update loop *)

Section Invariants.
Context {label : Type} `{Countable label}.
Context {R : RandomSource Z}.

Abbreviation sim_ := (simulation (label := label) (C := Z)).
Abbreviation wrld_ := (world (label := label)).

Lemma keeps_on_self {A} (P : sim_ -> Prop) (m : Py sim_ A) :
  keeps P m -> keeps (of_self P) (on_self m).
Proof.
  intros Hm w Hw. unfold on_self, of_self in *.
  specialize (Hm (self_ w) Hw). destruct (m (self_ w)) as [r s]. exact Hm.
Qed.

Lemma keeps_seed_random (P : sim_ -> Prop) (seed : option Z) :
  keeps (of_self P) (seed_random seed).
Proof. intros w Hw. destruct seed; exact Hw. Qed.

Lemma keeps_draw_choices (P : sim_ -> Prop) (k : nat) :
  keeps (of_self P) (draw_choices k).
Proof.
  intros w Hw. unfold draw_choices.
  destruct (random_choices _ _ _) as [drawn g]. exact Hw.
Qed.

Lemma keeps_draw_random (P : sim_ -> Prop) :
  keeps (of_self P) draw_random.
Proof.
  intros w Hw. unfold draw_random.
  destruct (random_random _) as [u g]. exact Hw.
Qed.

Lemma keeps_delta_E (P : sim_ -> Prop) (i : label) : keeps P (delta_E i).
Proof.
  intros s Hs. unfold delta_E.
  destruct (_subgraphs s !! i) as [sub|]; [|exact Hs].
  destruct (puso_value _ _); exact Hs.
Qed.

(** [delta_E] reads the simulation and leaves it as it is. *)
Lemma delta_E_self (i : label) (s : sim_) : snd (delta_E i s) = s.
Proof.
  unfold delta_E. destruct (_subgraphs s !! i) as [sub|]; [|reflexivity].
  destruct (puso_value _ _); reflexivity.
Qed.

(** The loop body, by cases on the energy change and the temperature. *)
Lemma candidate_unfold (T : Qc) (i : label) (w : wrld_) :
  candidate T i w =
  match fst (delta_E i (self_ w)) with
  | inl e => (inl e, w)
  | inr dE =>
      if dE <=? 0 then on_self (_flip_bit i) w
      else if truthy_T T then
        let w' := {| self_ := self_ w;
                     random_ := snd (random_random (random_ w)) |} in
        if lt_exp (fst (random_random (random_ w))) dE T
        then on_self (_flip_bit i) w'
        else (inr tt, w')
      else (inr tt, w)
  end.
Proof.
  unfold candidate. rewrite bind_unfold. unfold on_self at 1.
  pose proof (delta_E_self i (self_ w)) as Hs.
  destruct (delta_E i (self_ w)) as [[e|dE] s]; simpl in *; subst s;
    destruct w as [sf g]; simpl; [reflexivity|].
  destruct (dE <=? 0); [reflexivity|].
  destruct (truthy_T T); [|reflexivity].
  rewrite bind_unfold. unfold draw_random. simpl.
  destruct (random_random g) as [u g']; simpl.
  destruct (lt_exp u dE T); reflexivity.
Qed.

Lemma flip_bit_unfold (i : label) (w : wrld_) :
  on_self (_flip_bit i) w =
  match _state (self_ w) !! i with
  | None => (inl (KeyError missing_key), w)
  | Some v =>
      (inr tt, {| self_ := with_state (<[i := v * -1]> (_state (self_ w)))
                                      (self_ w);
                  random_ := random_ w |})
  end.
Proof.
  unfold on_self, _flip_bit. destruct w as [sf g]; simpl.
  destruct (_state sf !! i); reflexivity.
Qed.

Lemma keeps_flip_bit (P : sim_ -> Prop) (i : label) :
  (forall st s, P s -> P (with_state st s)) ->
  keeps (of_self P) (on_self (_flip_bit i)).
Proof.
  intros HP w Hw. rewrite flip_bit_unfold.
  destruct (_state (self_ w) !! i); [apply HP|]; exact Hw.
Qed.

(** The loop body keeps what a flip keeps. *)
Lemma keeps_candidate (P : sim_ -> Prop) (T : Qc) (i : label) :
  keeps (of_self P) (on_self (_flip_bit i)) ->
  keeps (of_self P) (candidate T i).
Proof.
  intros Hflip w Hw. rewrite candidate_unfold.
  destruct (fst (delta_E i (self_ w))) as [e|dE]; [exact Hw|].
  destruct (dE <=? 0); [apply Hflip, Hw|].
  destruct (truthy_T T); [|exact Hw]. simpl.
  destruct (lt_exp _ _ _); [|exact Hw].
  apply Hflip, Hw.
Qed.

(** A sweep keeps what taking a snapshot and every loop body keep. *)
Lemma keeps_sweep (P : sim_ -> Prop) (T : Qc) :
  keeps P _add_past_state ->
  (forall i, keeps (of_self P) (candidate T i)) ->
  keeps (of_self P) (sweep T).
Proof.
  intros Hadd Hc. unfold sweep.
  apply keeps_bind; [apply keeps_on_self, Hadd | intros _].
  apply keeps_bind; [apply keeps_get | intros w].
  apply keeps_bind; [apply keeps_draw_choices | intros drawn].
  apply keeps_for_each, Hc.
Qed.

Lemma keeps_update (P : sim_ -> Prop) (T : Qc) (n : Z) (seed : option Z) :
  keeps (of_self P) (sweep T) -> keeps (of_self P) (update T n seed).
Proof.
  intros Hs. unfold update.
  apply keeps_bind; [apply keeps_seed_random | intros _].
  destruct (n <? 0); [apply keeps_raise|].
  destruct (1 <? n); [apply keeps_for_range, Hs|].
  destruct (n =? 1); [exact Hs | apply keeps_ret].
Qed.

Lemma keeps_schedule_update (P : sim_ -> Prop) (schedule : list (Qc * Z))
  (seed : option Z) :
  (forall T, keeps (of_self P) (sweep T)) ->
  keeps (of_self P) (schedule_update schedule seed).
Proof.
  intros Hs. unfold schedule_update.
  apply keeps_bind; [apply keeps_seed_random | intros _].
  apply keeps_for_each. intros [T n]. apply keeps_update, Hs.
Qed.

(** What the setters of [_state] and [_past_states] keep is kept by every
    call of a client run. *)
Lemma keeps_set_state (P : sim_ -> Prop) (st : gmap label Z) :
  (forall st' s, P s -> P (with_state st' s)) -> keeps P (set_state st).
Proof.
  intros HP s Hs. unfold set_state, SpinSimulation_set_state,
    BooleanSimulation_set_state.
  destruct (cls s); destruct (restrict _ _) as [e|d]; simpl; try exact Hs.
  - destruct (any_value_not_in _ _); apply HP, Hs.
  - destruct (any_value_not_in _ _); [exact Hs | apply HP, Hs].
Qed.

Lemma keeps_do_call (P : sim_ -> Prop) (c : call) :
  (forall st, keeps P (set_state st)) ->
  (forall i, keeps (of_self P) (on_self (_flip_bit i))) ->
  (forall s, P s -> P (with_past_states [] s)) ->
  keeps P _add_past_state ->
  keeps (of_self P) (do_call c).
Proof.
  intros Hst Hflip Hps Hadd.
  assert (Hsweep : forall T, keeps (of_self P) (sweep T)).
  { intros T. apply keeps_sweep; [exact Hadd|]. intros i.
    apply keeps_candidate, Hflip. }
  destruct c as [T n seed|schedule seed| |st]; simpl.
  - apply keeps_update, Hsweep.
  - apply keeps_schedule_update, Hsweep.
  - apply keeps_on_self. intros s Hs. unfold reset.
    apply Hst, Hps, Hs.
  - apply keeps_on_self, Hst.
Qed.

Lemma keeps_run_calls (P : sim_ -> Prop) (cs : list call) (w : wrld_) :
  (forall st, keeps P (set_state st)) ->
  (forall i, keeps (of_self P) (on_self (_flip_bit i))) ->
  (forall s, P s -> P (with_past_states [] s)) ->
  keeps P _add_past_state ->
  P (self_ w) -> P (self_ (run_calls cs w)).
Proof.
  intros Hst Hflip Hps Hadd. revert w.
  induction cs as [|c cs IH]; intros w Hw; simpl; [exact Hw|].
  apply IH. apply (keeps_do_call P c Hst Hflip Hps Hadd w Hw).
Qed.

(** What a successful construction fixes besides the state and the index. *)
Lemma init_fields (c : sim_class) (model : model_arg)
  (initial : option (gmap label Z)) (mem : Z) (s : sim_) :
  SpinSimulation_init c model initial mem = inr s ->
  cls s = c /\ _memory s = mem /\ _past_states s = [].
Proof.
  unfold SpinSimulation_init. intros Hinit.
  destruct (set_state _ _) as [[e|[]] s1]; [discriminate|].
  destruct (build_subgraphs _ _) as [e|subs]; [discriminate|].
  simpl in Hinit. injection Hinit as <-. auto.
Qed.

Lemma no_history_add_past_state :
  keeps (no_history (label := label) (C := Z)) _add_past_state.
Proof.
  intros s [Hm Hp]. unfold _add_past_state. rewrite Hm. simpl.
  split; assumption.
Qed.

(** C9: an engine constructed with [memory = 0] returns, after any run of
    [update], [schedule_update], [reset] and [set_state] calls, the
    one-element list of (a copy of) the current state from
    [get_past_states()]. *)
Theorem memory_zero_get_past_states
  (c : sim_class) (model : model_arg) (initial : option (gmap label Z))
  (s : sim_) (g : rng) (cs : list call) :
  SpinSimulation_init c model initial 0 = inr s ->
  get_past_states None (self_ (run_calls cs {| self_ := s; random_ := g |})) =
  [state (self_ (run_calls cs {| self_ := s; random_ := g |}))].
Proof.
  intros Hinit. apply init_fields in Hinit as (_ & Hm & Hp).
  assert (Hrun : no_history
                   (self_ (run_calls cs {| self_ := s; random_ := g |}))).
  { apply keeps_run_calls.
    - intros st. apply keeps_set_state. intros st' s' Hs'. exact Hs'.
    - intros i. apply keeps_flip_bit. intros st' s' Hs'. exact Hs'.
    - intros s' [Hm' _]. split; [exact Hm' | reflexivity].
    - apply no_history_add_past_state.
    - split; assumption. }
  destruct Hrun as [Hm' Hp'].
  unfold get_past_states. rewrite Hm', Hp'. reflexivity.
Qed.

(** With [num_states >= 2] the most recent [min(num_states - 1, available)]
    snapshots are returned, oldest first, followed by the current state. *)
Lemma get_past_states_some (n : Z) (s : sim_) :
  2 <= n ->
  get_past_states (Some n) s =
  drop (length (_past_states s) - Z.to_nat (n - 1)) (_past_states s)
    ++ [state s].
Proof.
  intros Hn. unfold get_past_states.
  rewrite bool_decide_eq_false_2 by (intros [=]; lia).
  simpl. unfold slice_from.
  destruct (Z.ltb_spec (- n + 1) 0) as [_|?]; [|lia].
  do 2 f_equal. lia.
Qed.

(** With [num_states] omitted and [memory >= 2], one snapshot fewer than
    the capacity is returned: [num_states] is set to [memory], of which
    the current state takes one place. *)
Lemma get_past_states_none (s : sim_) :
  2 <= _memory s ->
  get_past_states None s =
  drop (length (_past_states s) - Z.to_nat (_memory s - 1)) (_past_states s)
    ++ [state s].
Proof.
  intros Hm. unfold get_past_states. simpl. unfold slice_from.
  destruct (Z.ltb_spec (- _memory s + 1) 0) as [_|?]; [|lia].
  do 2 f_equal. lia.
Qed.

(** [BooleanSimulation.set_state] checks before it assigns: when it raises,
    the simulation is as it was. *)
Lemma BooleanSimulation_set_state_raises (st : gmap label Z) (s s' : sim_)
  (e : exn) :
  BooleanSimulation_set_state st s = (inl e, s') -> s' = s.
Proof.
  unfold BooleanSimulation_set_state.
  destruct (restrict _ _) as [e'|d]; [congruence|].
  destruct (any_value_not_in _ _); congruence.
Qed.

End Invariants.

(** ** Constructed simulations *)

Section Constructed.
Context {label : Type} `{Countable label}.
Context {R : RandomSource Z}.

Abbreviation simu_ := (simulation (label := label) (C := Z)).
Abbreviation proc_ := (world (label := label)).

Lemma restrict_total (variables : list label) (st d : gmap label Z) :
  restrict variables st = inr d ->
  forall v, v ∈ variables -> is_Some (d !! v).
Proof.
  revert d. induction variables as [|u vs IH]; intros d Hr v Hv.
  - inversion Hv.
  - simpl in Hr. destruct (st !! u) as [x|]; [|discriminate].
    destruct (restrict vs st) as [e|d'] eqn:Hd'; [discriminate|].
    simpl in Hr. injection Hr as <-. rewrite lookup_insert.
    destruct (decide (u = v)) as [|Hne]; [eauto|].
    apply (IH d' eq_refl). apply elem_of_cons in Hv as [->|Hv]; tauto.
Qed.

Lemma indexes_with_state (model : gmap (list label) Z) (s : simu_)
  (st : gmap label Z) :
  indexes model s ->
  (forall v, v ∈ _variables s -> is_Some (st !! v)) ->
  indexes model (with_state st s).
Proof. intros (Hi & Hl & _) Hst. repeat split; assumption. Qed.

Lemma indexes_with_past_states (model : gmap (list label) Z) (s : simu_)
  (ps : list (gmap label Z)) :
  indexes model s -> indexes model (with_past_states ps s).
Proof. intros (Hi & Hl & Ht). repeat split; assumption. Qed.

Lemma indexes_covers (model : gmap (list label) Z) (s : simu_) :
  indexes model s -> covers (_state s) model.
Proof. intros (_ & Hl & Ht) k c Hk i Hi. apply Ht, (Hl k c Hk i Hi). Qed.

(** [set_state] leaves every variable with a value, also when it raises. *)
Lemma set_state_total (st : gmap label Z) (s : simu_) :
  (forall v, v ∈ _variables s -> is_Some (_state s !! v)) \/
    fst (set_state st s) = inr tt ->
  _variables (snd (set_state st s)) = _variables s /\
  _subgraphs (snd (set_state st s)) = _subgraphs s /\
  forall v, v ∈ _variables s -> is_Some (_state (snd (set_state st s)) !! v).
Proof.
  unfold set_state, SpinSimulation_set_state, BooleanSimulation_set_state.
  destruct (cls s); destruct (restrict _ _) as [e|d] eqn:Hd; simpl.
  - intros [Ht|[=]]. auto.
  - intros _. destruct (any_value_not_in _ _); simpl;
      (repeat split; [apply (restrict_total _ _ _ Hd)]).
  - intros [Ht|[=]]. auto.
  - destruct (any_value_not_in _ _); simpl.
    + intros [Ht|[=]]. auto.
    + intros _. repeat split. intros v Hv. unfold boolean_to_spin.
      rewrite lookup_fmap. apply fmap_is_Some, (restrict_total _ _ _ Hd v Hv).
Qed.

Lemma keeps_indexes_set_state (model : gmap (list label) Z)
  (st : gmap label Z) :
  keeps (indexes model) (set_state st).
Proof.
  intros s (Hi & Hl & Ht).
  destruct (set_state_total st s (or_introl Ht)) as (Hv & Hs & Ht').
  unfold indexes. rewrite Hv, Hs. repeat split; assumption.
Qed.

Lemma keeps_indexes_flip_bit (model : gmap (list label) Z) (i : label) :
  keeps (of_self (indexes model)) (on_self (_flip_bit i)).
Proof.
  intros w Hw. rewrite flip_bit_unfold.
  destruct (_state (self_ w) !! i) as [v|] eqn:Hv; [|exact Hw].
  apply indexes_with_state; [exact Hw|].
  intros u Hu. rewrite lookup_insert.
  destruct (decide (i = u)); [eauto|]. destruct Hw as (_ & _ & Ht).
  apply Ht, Hu.
Qed.

Lemma keeps_indexes_add_past_state (model : gmap (list label) Z) :
  keeps (indexes model) _add_past_state.
Proof.
  intros s Hs. unfold _add_past_state.
  destruct (bool_decide _); [|exact Hs].
  apply indexes_with_past_states, Hs.
Qed.

(** A successful construction indexes its model. *)
Lemma init_indexes (c : sim_class) (model : model_arg)
  (initial : option (gmap label Z)) (mem : Z) (s : simu_) :
  SpinSimulation_init c model initial mem = inr s ->
  indexes (model_items model) s.
Proof.
  unfold SpinSimulation_init. intros Hinit.
  match type of Hinit with
  | context [set_state ?st ?s0] =>
      pose proof (set_state_total st s0) as Hset;
      destruct (set_state st s0) as [[e|[]] s1]; [discriminate|]
  end.
  destruct (Hset (or_intror eq_refl)) as (_ & _ & Ht). clear Hset.
  destruct (build_subgraphs _ _) as [e|subs] eqn:Hb; [discriminate|].
  apply build_subgraphs_spec in Hb as [Hi Hl].
  simpl in Hinit. injection Hinit as <-.
  repeat split; simpl in *; assumption.
Qed.

(** Every call of a client run keeps the simulation indexing its model. *)
Lemma run_calls_indexes (model : gmap (list label) Z) (cs : list call)
  (w : proc_) :
  indexes model (self_ w) -> indexes model (self_ (run_calls cs w)).
Proof.
  apply keeps_run_calls.
  - apply keeps_indexes_set_state.
  - apply keeps_indexes_flip_bit.
  - intros s. apply indexes_with_past_states.
  - apply keeps_indexes_add_past_state.
Qed.

(** What [delta_E] computes on a simulation that indexes its model. *)
Lemma delta_E_indexed (model : gmap (list label) Z) (s : simu_) (i : label) :
  indexes model s ->
  delta_E i s =
  if decide (i ∈ _variables s)
  then (inr (-2 * energy_of (_state s) (incident i model)), s)
  else (inl (KeyError missing_key), s).
Proof.
  intros Hs. unfold delta_E. destruct Hs as (Hi & Hl & Ht) eqn:Hs'.
  rewrite Hi. destruct (decide (i ∈ _variables s)); [|reflexivity].
  rewrite puso_value_total; [reflexivity|].
  apply covers_incident, indexes_covers. exact Hs.
Qed.

(** A flip that succeeds changes the energy by what [delta_E] computed. *)
Lemma flip_bit_energy (model : gmap (list label) Z) (s : simu_) (i : label)
  (v : Z) :
  distinct_labels model -> _state s !! i = Some v ->
  energy_of (<[i := v * -1]> (_state s)) model =
  energy_of (_state s) model
  + -2 * energy_of (_state s) (incident i model).
Proof.
  intros Hd Hv.
  pose proof (energy_of_flip (_state s) i model Hd) as He.
  unfold value_of in He at 1. rewrite Hv in He. simpl in He. lia.
Qed.

(** C2 (as the code has it): on a simulation whose index was built from
    a model with integer coefficients and pairwise distinct labels in
    every term, and whose state gives every variable a value, the [dE]
    computed for a variable [i] from the index is the energy of the whole
    model after flipping [i] minus the energy before. *)
Theorem delta_E_is_energy_difference
  (model : gmap (list label) Z) (s : simu_) (i : label) :
  distinct_labels model ->
  build_subgraphs (_variables s) model = inr (_subgraphs s) ->
  total_on (_variables s) (_state s) ->
  i ∈ _variables s ->
  exists dE before after s',
    delta_E i s = (inr dE, s) /\
    puso_value (_state s) model = Some before /\
    _flip_bit i s = (inr tt, s') /\
    puso_value (_state s') model = Some after /\
    dE = after - before.
Proof.
  intros Hd Hb Ht Hi.
  assert (Hs : indexes model s).
  { apply build_subgraphs_spec in Hb as [Hsub Hl].
    repeat split; [exact Hsub | exact Hl |].
    intros v Hv. exact (proj1 (Forall_forall _ _) Ht v Hv). }
  destruct (proj2 (proj2 Hs) i Hi) as [v Hv].
  assert (Hs' : indexes model (with_state (<[i := v * -1]> (_state s)) s)).
  { apply indexes_with_state; [exact Hs|]. intros u Hu.
    rewrite lookup_insert. destruct (decide (i = u)); [eauto|].
    apply (proj2 (proj2 Hs)), Hu. }
  exists (-2 * energy_of (_state s) (incident i model)),
    (energy_of (_state s) model),
    (energy_of (<[i := v * -1]> (_state s)) model),
    (with_state (<[i := v * -1]> (_state s)) s).
  split; [|split; [|split; [|split]]].
  - rewrite (delta_E_indexed model s i Hs), decide_True by exact Hi.
    reflexivity.
  - apply puso_value_total, indexes_covers, Hs.
  - unfold _flip_bit. rewrite Hv. reflexivity.
  - apply puso_value_total. apply (indexes_covers model _ Hs').
  - rewrite (flip_bit_energy model s i v Hd Hv). lia.
Qed.

(** *** Zero temperature *)





(** *** Any temperature: the update loop does not raise *)

Lemma safe_candidate (model : gmap (list label) Z) (variables : list label)
  (T : Qc) (i : label) :
  i ∈ variables ->
  safe (of_self (indexes_over model variables)) (candidate T i).
Proof.
  intros Hi w [Hw Hv].
  assert (Hflip : forall g,
    exists a w', on_self (_flip_bit i)
                   {| self_ := self_ w; random_ := g |} = (inr a, w') /\
                 of_self (indexes_over model variables) w').
  { intros g. rewrite flip_bit_unfold. simpl.
    destruct (proj2 (proj2 Hw) i) as [v Hvi]; [rewrite Hv; exact Hi|].
    rewrite Hvi. eexists _, _. split; [reflexivity|]. split; [|exact Hv].
    pose proof (keeps_indexes_flip_bit model i
                  {| self_ := self_ w; random_ := g |} Hw) as Hk.
    rewrite flip_bit_unfold in Hk. simpl in Hk. rewrite Hvi in Hk. exact Hk. }
  rewrite candidate_unfold, (delta_E_indexed model _ i Hw).
  rewrite decide_True by (rewrite Hv; exact Hi). simpl.
  destruct (_ <=? 0).
  { destruct w as [sf g0]. apply Hflip. }
  destruct (truthy_T T).
  - destruct (lt_exp _ _ _); [apply Hflip|].
    eexists _, _. split; [reflexivity|]. split; assumption.
  - eexists _, _. split; [reflexivity|]. split; assumption.
Qed.

Lemma safe_sweep `{!RandomSourceLaws R} (model : gmap (list label) Z)
  (variables : list label) (T : Qc) :
  safe (of_self (indexes_over model variables)) (sweep T).
Proof.
  intros w [Hw Hv]. unfold sweep.
  assert (Hadd : exists w1, on_self _add_past_state w = (inr tt, w1) /\
                            of_self (indexes_over model variables) w1).
  { unfold on_self, _add_past_state.
    destruct (bool_decide _); eexists; (split; [reflexivity|]);
      split; assumption. }
  destruct Hadd as (w1 & Hadd & Hw1).
  rewrite (bind_ok _ _ _ _ _ Hadd).
  rewrite bind_unfold. simpl. rewrite bind_unfold. unfold draw_choices.
  destruct (random_choices _ _ _) as [drawn g'] eqn:Hdraw.
  apply (safe_for_each _ (fun i => i ∈ variables)).
  - intros i Hi. apply (safe_candidate model variables T i Hi).
  - apply Forall_forall. intros i Hi.
    rewrite <- (proj2 Hw1).
    apply (random_choices_elem _ (random_ w1) _
             (length (_variables (self_ w1)))).
    rewrite Hdraw. exact Hi.
  - exact Hw1.
Qed.

Lemma safe_update `{!RandomSourceLaws R} (model : gmap (list label) Z)
  (variables : list label) (T : Qc) (n : Z) (seed : option Z) :
  0 <= n -> safe (of_self (indexes_over model variables)) (update T n seed).
Proof.
  intros Hn. unfold update. apply safe_bind.
  - intros w Hw. destruct seed; eexists _, _; (split; [reflexivity|]);
      exact Hw.
  - intros _. destruct (Z.ltb_spec n 0); [lia|].
    destruct (1 <? n); [apply safe_for_range, safe_sweep|].
    destruct (n =? 1); [apply safe_sweep | apply safe_ret].
Qed.

Lemma safe_returns {S} (P : S -> Prop) (m : Py S unit) (s : S) :
  safe P m -> P s -> fst (m s) = inr tt.
Proof.
  intros Hm Hs. destruct (Hm s Hs) as ([] & s' & -> & _). reflexivity.
Qed.

(** C4 (as the code has it): on a constructed engine, at any point of a
    client run, [update] with a negative temperature and a count [>= 0]
    does not raise, nor does [schedule_update] on phases of any
    temperatures with counts [>= 0].  A negative temperature is a true
    value and makes the exponent of the Metropolis test positive, so the
    loop body flips every candidate: one with [dE <= 0] without a draw,
    an uphill one after one draw from the random source, whatever the
    draw is. *)
Theorem negative_temperature_is_not_rejected
  `{!RandomSourceLaws R} `{!MetropolisLaws R}
  (c : sim_class) (model : model_arg) (initial : option (gmap label Z))
  (mem : Z) (s0 : simu_) (g : rng) (cs : list call) :
  SpinSimulation_init c model initial mem = inr s0 ->
  let w := run_calls cs {| self_ := s0; random_ := g |} in
  (forall T n seed, (T < Q2Qc 0)%Qc -> 0 <= n ->
                    fst (update T n seed w) = inr tt) /\
  (forall schedule seed,
     Forall (fun phase : Qc * Z => 0 <= snd phase) schedule ->
     fst (schedule_update schedule seed w) = inr tt) /\
  (forall T i, (T < Q2Qc 0)%Qc ->
     candidate T i w =
     match fst (delta_E i (self_ w)) with
     | inl e => (inl e, w)
     | inr dE =>
         if dE <=? 0 then on_self (_flip_bit i) w
         else on_self (_flip_bit i)
                {| self_ := self_ w;
                   random_ := snd (random_random (random_ w)) |}
     end) /\
  (forall T i, (T < Q2Qc 0)%Qc -> i ∈ _variables (self_ w) ->
     exists v,
       _state (self_ w) !! i = Some v /\
       fst (candidate T i w) = inr tt /\
       _state (self_ (snd (candidate T i w))) =
       <[i := v * -1]> (_state (self_ w))).
Proof.
  intros Hinit w.
  assert (Hw : of_self (indexes_over (model_items model)
                                     (_variables (self_ w))) w).
  { split; [|reflexivity].
    apply run_calls_indexes. simpl. apply (init_indexes _ _ _ _ _ Hinit). }
  assert (Hcand : forall T i, (T < Q2Qc 0)%Qc ->
     candidate T i w =
     match fst (delta_E i (self_ w)) with
     | inl e => (inl e, w)
     | inr dE =>
         if dE <=? 0 then on_self (_flip_bit i) w
         else on_self (_flip_bit i)
                {| self_ := self_ w;
                   random_ := snd (random_random (random_ w)) |}
     end).
  { intros T i HT. rewrite candidate_unfold.
    assert (Htrue : truthy_T T = true).
    { unfold truthy_T. destruct (Qc_eq_bool T (Q2Qc 0)) eqn:Heq;
        [|reflexivity].
      apply Qc_eq_bool_correct in Heq. subst T.
      exfalso. exact (Qclt_not_eq _ _ HT eq_refl). }
    rewrite Htrue.
    destruct (fst (delta_E i (self_ w))) as [e|dE]; [reflexivity|].
    destruct (Z.leb_spec dE 0) as [Hle|Hgt]; [reflexivity|].
    cbv zeta. rewrite (lt_exp_positive_exponent _ dE T Hgt HT).
    reflexivity. }
  split; [|split; [|split; [exact Hcand|]]].
  - intros T n seed _ Hn.
    apply (safe_returns _ _ _ (safe_update _ _ T n seed Hn) Hw).
  - intros schedule seed Hs. refine (safe_returns _ _ _ _ Hw).
    unfold schedule_update. apply safe_bind.
    + intros w1 Hw1. destruct seed; eexists _, _; (split; [reflexivity|]);
        exact Hw1.
    + intros _. apply (safe_for_each _ (fun phase => 0 <= snd phase));
        [|exact Hs].
      intros [T n] Hn. apply safe_update, Hn.
  - intros T i HT Hi. destruct Hw as [Hw _].
    destruct (proj2 (proj2 Hw) i Hi) as [v Hv]. exists v.
    split; [exact Hv|].
    rewrite (Hcand T i HT), (delta_E_indexed (model_items model) _ i Hw).
    rewrite decide_True by exact Hi. cbn [fst].
    destruct (_ <=? 0); rewrite flip_bit_unfold; cbn [self_];
      rewrite Hv; split; reflexivity.
Qed.

End Constructed.

(** ** The life cycle of a simulation *)

Section Lifecycle.
Context {label : Type} `{Countable label}.
Context {R : RandomSource Z}.

Abbreviation engine_ := (simulation (label := label) (C := Z)).
Abbreviation process_ := (world (label := label)).

Lemma keeps_same_frame_run (s0 : engine_) (cs : list call) (w : process_) :
  same_frame s0 (self_ w) -> same_frame s0 (self_ (run_calls cs w)).
Proof.
  apply keeps_run_calls.
  - intros st. apply keeps_set_state. intros st' s Hs. exact Hs.
  - intros i. apply keeps_flip_bit. intros st' s Hs. exact Hs.
  - intros s Hs. exact Hs.
  - intros s Hs. unfold _add_past_state.
    destruct (bool_decide _); exact Hs.
Qed.

(** X1: no run of [update], [schedule_update], [reset] and [set_state]
    calls, whether they return or raise, changes the class, the variables,
    the initial state, the memory capacity or the adjacency index of a
    simulation. *)
Theorem calls_keep_configuration (cs : list call) (w : process_) :
  cls (self_ (run_calls cs w)) = cls (self_ w) /\
  _variables (self_ (run_calls cs w)) = _variables (self_ w) /\
  _initial_state (self_ (run_calls cs w)) = _initial_state (self_ w) /\
  _memory (self_ (run_calls cs w)) = _memory (self_ w) /\
  _subgraphs (self_ (run_calls cs w)) = _subgraphs (self_ w).
Proof.
  apply (keeps_same_frame_run (self_ w) cs w). repeat split.
Qed.

(** [restrict] reads the given assignment at the variables only. *)
Lemma restrict_lookup (variables : list label) (st d : gmap label Z) :
  restrict variables st = inr d ->
  forall v, d !! v = if decide (v ∈ variables) then st !! v else None.
Proof.
  revert d. induction variables as [|u vs IH]; intros d Hr v.
  - simpl in Hr. injection Hr as <-. rewrite lookup_empty.
    rewrite decide_False; [reflexivity | apply not_elem_of_nil].
  - simpl in Hr. destruct (st !! u) as [x|] eqn:Hu; [|discriminate].
    destruct (restrict vs st) as [e|d'] eqn:Hd'; [discriminate|].
    simpl in Hr. injection Hr as <-. rewrite lookup_insert.
    destruct (decide (u = v)) as [<-|Hne].
    + rewrite decide_True by (apply elem_of_cons; auto). congruence.
    + rewrite (IH d' eq_refl v). destruct (decide (v ∈ vs)) as [Hv|Hv].
      * rewrite decide_True by (apply elem_of_cons; auto). reflexivity.
      * rewrite decide_False; [reflexivity|].
        intros Hc. apply elem_of_cons in Hc as [->|?]; tauto.
Qed.

Lemma restrict_ext (variables : list label) (st st' : gmap label Z) :
  (forall v, v ∈ variables -> st !! v = st' !! v) ->
  restrict variables st = restrict variables st'.
Proof.
  induction variables as [|u vs IH]; intros Hst; simpl; [reflexivity|].
  rewrite <- (Hst u) by (apply elem_of_cons; auto).
  rewrite IH by (intros v Hv; apply Hst, elem_of_cons; auto).
  reflexivity.
Qed.

Lemma restrict_missing (variables : list label) (st : gmap label Z)
  (v : label) :
  v ∈ variables -> st !! v = None ->
  restrict variables st = inl (KeyError missing_key).
Proof.
  induction variables as [|u vs IH]; intros Hv Hst.
  - inversion Hv.
  - simpl. destruct (st !! u) as [x|] eqn:Hu; [|reflexivity].
    apply elem_of_cons in Hv as [->|Hv]; [congruence|].
    rewrite (IH Hv Hst). reflexivity.
Qed.

Lemma restrict_present (variables : list label) (st : gmap label Z) :
  (forall v, v ∈ variables -> is_Some (st !! v)) ->
  exists d, restrict variables st = inr d.
Proof.
  induction variables as [|u vs IH]; intros Hst; simpl; [eauto|].
  destruct (Hst u) as [x ->]; [apply elem_of_cons; auto|].
  destruct IH as [d ->]; [intros v Hv; apply Hst, elem_of_cons; auto|].
  simpl. eauto.
Qed.

Lemma any_value_not_in_false (allowed : list Z) (d : gmap label Z) :
  any_value_not_in allowed d = false <->
  forall k x, d !! k = Some x -> x ∈ allowed.
Proof.
  unfold any_value_not_in. rewrite bool_decide_eq_false, Exists_exists.
  split.
  - intros Hn k x Hk. destruct (decide (x ∈ allowed)) as [|Hx]; [assumption|].
    exfalso. apply Hn. exists (k, x). split; [|exact Hx].
    apply elem_of_map_to_list. exact Hk.
  - intros Hall [[k x] [Hk Hx]]. apply elem_of_map_to_list in Hk.
    exact (Hx (Hall k x Hk)).
Qed.

(** X2: [set_state] reads the given assignment at the variables of the
    simulation only: two assignments that agree there have the same
    effect, whatever else they hold. *)
Theorem set_state_ignores_other_labels (st st' : gmap label Z)
  (s : engine_) :
  (forall v, v ∈ _variables s -> st !! v = st' !! v) ->
  set_state st s = set_state st' s.
Proof.
  intros Hst. unfold set_state, SpinSimulation_set_state,
    BooleanSimulation_set_state.
  rewrite (restrict_ext _ st st' Hst). reflexivity.
Qed.

(** X3: [set_state] with an assignment that lacks a variable of the
    simulation raises the [KeyError] of the failed lookup and leaves the
    simulation as it was, in both classes. *)
Theorem set_state_missing_variable (st : gmap label Z) (s : engine_)
  (v : label) :
  v ∈ _variables s -> st !! v = None ->
  set_state st s = (inl (KeyError missing_key), s).
Proof.
  intros Hv Hst. unfold set_state, SpinSimulation_set_state,
    BooleanSimulation_set_state.
  rewrite (restrict_missing _ st v Hv Hst). destruct (cls s); reflexivity.
Qed.

(** X4: on a [SpinSimulation], [set_state] returns normally exactly when
    the assignment gives every variable the value [1] or [-1]; the state
    is then the assignment restricted to the variables. *)
Theorem SpinSimulation_set_state_accepts (st : gmap label Z) (s : engine_) :
  cls s = SpinSimulation ->
  (fst (set_state st s) = inr tt <->
   forall v, v ∈ _variables s -> st !! v = Some 1 \/ st !! v = Some (-1)) /\
  (fst (set_state st s) = inr tt ->
   forall v, _state (snd (set_state st s)) !! v =
             if decide (v ∈ _variables s) then st !! v else None).
Proof.
  intros Hc. unfold set_state, SpinSimulation_set_state. rewrite Hc.
  destruct (restrict (_variables s) st) as [e|d] eqn:Hd; simpl.
  - split; [|discriminate]. split; [discriminate|]. intros Hall.
    destruct (restrict_present (_variables s) st) as [d Hd'];
      [|congruence].
    intros v Hv. destruct (Hall v Hv) as [-> | ->]; eauto.
  - pose proof (restrict_lookup _ _ _ Hd) as Hl.
    destruct (any_value_not_in [1; -1] d) eqn:Hany; simpl.
    + split; [|discriminate]. split; [discriminate|]. intros Hall.
      exfalso. apply not_false_iff_true in Hany. apply Hany.
      apply any_value_not_in_false. intros k x Hk. rewrite Hl in Hk.
      destruct (decide (k ∈ _variables s)) as [Hin|]; [|discriminate].
      destruct (Hall k Hin) as [Hx|Hx]; rewrite Hx in Hk;
        injection Hk as <-; compute_done.
    + split; [|intros _; exact Hl]. split; [|reflexivity]. intros _ v Hv.
      specialize (Hl v). rewrite decide_True in Hl by exact Hv.
      destruct (restrict_total _ _ _ Hd v Hv) as [x Hx].
      rewrite Hx in Hl. rewrite <- Hl.
      apply (proj1 (any_value_not_in_false _ d) Hany) in Hx.
      apply elem_of_cons in Hx as [->|Hx]; [auto|].
      apply elem_of_cons in Hx as [->|Hx]; [auto | inversion Hx].
Qed.

(** A successful [set_state] does the same on any simulation of the same
    class with the same variables. *)
Lemma set_state_transfers (st : gmap label Z) (s s1 s' : engine_) :
  cls s' = cls s -> _variables s' = _variables s ->
  set_state st s = (inr tt, s1) ->
  set_state st s' = (inr tt, with_state (_state s1) s').
Proof.
  unfold set_state, SpinSimulation_set_state, BooleanSimulation_set_state.
  intros -> ->. destruct (cls s);
    destruct (restrict _ _) as [e|d]; try discriminate; simpl;
    destruct (any_value_not_in _ _); try discriminate;
    intros [= <-]; reflexivity.
Qed.

(** The constructor's call of [set_state], as a later [reset] repeats it. *)
Lemma init_set_state (c : sim_class) (model : model_arg)
  (initial : option (gmap label Z)) (mem : Z) (s0 s : engine_) :
  SpinSimulation_init c model initial mem = inr s0 ->
  same_frame s0 s ->
  set_state (_initial_state s0) s = (inr tt, with_state (_state s0) s).
Proof.
  unfold SpinSimulation_init. intros Hinit (Hc & Hv & _).
  match type of Hinit with
  | context [set_state ?st ?self0] =>
      destruct (set_state st self0) as [[e|[]] s1] eqn:Hset; [discriminate|]
  end.
  destruct (build_subgraphs _ _) as [e|subs]; [discriminate|].
  simpl in Hinit. injection Hinit as <-. simpl in *.
  refine (set_state_transfers _ _ _ s _ _ Hset); simpl; assumption.
Qed.

Lemma reset_after_init (c : sim_class) (model : model_arg)
  (initial : option (gmap label Z)) (mem : Z) (s0 s : engine_) :
  SpinSimulation_init c model initial mem = inr s0 ->
  same_frame s0 s ->
  reset s = (inr tt, s0).
Proof.
  intros Hinit Hf. unfold reset. simpl.
  destruct Hf as (Hc & Hv & Hi & Hm & Hs).
  rewrite Hi.
  rewrite (init_set_state c model initial mem s0 (with_past_states [] s) Hinit)
    by (repeat split; assumption).
  apply init_fields in Hinit as (_ & _ & Hp).
  f_equal. destruct s, s0. simpl in *. subst. reflexivity.
Qed.

(** X5: on a constructed engine, after any run of calls, [reset] returns
    normally and leaves exactly the simulation the constructor returned
    (state, emptied history and all other attributes); the random source
    is not touched.  Hence a second [reset] changes nothing. *)
Theorem reset_restores_constructed
  (c : sim_class) (model : model_arg) (initial : option (gmap label Z))
  (mem : Z) (s0 : engine_) (g : rng) (cs : list call) :
  SpinSimulation_init c model initial mem = inr s0 ->
  on_self reset (run_calls cs {| self_ := s0; random_ := g |}) =
  (inr tt,
   {| self_ := s0;
      random_ := random_ (run_calls cs {| self_ := s0; random_ := g |}) |}).
Proof.
  intros Hinit. unfold on_self.
  rewrite (reset_after_init c model initial mem s0 _ Hinit); [reflexivity|].
  apply keeps_same_frame_run. repeat split.
Qed.

Lemma keeps_bounded_history_add (mem : Z) :
  keeps (bounded_history (label := label) (C := Z) mem) _add_past_state.
Proof.
  intros s [Hm Hb]. unfold _add_past_state.
  destruct (bool_decide _); [|split; assumption].
  split; [exact Hm|]. simpl. rewrite Hm.
  destruct (Z.gtb_spec (Z.of_nat (length (_past_states s ++ [state s]))) mem)
    as [Hgt|Hle].
  - destruct (_past_states s) as [|p ps]; simpl in *; [lia|].
    rewrite length_app. rewrite length_app in Hgt. simpl in *. lia.
  - lia.
Qed.

(** X6: on an engine constructed with capacity [memory], the history never
    holds more than [max(0, memory)] snapshots, after any run of calls. *)
Theorem history_is_bounded
  (c : sim_class) (model : model_arg) (initial : option (gmap label Z))
  (mem : Z) (s0 : engine_) (g : rng) (cs : list call) :
  SpinSimulation_init c model initial mem = inr s0 ->
  Z.of_nat (length (_past_states
                      (self_ (run_calls cs {| self_ := s0; random_ := g |}))))
  <= Z.max 0 mem.
Proof.
  intros Hinit. apply init_fields in Hinit as (_ & Hm & Hp).
  apply (keeps_run_calls (bounded_history (label := label) (C := Z) mem)).
  - intros st. apply keeps_set_state. intros st' s Hs. exact Hs.
  - intros i. apply keeps_flip_bit. intros st' s Hs. exact Hs.
  - intros s [Hm' _]. split; [exact Hm' | simpl; lia].
  - apply keeps_bounded_history_add.
  - split; [exact Hm | simpl; rewrite Hp; simpl; lia].
Qed.

Lemma last_tail_snoc {A : Type} (l : list A) (x : A) :
  l <> [] -> last (tail (l ++ [x])) = Some x.
Proof.
  destruct l as [|y l]; [congruence|]. intros _. simpl. apply last_snoc.
Qed.

(** A sweep stores the state it starts from as the newest snapshot. *)
Lemma add_past_state_last (s : engine_) :
  1 <= _memory s ->
  last (_past_states (snd (_add_past_state s))) = Some (state s).
Proof.
  intros Hm. unfold _add_past_state.
  rewrite bool_decide_eq_true_2 by lia. simpl.
  destruct (Z.gtb_spec (Z.of_nat (length (_past_states s ++ [state s])))
                       (_memory s)) as [Hgt|Hle].
  - apply last_tail_snoc. intros Hnil. rewrite Hnil in Hgt. simpl in Hgt. lia.
  - apply last_snoc.
Qed.

Lemma keeps_past_states_candidates (ps : list (gmap label Z)) (T : Qc)
  (drawn : list label) :
  keeps (of_self (fun s : engine_ => _past_states s = ps))
        (for_each drawn (candidate T)).
Proof.
  apply keeps_for_each. intros i.
  apply keeps_candidate, keeps_flip_bit. intros st s Hs. exact Hs.
Qed.

Lemma sweep_last_snapshot (T : Qc) (w : process_) :
  1 <= _memory (self_ w) ->
  last (_past_states (self_ (snd (sweep T w)))) = Some (state (self_ w)).
Proof.
  intros Hm. unfold sweep. rewrite bind_unfold. unfold on_self at 1.
  pose proof (add_past_state_last (self_ w) Hm) as Hlast.
  destruct (_add_past_state (self_ w)) as [[e|[]] s1] eqn:Hadd.
  { unfold _add_past_state in Hadd. destruct (bool_decide _); discriminate. }
  simpl in Hlast. rewrite bind_unfold. simpl. rewrite bind_unfold.
  unfold draw_choices. simpl.
  destruct (random_choices _ _ _) as [drawn g'].
  rewrite (keeps_past_states_candidates (_past_states s1) T drawn
             {| self_ := s1; random_ := g' |} eq_refl).
  exact Hlast.
Qed.

(** X7: with [memory >= 1], after a single-sweep [update] the two most
    recent states returned by [get_past_states(2)] are the state before
    the call and the current state, whether the call returned or
    raised. *)
Theorem update_records_previous_state (T : Qc) (seed : option Z)
  (w : process_) :
  1 <= _memory (self_ w) ->
  get_past_states (Some 2) (self_ (snd (update T 1 seed w))) =
  [state (self_ w); state (self_ (snd (update T 1 seed w)))].
Proof.
  intros Hm.
  assert (Hu : update T 1 seed w =
               sweep T (snd (seed_random seed w))).
  { unfold update. rewrite bind_unfold. destruct seed; reflexivity. }
  rewrite Hu.
  assert (Hself : self_ (snd (seed_random seed w)) = self_ w)
    by (destruct seed; reflexivity).
  pose proof (sweep_last_snapshot T (snd (seed_random seed w))) as Hlast.
  rewrite Hself in Hlast. specialize (Hlast Hm).
  rewrite get_past_states_some by lia.
  change (Z.to_nat (2 - 1)) with 1%nat.
  destruct (_past_states (self_ (snd (sweep T _)))) as [|p ps] eqn:Hps
    using rev_ind; [discriminate|].
  rewrite last_snoc in Hlast. injection Hlast as ->.
  rewrite length_app. simpl.
  replace (length ps + 1 - 1)%nat with (length ps) by lia.
  rewrite drop_app_length. reflexivity.
Qed.

(** *** The domain of the state *)

Lemma keeps_spins_flip (s0 : engine_) (i : label) :
  keeps (of_self (fun s => same_frame s0 s /\ spins s))
        (on_self (_flip_bit i)).
Proof.
  intros w [Hf Hs]. rewrite flip_bit_unfold.
  destruct (_state (self_ w) !! i) as [v|] eqn:Hv; [|split; assumption].
  split; [exact Hf|]. unfold spins. simpl.
  apply map_Forall_insert_2; [|exact Hs].
  destruct (Hs i v Hv) as [-> | ->]; simpl; auto.
Qed.

Lemma set_state_spins (st : gmap label Z) (s : engine_) :
  cls s = SpinSimulation -> fst (set_state st s) = inr tt ->
  spins (snd (set_state st s)).
Proof.
  intros Hc. unfold set_state, SpinSimulation_set_state. rewrite Hc.
  destruct (restrict _ _) as [e|d]; [discriminate|]. simpl.
  destruct (any_value_not_in [1; -1] d) eqn:Hany; [discriminate|].
  intros _ k x Hk. simpl in Hk.
  apply (proj1 (any_value_not_in_false _ d) Hany) in Hk.
  apply elem_of_cons in Hk as [->|Hk]; [auto|].
  apply elem_of_cons in Hk as [->|Hk]; [auto | inversion Hk].
Qed.

Lemma init_spins (model : model_arg) (initial : option (gmap label Z))
  (mem : Z) (s0 : engine_) :
  SpinSimulation_init SpinSimulation model initial mem = inr s0 ->
  spins s0.
Proof.
  unfold SpinSimulation_init. intros Hinit.
  match type of Hinit with
  | context [set_state ?st ?self0] =>
      pose proof (set_state_spins st self0 eq_refl) as Hsp;
      destruct (set_state st self0) as [[e|[]] s1]; [discriminate|]
  end.
  destruct (build_subgraphs _ _) as [e|subs]; [discriminate|].
  simpl in Hinit. injection Hinit as <-. exact (Hsp eq_refl).
Qed.

(** X8: the state of a constructed [SpinSimulation] holds only the values
    [1] and [-1], after any run of [update], [schedule_update] and
    [reset] calls. *)
Theorem update_keeps_spin_domain
  (model : model_arg) (initial : option (gmap label Z)) (mem : Z)
  (s0 : engine_) (g : rng) (cs : list call) :
  SpinSimulation_init SpinSimulation model initial mem = inr s0 ->
  Forall not_set_state cs ->
  forall v x,
    _state (self_ (run_calls cs {| self_ := s0; random_ := g |})) !! v =
      Some x ->
    x = 1 \/ x = -1.
Proof.
  intros Hinit Hcs.
  set (P := fun s : engine_ => same_frame s0 s /\ spins s).
  assert (Hsweep : forall T, keeps (of_self P) (sweep T)).
  { intros T. apply keeps_sweep.
    - intros s [Hf Hs]. unfold _add_past_state.
      destruct (bool_decide _); split; assumption.
    - intros i. apply keeps_candidate, keeps_spins_flip. }
  assert (Hrun : forall w, P (self_ w) -> P (self_ (run_calls cs w))).
  { induction Hcs as [|c cs Hc _ IH]; intros w Hw; simpl; [exact Hw|].
    apply IH. destruct c as [T n seed|schedule seed| |st]; simpl.
    - apply (keeps_update P T n seed (Hsweep T) w Hw).
    - apply (keeps_schedule_update P schedule seed Hsweep w Hw).
    - unfold on_self.
      rewrite (reset_after_init _ _ _ _ s0 _ Hinit (proj1 Hw)). simpl.
      split; [repeat split | exact (init_spins _ _ _ _ Hinit)].
    - destruct Hc. }
  intros v x. apply Hrun. split; [repeat split|].
  exact (init_spins _ _ _ _ Hinit).
Qed.

(** *** A local minimum at zero temperature *)

Lemma delta_E_reads (i : label) (s s' : engine_) :
  _state s' = _state s -> _subgraphs s' = _subgraphs s ->
  fst (delta_E i s') = fst (delta_E i s).
Proof.
  intros Hst Hsub. unfold delta_E. rewrite Hst, Hsub.
  destruct (_subgraphs s !! i) as [sub|]; [|reflexivity].
  destruct (puso_value _ _); reflexivity.
Qed.

(** X9: when every [dE] the simulation computes at its current state is
    positive (flipping any single variable would raise the energy), an
    [update] at temperature [0] leaves the state as it is, for any number
    of sweeps, any seed and any random source. *)
Theorem zero_temperature_keeps_local_minimum (n : Z) (seed : option Z)
  (w : process_) :
  (forall i dE, fst (delta_E i (self_ w)) = inr dE -> 0 < dE) ->
  _state (self_ (snd (update (Q2Qc 0) n seed w))) = _state (self_ w).
Proof.
  intros Hmin.
  set (P := fun s : engine_ =>
              _state s = _state (self_ w) /\
              _subgraphs s = _subgraphs (self_ w)).
  assert (Hk : keeps (of_self P) (update (Q2Qc 0) n seed)).
  { apply keeps_update, keeps_sweep.
    - intros s Hs. unfold _add_past_state.
      destruct (bool_decide _); exact Hs.
    - intros i w' [Hst Hsub]. rewrite candidate_unfold.
      rewrite (delta_E_reads i (self_ w) (self_ w') Hst Hsub).
      destruct (fst (delta_E i (self_ w))) as [e|dE] eqn:HdE;
        [split; assumption|].
      specialize (Hmin i dE HdE).
      destruct (Z.leb_spec dE 0); [lia|].
      change (truthy_T (Q2Qc 0)) with false. split; assumption. }
  apply (Hk w). split; reflexivity.
Qed.

(** *** Composition of updates *)

Lemma for_range_add {S : Type} (n m : nat) (body : Py S unit) (s : S) :
  for_range (n + m) body s = (for_range n body;; for_range m body) s.
Proof.
  revert s. induction n as [|n IH]; intros s; simpl.
  - reflexivity.
  - rewrite !bind_unfold. destruct (body s) as [[e|[]] s']; [reflexivity|].
    rewrite IH. reflexivity.
Qed.

Lemma for_each_append {S A : Type} (xs ys : list A) (body : A -> Py S unit)
  (s : S) :
  for_each (xs ++ ys) body s = (for_each xs body;; for_each ys body) s.
Proof.
  revert s. induction xs as [|x xs IH]; intros s; simpl.
  - reflexivity.
  - rewrite !bind_unfold. destruct (body x s) as [[e|[]] s']; [reflexivity|].
    rewrite IH. reflexivity.
Qed.

(** X10: an [update] with [n + m] sweeps (both counts [>= 0]) does what an
    [update] with [n] sweeps followed by one with [m] sweeps at the same
    temperature does: same result, simulation and random state. *)
Theorem update_splits (T : Qc) (n m : Z) (w : process_) :
  0 <= n -> 0 <= m ->
  update T (n + m) None w = (update T n None;; update T m None) w.
Proof.
  intros Hn Hm. rewrite update_as_singles by lia.
  rewrite Z2Nat.inj_add by lia. rewrite for_range_add.
  apply bind_ext.
  - symmetry. apply update_as_singles, Hn.
  - intros _ w'. symmetry. apply update_as_singles, Hm.
Qed.

(** X11: a schedule run in one [schedule_update] call does what running
    its first part and then the rest in a second call without a seed
    does, also when a phase raises. *)
Theorem schedule_update_splits (schedule1 schedule2 : list (Qc * Z))
  (seed : option Z) (w : process_) :
  schedule_update (schedule1 ++ schedule2) seed w =
  (schedule_update schedule1 seed;; schedule_update schedule2 None) w.
Proof.
  unfold schedule_update. rewrite !bind_unfold.
  destruct (seed_random seed w) as [[e|[]] w1] eqn:Hseed.
  { destruct seed; discriminate. }
  rewrite for_each_append, bind_unfold.
  destruct (for_each schedule1 _ w1) as [[e|[]] w2]; reflexivity.
Qed.

(** X12: [get_past_states] with [num_states <= 0] does not raise: it skips
    the [1 - num_states] oldest stored snapshots and returns the others,
    followed by the current state. *)
Theorem get_past_states_nonpositive (n : Z) (s : engine_) :
  n <= 0 ->
  get_past_states (Some n) s =
  drop (Z.to_nat (1 - n)) (_past_states s) ++ [state s].
Proof.
  intros Hn. unfold get_past_states.
  rewrite bool_decide_eq_false_2 by (intros [=]; lia).
  simpl. unfold slice_from.
  destruct (Z.ltb_spec (- n + 1) 0) as [?|_]; [lia|].
  do 3 f_equal. lia.
Qed.

(** *** Construction *)

Lemma elem_of_labels_of (m : gmap (list label) Z) (i : label) :
  i ∈ labels_of m <-> exists k c, m !! k = Some c /\ i ∈ k.
Proof.
  unfold labels_of. rewrite elem_of_elements.
  apply (map_fold_weak_ind
           (fun (acc : gset label) (m : gmap (list label) Z) =>
              i ∈ acc <-> exists k c, m !! k = Some c /\ i ∈ k)).
  - split; [intros Hi; exfalso; exact (not_elem_of_empty i Hi)|].
    intros (k & c & Hk & _). rewrite lookup_empty in Hk. discriminate.
  - intros k c m' acc Hk IH. rewrite elem_of_union, elem_of_list_to_set, IH.
    split.
    + intros [Hi|(k' & c' & Hk' & Hi)].
      * exists k, c. split; [apply lookup_insert_eq | exact Hi].
      * exists k', c'. split; [|exact Hi].
        rewrite lookup_insert_ne; [exact Hk' | congruence].
    + intros (k' & c' & Hk' & Hi). rewrite lookup_insert in Hk'.
      destruct (decide (k = k')) as [<-|Hne]; [left; exact Hi|].
      right. eauto.
Qed.

Lemma add_term_succeeds (k : list label) (c : Z) (vs : list label)
  (subs : gmap label (gmap (list label) Z)) :
  (forall v, v ∈ vs -> is_Some (subs !! v)) ->
  exists subs', add_term k c vs subs = inr subs'.
Proof.
  revert subs. induction vs as [|v vs IH]; intros subs Hdom; simpl; [eauto|].
  unfold add_to_subgraph.
  destruct (Hdom v) as [d ->]; [apply elem_of_cons; auto|]. simpl.
  apply IH. intros u Hu. rewrite lookup_insert.
  destruct (decide (v = u)); [eauto|]. apply Hdom, elem_of_cons. auto.
Qed.

Lemma add_terms_succeeds (items : list (list label * Z))
  (subs : gmap label (gmap (list label) Z)) :
  (forall k c, (k, c) ∈ items -> forall v, v ∈ k -> is_Some (subs !! v)) ->
  exists subs', add_terms items subs = inr subs'.
Proof.
  revert subs. induction items as [|[k c] items IH]; intros subs Hdom; simpl;
    [eauto|].
  destruct (add_term_succeeds k c k subs) as [subs1 H1].
  { apply (Hdom k c). apply elem_of_cons. auto. }
  rewrite H1. simpl. apply IH. intros k' c' Hkc v Hv.
  apply add_term_spec in H1 as [_ Hlook]. rewrite Hlook.
  assert (Hs : is_Some (subs !! v)).
  { apply (Hdom k' c'); [apply elem_of_cons; auto | exact Hv]. }
  destruct (decide (v ∈ k)); [|exact Hs].
  destruct Hs as [d ->]. simpl. eauto.
Qed.

Lemma build_subgraphs_succeeds (variables : list label)
  (model : gmap (list label) Z) :
  (forall k c, model !! k = Some c -> forall i, i ∈ k -> i ∈ variables) ->
  exists subs, build_subgraphs variables model = inr subs.
Proof.
  intros Hl. unfold build_subgraphs. apply add_terms_succeeds.
  intros k c Hkc v Hv. apply elem_of_map_to_list in Hkc.
  rewrite empty_index_lookup, decide_True by exact (Hl k c Hkc v Hv). eauto.
Qed.

Lemma default_state_lookup (variables : list label) (i : label) :
  (list_to_map ((fun v => (v, 1)) <$> variables) : gmap label Z) !! i =
  if decide (i ∈ variables) then Some 1 else None.
Proof.
  induction variables as [|v vs IH].
  - change (list_to_map _) with (∅ : gmap label Z).
    rewrite lookup_empty, decide_False; [reflexivity | apply not_elem_of_nil].
  - change (list_to_map _)
      with (<[v := 1]> (list_to_map ((fun v => (v, 1)) <$> vs)
                        : gmap label Z)).
    rewrite lookup_insert. destruct (decide (v = i)) as [<-|Hne].
    + rewrite decide_True; [reflexivity | apply elem_of_cons; auto].
    + rewrite IH. destruct (decide (i ∈ vs)) as [Hi|Hi].
      * rewrite decide_True; [reflexivity | apply elem_of_cons; auto].
      * rewrite decide_False; [reflexivity|].
        intros Hc. apply elem_of_cons in Hc as [->|?]; tauto.
Qed.

(** X13: constructing a [SpinSimulation] from a plain dictionary without
    an initial state never raises: the variables are exactly the labels
    that occur in the terms, every variable starts at [1], and the history
    is empty. *)
Theorem SpinSimulation_default_construction (m : gmap (list label) Z)
  (mem : Z) :
  exists s,
    SpinSimulation_init SpinSimulation
      {| model_items := m; model_variables := None |} None mem = inr s /\
    (forall i, i ∈ _variables s <-> exists k c, m !! k = Some c /\ i ∈ k) /\
    (forall i, _state s !! i =
               if decide (i ∈ _variables s) then Some 1 else None) /\
    _past_states s = [] /\ _memory s = mem.
Proof.
  unfold SpinSimulation_init. simpl.
  unfold set_state, SpinSimulation_set_state. simpl.
  destruct (restrict_present (labels_of m)
              (list_to_map ((fun v => (v, 1)) <$> labels_of m)))
    as [d Hd].
  { intros v Hv. rewrite default_state_lookup, decide_True by exact Hv.
    eauto. }
  rewrite Hd. simpl.
  assert (Hl : forall v, d !! v =
                 if decide (v ∈ labels_of m) then Some 1 else None).
  { intros v. rewrite (restrict_lookup _ _ _ Hd v), default_state_lookup.
    destruct (decide (v ∈ labels_of m)); reflexivity. }
  assert (Hany : any_value_not_in [1; -1] d = false).
  { apply any_value_not_in_false. intros k x Hk. rewrite Hl in Hk.
    destruct (decide (k ∈ labels_of m)); [|discriminate].
    injection Hk as <-. apply elem_of_cons. auto. }
  rewrite Hany. simpl.
  destruct (build_subgraphs_succeeds (labels_of m) m) as [subs ->].
  { intros k c Hk i Hi. apply elem_of_labels_of. eauto. }
  simpl. eexists. split; [reflexivity|]. simpl.
  split; [apply elem_of_labels_of|]. split; [exact Hl|]. split; reflexivity.
Qed.

(** X14: constructing a simulation from a plain dictionary and an initial
    state raises when a term of the model mentions a label to which the
    initial state gives no value. *)
Theorem construction_rejects_unassigned_label (c : sim_class)
  (m : gmap (list label) Z) (st : gmap label Z) (mem : Z)
  (k : list label) (x : Z) (i : label) :
  m !! k = Some x -> i ∈ k -> st !! i = None ->
  exists e,
    SpinSimulation_init c {| model_items := m; model_variables := None |}
                        (Some st) mem = inl e.
Proof.
  intros Hk Hi Hst.
  destruct (SpinSimulation_init c _ (Some st) mem) as [e|s] eqn:Hinit;
    [eauto|].
  exfalso. pose proof (init_indexes _ _ _ _ _ Hinit) as (_ & Hl & _).
  specialize (Hl k x Hk i Hi). simpl in Hl.
  assert (Hv : _variables s = (map_to_list st).*1).
  { unfold SpinSimulation_init in Hinit. simpl in Hinit.
    destruct (set_state _ _) as [[e|[]] s1]; [discriminate|].
    destruct (build_subgraphs _ _) as [e|subs]; [discriminate|].
    simpl in Hinit. injection Hinit as <-. reflexivity. }
  rewrite Hv in Hl. apply list_elem_of_fmap in Hl as ([i' y] & -> & Hin).
  apply elem_of_map_to_list in Hin. simpl in Hst. congruence.
Qed.

End Lifecycle.

(** ** The containers *)

Section MatrixFacts.
Context {V : Type} `{Number V}.

Abbreviation matrix_ := (matrix V).

Lemma for_each_app {S A} (xs ys : list A) (body : A -> Py S unit) (s : S) :
  for_each (xs ++ ys) body s = (for_each xs body;; for_each ys body) s.
Proof.
  revert s. induction xs as [|x xs IH]; intros s; simpl.
  - reflexivity.
  - rewrite !bind_unfold. destruct (body x s) as [[e|[]] s']; [reflexivity|].
    rewrite IH. reflexivity.
Qed.

(** Sorting the labels makes the key independent of their order. *)
Lemma sorted_key_Permutation (l1 l2 : list Z) :
  l1 ≡ₚ l2 -> sorted_key (KTuple l1) = sorted_key (KTuple l2).
Proof.
  intros Hp. simpl. f_equal.
  apply (Sorted_unique Z.le); try apply Sorted_merge_sort; try apply _.
  rewrite !merge_sort_Permutation. exact Hp.
Qed.

Lemma keeps_store (k : pykey) (value : V) : keeps no_zero (store k value).
Proof.
  intros d Hd. unfold store.
  destruct (truthy value) eqn:Hv; simpl; intros k' v' Hk'; simpl in Hk'.
  - rewrite lookup_insert in Hk'. destruct (decide (k = k')).
    + congruence.
    + exact (Hd k' v' Hk').
  - rewrite lookup_delete in Hk'. destruct (decide (k = k')); [discriminate|].
    exact (Hd k' v' Hk').
Qed.

(** An item assignment raises or stores: the class of the container stays
    and no false value gets in. *)
Lemma setitem_cases (key : pykey) (value : V) (d : matrix_) :
  (exists e, setitem key value d = (inl e, d)) \/
  setitem key value d = store (sorted_key key) value d.
Proof.
  unfold setitem, QUBOMatrix_setitem, IsingCoupling_setitem,
    IsingField_setitem, QUBOMatrix_setitem, raise.
  destruct (mcls d); destruct key as [[|a [|b [|x l]]]|n]; eauto;
    repeat match goal with
           | |- context [if ?b then _ else _] => destruct b; eauto
           end.
Qed.

Lemma store_mcls (k : pykey) (value : V) (d : matrix_) :
  mcls (snd (store k value d)) = mcls d.
Proof. unfold store. destruct (truthy value); reflexivity. Qed.

Lemma store_returns (k : pykey) (value : V) (d : matrix_) :
  store k value d = (inr tt, snd (store k value d)).
Proof. unfold store. destruct (truthy value); reflexivity. Qed.

Lemma keeps_setitem (P : matrix_ -> Prop) (key : pykey) (value : V) :
  (forall k v, keeps P (store k v)) -> keeps P (setitem key value).
Proof.
  intros Hs d Hd. destruct (setitem_cases key value d) as [[e ->]| ->].
  - exact Hd.
  - apply Hs, Hd.
Qed.

Section Keeping.
Variable P : matrix_ -> Prop.
Hypothesis P_store : forall k v, keeps P (store k v).

Lemma keeps_iadd_item (key : pykey) (value : V) :
  keeps P (iadd_item key value).
Proof. intros d Hd. exact (keeps_setitem P _ _ P_store d Hd). Qed.

Lemma keeps_isub_item (key : pykey) (value : V) :
  keeps P (isub_item key value).
Proof. intros d Hd. exact (keeps_setitem P _ _ P_store d Hd). Qed.

Lemma keeps_imul_item (key : pykey) (value : V) :
  keeps P (imul_item key value).
Proof. intros d Hd. exact (keeps_setitem P _ _ P_store d Hd). Qed.

Lemma keeps_itruediv_item (key : pykey) (value : V) :
  keeps P (itruediv_item key value).
Proof.
  intros d Hd. unfold itruediv_item.
  destruct (truediv _ _); [exact Hd|].
  exact (keeps_setitem P _ _ P_store d Hd).
Qed.

Lemma keeps_update_items (items : list (pykey * V)) :
  keeps P (update_items items).
Proof. apply keeps_for_each. intros [k v]. apply keeps_setitem, P_store. Qed.

Lemma keeps_iadd (other : list (pykey * V)) : keeps P (iadd other).
Proof. apply keeps_for_each. intros [k v]. apply keeps_iadd_item. Qed.

Lemma keeps_isub (other : list (pykey * V)) : keeps P (isub other).
Proof. apply keeps_for_each. intros [k v]. apply keeps_isub_item. Qed.

Lemma keeps_imul (other : V) : keeps P (imul other).
Proof.
  intros d Hd. unfold imul.
  apply keeps_for_each; [|exact Hd]. intros k. apply keeps_imul_item.
Qed.

Lemma keeps_itruediv (other : V) : keeps P (itruediv other).
Proof.
  intros d Hd. unfold itruediv.
  apply keeps_for_each; [|exact Hd]. intros k. apply keeps_itruediv_item.
Qed.

Hypothesis P_empty : forall c, P {| mcls := c; entries := ∅ |}.

Lemma returned_matrix_init (c : matrix_class) (items : list (pykey * V)) :
  returned P (matrix_init c items).
Proof.
  unfold matrix_init.
  pose proof (keeps_iadd items {| mcls := c; entries := ∅ |} (P_empty c))
    as Hk.
  unfold iadd in Hk. destruct (for_each _ _ _) as [[e|[]] d]; simpl; auto.
Qed.

Lemma returned_on_copy (m : Py matrix_ unit) (d : matrix_) :
  keeps P m -> returned P (on_copy m d).
Proof.
  intros Hm. unfold on_copy, copy.
  pose proof (returned_matrix_init (mcls d) (map_to_list (entries d))) as Hc.
  destruct (matrix_init _ _) as [e|d1]; simpl in *; [exact I|].
  specialize (Hm d1 Hc). destruct (m d1) as [[e|[]] d2]; simpl; auto.
Qed.

Lemma keeps_rebind (r : result matrix_) : returned P r -> keeps P (rebind r).
Proof. intros Hr d Hd. unfold rebind. destruct r; simpl; auto. Qed.

Lemma keeps_exec (s : statement V) : keeps P (exec s).
Proof.
  intros d Hd.
  destruct s; simpl;
    try (apply keeps_rebind; [|exact Hd]; unfold matrix_radd, matrix_rmul,
         matrix_add, matrix_sub, matrix_mul, matrix_truediv).
  - exact (keeps_setitem P _ _ P_store d Hd).
  - apply keeps_update_items, Hd.
  - apply keeps_iadd, Hd.
  - apply keeps_isub, Hd.
  - apply keeps_imul, Hd.
  - apply keeps_itruediv, Hd.
  - apply returned_on_copy, keeps_iadd.
  - apply returned_on_copy, keeps_iadd.
  - apply returned_on_copy, keeps_isub.
  - unfold matrix_rsub, matrix_rmul, matrix_mul.
    pose proof (returned_on_copy (imul minus_one) d (keeps_imul _)) as H1.
    destruct (on_copy (imul minus_one) d) as [e|d1]; simpl in *; [exact I|].
    apply returned_on_copy, keeps_iadd.
  - apply returned_on_copy, keeps_imul.
  - apply returned_on_copy, keeps_imul.
  - apply returned_on_copy, keeps_itruediv.
  - unfold copy. apply returned_matrix_init.
Qed.

Lemma keeps_run (prog : list (statement V)) (d : matrix_) :
  P d -> P (run prog d).
Proof.
  revert d. induction prog as [|s prog IH]; intros d Hd; simpl.
  - exact Hd.
  - apply IH, keeps_exec, Hd.
Qed.

End Keeping.

(** C3: after the construction of a container of any of the three classes
    and any run of item assignments, [update] calls, in-place and binary
    [+], [-], scalar [*] and scalar [/] (also those that raise), no stored
    value is false (so none is the zero, the zero being false); a lookup
    returns the same value under any ordering of the labels of its key;
    and a lookup, which never raises, returns [0] for a key that is not
    stored. *)
Theorem matrix_no_zero_and_order_independent
  (c : matrix_class) (items : list (pykey * V)) (d : matrix_)
  (prog : list (statement V)) :
  matrix_init c items = inr d ->
  (forall k v, entries (run prog d) !! k = Some v ->
               truthy v = true /\ (truthy zero = false -> v <> zero)) /\
  (forall l1 l2, l1 ≡ₚ l2 ->
                 getitem (KTuple l1) (run prog d) =
                 getitem (KTuple l2) (run prog d)) /\
  (forall key, entries (run prog d) !! sorted_key key = None ->
               getitem key (run prog d) = zero).
Proof.
  intros Hinit.
  assert (Hempty : forall c', no_zero {| mcls := c'; entries := ∅ |}).
  { intros c' k v Hk. simpl in Hk. rewrite lookup_empty in Hk.
    discriminate. }
  assert (Hd : no_zero d).
  { pose proof (returned_matrix_init no_zero keeps_store Hempty c items)
      as Hr.
    rewrite Hinit in Hr. exact Hr. }
  pose proof (keeps_run no_zero keeps_store Hempty prog d Hd) as Hrun.
  split; [|split].
  - intros k v Hk. pose proof (Hrun k v Hk) as Hv. split; [exact Hv|].
    intros Hz ->. congruence.
  - intros l1 l2 Hp. unfold getitem.
    rewrite (sorted_key_Permutation l1 l2 Hp). reflexivity.
  - intros key Hk. unfold getitem. rewrite Hk. reflexivity.
Qed.

(** *** Construction from a plain mapping *)

Lemma setitem_well_formed (key : pykey) (value : V) (d : matrix_) :
  well_formed (mcls d) key ->
  setitem key value d = store (sorted_key key) value d.
Proof.
  unfold well_formed, setitem, QUBOMatrix_setitem, IsingCoupling_setitem,
    IsingField_setitem, QUBOMatrix_setitem.
  destruct (mcls d); destruct key as [[|a [|b [|x l]]]|n]; try tauto.
  - intros [Ha Hb].
    destruct (Z.ltb_spec a 0); [lia|]. destruct (Z.ltb_spec b 0); [lia|].
    reflexivity.
  - intros (Ha & Hb & Hab). rewrite bool_decide_eq_false_2 by exact Hab.
    destruct (Z.ltb_spec a 0); [lia|]. destruct (Z.ltb_spec b 0); [lia|].
    reflexivity.
  - intros Hn. destruct (Z.ltb_spec n 0); [lia|]. reflexivity.
Qed.

Lemma accumulated_snoc (items : list (pykey * V)) (key : pykey) (v : V)
  (k : pykey) :
  accumulated (items ++ [(key, v)]) k =
  if decide (sorted_key key = k) then add (accumulated items k) v
  else accumulated items k.
Proof.
  unfold accumulated. rewrite filter_app, fmap_app, foldl_app.
  rewrite filter_cons, filter_nil. simpl.
  destruct (decide (sorted_key key = k)); reflexivity.
Qed.

Lemma default_cell `{!NumberLaws V} (v : V) : default zero (cell v) = v.
Proof.
  unfold cell. destruct (truthy v) eqn:Hv; [reflexivity|].
  symmetry. apply truthy_false_iff, Hv.
Qed.

(** The loop of the constructor, on items with well-formed keys. *)
Lemma init_loop_accumulates `{!NumberLaws V} (c : matrix_class)
  (items : list (pykey * V)) :
  Forall (fun kv => well_formed c (fst kv)) items ->
  exists d,
    for_each items (fun '(k, v) => iadd_item k v)
             {| mcls := c; entries := ∅ |} = (inr tt, d) /\
    mcls d = c /\
    forall k, entries d !! k = cell (accumulated items k).
Proof.
  induction items as [|[key v] items IH] using rev_ind; intros Hwf.
  - eexists. split; [reflexivity|]. split; [reflexivity|].
    intros k. simpl. rewrite lookup_empty. unfold accumulated, cell. simpl.
    rewrite (proj2 (truthy_false_iff zero) eq_refl). reflexivity.
  - apply Forall_app in Hwf as [Hwf Hkey].
    apply Forall_cons in Hkey as [Hkey _]. simpl in Hkey.
    destruct (IH Hwf) as (d & Hrun & Hcls & Hd).
    rewrite for_each_app, (bind_ok _ _ _ _ _ Hrun). simpl.
    rewrite bind_ret_unit. unfold iadd_item.
    rewrite setitem_well_formed by (rewrite Hcls; exact Hkey).
    unfold getitem. rewrite Hd, default_cell.
    eexists. split; [apply store_returns|].
    split; [rewrite store_mcls; exact Hcls|].
    intros k. rewrite accumulated_snoc. unfold store.
    destruct (decide (sorted_key key = k)) as [<-|Hne].
    + unfold cell.
      destruct (truthy (add _ v)); simpl;
        [apply lookup_insert_eq | apply lookup_delete_eq].
    + destruct (truthy (add _ v)); simpl;
        [rewrite lookup_insert_ne by exact Hne
        |rewrite lookup_delete_ne by exact Hne]; apply Hd.
Qed.

(** C10: constructing a container from a plain mapping whose keys have
    the format of the class returns a container that holds, under every
    sorted key, the sum of the values of the entries with that sorted
    key, added up in iteration order, and holds no entry where that sum
    is zero; a lookup under any ordering of the labels returns that
    sum. *)
Theorem matrix_init_accumulates `{!NumberLaws V} (c : matrix_class)
  (items : list (pykey * V)) :
  NoDup (items.*1) ->
  Forall (fun kv => well_formed c (fst kv)) items ->
  exists d,
    matrix_init c items = inr d /\
    (forall k, entries d !! k =
               if truthy (accumulated items k)
               then Some (accumulated items k) else None) /\
    (forall k, accumulated items k = zero -> entries d !! k = None) /\
    (forall key, getitem key d = accumulated items (sorted_key key)).
Proof.
  intros _ Hwf. destruct (init_loop_accumulates c items Hwf)
    as (d & Hrun & _ & Hd).
  exists d. unfold matrix_init. rewrite Hrun.
  split; [reflexivity|]. split; [exact Hd|]. split.
  - intros k Hk. rewrite Hd. unfold cell.
    rewrite (proj2 (truthy_false_iff _) Hk). reflexivity.
  - intros key. unfold getitem. rewrite Hd. apply default_cell.
Qed.

End MatrixFacts.

Lemma Qc_truthy_false_iff (q : Qc) : truthy q = false <-> q = zero.
Proof.
  simpl. unfold Qc_eq_bool. destruct (Qc_eq_dec q (Q2Qc 0)) as [Hq|Hq];
    simpl; split; intros Hz; solve [assumption | reflexivity | discriminate
                                  | contradiction].
Qed.

Global Instance Qc_NumberLaws : NumberLaws Qc.
Proof. constructor. exact Qc_truthy_false_iff. Qed.

(** ** Item assignment, copies and in-place arithmetic *)

Section MatrixOperations.
Context {V : Type} `{Number V}.

Abbreviation container_ := (matrix V).

Lemma sorted_pair (a b : Z) :
  merge_sort Z.le [a; b] = [a; b] \/ merge_sort Z.le [a; b] = [b; a].
Proof.
  apply Permutation_length_2_inv. symmetry. apply merge_sort_Permutation.
Qed.

Lemma sorted_key_idempotent (key : pykey) :
  sorted_key (sorted_key key) = sorted_key key.
Proof.
  destruct key as [l|n]; [|reflexivity]. simpl. f_equal.
  apply (Sorted_unique Z.le); try apply Sorted_merge_sort; try apply _.
  apply merge_sort_Permutation.
Qed.

Lemma sorted_pair_le (a b : Z) :
  sorted_key (KTuple [a; b]) = KTuple [a; b] -> a <= b.
Proof.
  simpl. intros [= Hs].
  pose proof (Sorted_merge_sort Z.le [a; b]) as Hsorted.
  rewrite Hs in Hsorted. inversion Hsorted as [|? ? _ Hhd]; subst.
  inversion Hhd; subst. assumption.
Qed.

Lemma well_formed_sorted (c : matrix_class) (key : pykey) :
  well_formed c key -> well_formed c (sorted_key key).
Proof.
  destruct c; destruct key as [[|a [|b [|x l]]]|n]; simpl; try tauto;
    destruct (sorted_pair a b) as [-> | ->]; simpl; intuition lia.
Qed.

Lemma well_formed_decide (c : matrix_class) (key : pykey) :
  well_formed c key \/ ~ well_formed c key.
Proof.
  destruct c; destruct key as [[|a [|b [|x l]]]|n]; simpl; try tauto; lia.
Qed.

Lemma setitem_ill_formed (key : pykey) (value : V) (d : container_) :
  ~ well_formed (mcls d) key ->
  exists e, setitem key value d = (inl e, d).
Proof.
  unfold well_formed, setitem, QUBOMatrix_setitem, IsingCoupling_setitem,
    IsingField_setitem, QUBOMatrix_setitem, raise.
  destruct (mcls d); destruct key as [[|a [|b [|x l]]]|n]; intros Hwf;
    eauto.
  - destruct (Z.ltb_spec a 0); [eauto|]. destruct (Z.ltb_spec b 0); [eauto|].
    exfalso. apply Hwf. lia.
  - destruct (bool_decide_reflect (a = b)); [eauto|].
    destruct (Z.ltb_spec a 0); [eauto|]. destruct (Z.ltb_spec b 0); [eauto|].
    exfalso. apply Hwf. lia.
  - destruct (bool_decide (a = b)); eauto.
  - destruct (Z.ltb_spec n 0); [eauto|]. exfalso. apply Hwf. lia.
Qed.

(** X15: an item assignment returns normally exactly when the key has the
    format of the class (a pair of non-negative integers, distinct for an
    [IsingCoupling]; a non-negative integer for an [IsingField]); when it
    raises, the container is as it was. *)
Theorem setitem_accepts_well_formed_keys (key : pykey) (value : V)
  (d : container_) :
  (fst (setitem key value d) = inr tt <-> well_formed (mcls d) key) /\
  (forall e, fst (setitem key value d) = inl e ->
             snd (setitem key value d) = d).
Proof.
  destruct (well_formed_decide (mcls d) key) as [Hwf|Hwf].
  - rewrite (setitem_well_formed key value d Hwf), store_returns.
    simpl. split; [tauto | discriminate].
  - destruct (setitem_ill_formed key value d Hwf) as [e ->]. simpl.
    split; [split; [discriminate | tauto] | reflexivity].
Qed.

(** X16: after [d[key] = value] with a well-formed key, a lookup under any
    key with the same sorted form (any ordering of the labels) returns
    [value], or [0] when [value] is false, and every other lookup returns
    what it returned before. *)
Theorem setitem_then_getitem (key key' : pykey) (value : V)
  (d : container_) :
  well_formed (mcls d) key ->
  getitem key' (snd (setitem key value d)) =
  if decide (sorted_key key' = sorted_key key)
  then (if truthy value then value else zero)
  else getitem key' d.
Proof.
  intros Hwf. rewrite (setitem_well_formed key value d Hwf).
  unfold getitem, store.
  destruct (decide (sorted_key key' = sorted_key key)) as [->|Hne];
    destruct (truthy value); simpl.
  - rewrite lookup_insert_eq. reflexivity.
  - rewrite lookup_delete_eq. reflexivity.
  - rewrite lookup_insert_ne by congruence. reflexivity.
  - rewrite lookup_delete_ne by congruence. reflexivity.
Qed.

(** *** What every statement keeps, given that item assignment keeps it *)

Section KeepingBySetitem.
Variable P : container_ -> Prop.
Hypothesis P_setitem : forall key value, keeps P (setitem key value).
Hypothesis P_empty : forall d, P d -> P {| mcls := mcls d; entries := ∅ |}.

Lemma keeps_items_loop (items : list (pykey * V))
  (f : pykey -> V -> Py container_ unit) :
  (forall k v, keeps P (f k v)) ->
  keeps P (for_each items (fun '(k, v) => f k v)).
Proof. intros Hf. apply keeps_for_each. intros [k v]. apply Hf. Qed.

Lemma keeps_iadd_item' (key : pykey) (value : V) :
  keeps P (iadd_item key value).
Proof. intros d Hd. exact (P_setitem _ _ d Hd). Qed.

Lemma keeps_isub_item' (key : pykey) (value : V) :
  keeps P (isub_item key value).
Proof. intros d Hd. exact (P_setitem _ _ d Hd). Qed.

Lemma keeps_imul' (other : V) : keeps P (imul other).
Proof.
  intros d Hd. unfold imul. apply keeps_for_each; [|exact Hd].
  intros k d' Hd'. exact (P_setitem _ _ d' Hd').
Qed.

Lemma keeps_itruediv' (other : V) : keeps P (itruediv other).
Proof.
  intros d Hd. unfold itruediv. apply keeps_for_each; [|exact Hd].
  intros k d' Hd'. unfold itruediv_item.
  destruct (truediv _ _); [exact Hd' | exact (P_setitem _ _ d' Hd')].
Qed.

Lemma returned_copy' (d : container_) : P d -> returned P (copy d).
Proof.
  intros Hd. unfold copy, matrix_init.
  pose proof (keeps_items_loop (map_to_list (entries d)) iadd_item
                keeps_iadd_item' _ (P_empty d Hd)) as Hk.
  destruct (for_each _ _ _) as [[e|[]] d1]; simpl; auto.
Qed.

Lemma returned_on_copy' (m : Py container_ unit) (d : container_) :
  keeps P m -> P d -> returned P (on_copy m d).
Proof.
  intros Hm Hd. unfold on_copy.
  pose proof (returned_copy' d Hd) as Hc.
  destruct (copy d) as [e|d1]; simpl in *; [exact I|].
  specialize (Hm d1 Hc). destruct (m d1) as [[e|[]] d2]; simpl; auto.
Qed.

Lemma keeps_exec' (s : statement V) : keeps P (exec s).
Proof.
  intros d Hd.
  assert (Hiadd : forall other, keeps P (iadd other))
    by (intros other; apply keeps_items_loop, keeps_iadd_item').
  assert (Hisub : forall other, keeps P (isub other))
    by (intros other; apply keeps_items_loop, keeps_isub_item').
  destruct s; simpl;
    try (apply keeps_rebind; [|exact Hd]; unfold matrix_radd, matrix_rmul,
         matrix_add, matrix_sub, matrix_mul, matrix_truediv).
  - exact (P_setitem _ _ d Hd).
  - apply (keeps_items_loop items setitem P_setitem d Hd).
  - apply Hiadd, Hd.
  - apply Hisub, Hd.
  - apply keeps_imul', Hd.
  - apply keeps_itruediv', Hd.
  - apply returned_on_copy'; [apply Hiadd | exact Hd].
  - apply returned_on_copy'; [apply Hiadd | exact Hd].
  - apply returned_on_copy'; [apply Hisub | exact Hd].
  - unfold matrix_rsub, matrix_rmul, matrix_mul.
    pose proof (returned_on_copy' (imul minus_one) d (keeps_imul' _) Hd)
      as H1.
    destruct (on_copy (imul minus_one) d) as [e|d1]; simpl in *; [exact I|].
    apply returned_on_copy'; [apply Hiadd | exact H1].
  - apply returned_on_copy'; [apply keeps_imul' | exact Hd].
  - apply returned_on_copy'; [apply keeps_imul' | exact Hd].
  - apply returned_on_copy'; [apply keeps_itruediv' | exact Hd].
  - apply returned_copy', Hd.
Qed.

Lemma keeps_run' (prog : list (statement V)) (d : container_) :
  P d -> P (run prog d).
Proof.
  revert d. induction prog as [|s prog IH]; intros d Hd; simpl.
  - exact Hd.
  - apply IH, keeps_exec', Hd.
Qed.

End KeepingBySetitem.

Lemma keeps_canonical_setitem (c : matrix_class) (key : pykey) (value : V) :
  keeps (canonical_for c) (setitem key value).
Proof.
  intros d [Hc Hd].
  destruct (well_formed_decide (mcls d) key) as [Hwf|Hwf].
  - rewrite (setitem_well_formed key value d Hwf).
    split; [rewrite store_mcls; exact Hc|].
    unfold store. intros k v.
    destruct (truthy value); simpl.
    + rewrite lookup_insert.
      destruct (decide (sorted_key key = k)) as [<-|_]; [|apply Hd].
      intros _. rewrite <- Hc.
      split; [apply well_formed_sorted, Hwf | apply sorted_key_idempotent].
    + rewrite lookup_delete.
      destruct (decide (sorted_key key = k)); [discriminate | apply Hd].
  - destruct (setitem_ill_formed key value d Hwf) as [e ->].
    split; assumption.
Qed.

Lemma canonical_init (c : matrix_class) (items : list (pykey * V))
  (d : container_) :
  matrix_init c items = inr d -> canonical_for c d.
Proof.
  unfold matrix_init. intros Hinit.
  pose proof (keeps_items_loop (canonical_for c) items iadd_item
                (fun k v d Hd => keeps_canonical_setitem c _ _ d Hd)
                {| mcls := c; entries := ∅ |}) as Hk.
  destruct (for_each _ _ _) as [[e|[]] d']; [discriminate|].
  injection Hinit as <-. apply Hk. split; [reflexivity|].
  intros k v Hk'. simpl in Hk'. rewrite lookup_empty in Hk'. discriminate.
Qed.

Lemma canonical_run (c : matrix_class) (prog : list (statement V))
  (d : container_) :
  canonical_for c d -> canonical_for c (run prog d).
Proof.
  apply keeps_run'.
  - intros key value. apply keeps_canonical_setitem.
  - intros d' [Hc _]. split; [exact Hc|].
    intros k v Hk. simpl in Hk. rewrite lookup_empty in Hk. discriminate.
Qed.

(** X17: after the construction of a container and any run of statements,
    the container still has its class and every stored key has the format
    of the class and is sorted; so a stored pair [(a, b)] has [a <= b]
    (the matrix stays upper triangular). *)
Theorem stored_keys_are_sorted (c : matrix_class)
  (items : list (pykey * V)) (d : container_) (prog : list (statement V)) :
  matrix_init c items = inr d ->
  mcls (run prog d) = c /\
  forall k v, entries (run prog d) !! k = Some v ->
    well_formed c k /\ sorted_key k = k /\
    (forall a b, k = KTuple [a; b] -> a <= b).
Proof.
  intros Hinit.
  destruct (canonical_run c prog d (canonical_init c items d Hinit))
    as [Hc Hk].
  split; [exact Hc|]. intros k v Hkv. destruct (Hk k v Hkv) as [Hwf Hs].
  split; [exact Hwf|]. split; [exact Hs|].
  intros a b ->. apply sorted_pair_le, Hs.
Qed.

(** *** In-place addition and subtraction *)

(** The loop [for k, v in other.items(): self[k] = op(self[k], v)]. *)
Lemma accumulate_loop `{!NumberLaws V} (op : V -> V -> V)
  (other : list (pykey * V)) (d : container_) :
  Forall (fun kv => well_formed (mcls d) (fst kv)) other ->
  exists d',
    for_each other
      (fun '(k, v) => fun self => setitem k (op (getitem k self) v) self) d =
      (inr tt, d') /\
    mcls d' = mcls d /\
    forall key,
      getitem key d' =
      foldl op (getitem key d)
            (snd <$> filter (fun kv => sorted_key (fst kv) = sorted_key key)
                            other).
Proof.
  induction other as [|[k0 v0] other IH] using rev_ind; intros Hwf.
  - exists d. repeat split.
  - apply Forall_app in Hwf as [Hwf Hk0].
    apply Forall_cons in Hk0 as [Hk0 _]. simpl in Hk0.
    destruct (IH Hwf) as (d1 & Hrun & Hcls & Hget).
    rewrite for_each_append, (bind_ok _ _ _ _ _ Hrun). simpl.
    rewrite bind_ret_unit.
    rewrite setitem_well_formed by (rewrite Hcls; exact Hk0).
    eexists. split; [apply store_returns|].
    split; [rewrite store_mcls; exact Hcls|].
    intros key. rewrite filter_app, fmap_app, foldl_app, <- Hget.
    rewrite filter_cons, filter_nil. simpl.
    unfold getitem at 1. unfold store.
    destruct (decide (sorted_key k0 = sorted_key key)) as [Heq|Hne]; simpl.
    + replace (getitem key d1) with (getitem k0 d1)
        by (unfold getitem; rewrite Heq; reflexivity).
      rewrite <- Heq.
      destruct (truthy (op (getitem k0 d1) v0)) eqn:Ht; simpl.
      * rewrite lookup_insert_eq. reflexivity.
      * rewrite lookup_delete_eq. simpl. symmetry.
        apply truthy_false_iff, Ht.
    + destruct (truthy (op (getitem k0 d1) v0)); simpl.
      * rewrite lookup_insert_ne by exact Hne. reflexivity.
      * rewrite lookup_delete_ne by exact Hne. reflexivity.
Qed.

(** X18: [d += other] and [d -= other], for items with well-formed keys,
    return normally, and afterwards the lookup of any key returns its
    former value with the values of the items of [other] that have the
    same sorted key added to it (subtracted from it), in iteration
    order. *)
Theorem iadd_isub_accumulate `{!NumberLaws V} (other : list (pykey * V))
  (d : container_) :
  Forall (fun kv => well_formed (mcls d) (fst kv)) other ->
  (exists d',
     iadd other d = (inr tt, d') /\
     forall key,
       getitem key d' =
       foldl add (getitem key d)
             (snd <$> filter (fun kv => sorted_key (fst kv) = sorted_key key)
                             other)) /\
  (exists d',
     isub other d = (inr tt, d') /\
     forall key,
       getitem key d' =
       foldl sub (getitem key d)
             (snd <$> filter (fun kv => sorted_key (fst kv) = sorted_key key)
                             other)).
Proof.
  intros Hwf. split.
  - destruct (accumulate_loop add other d Hwf) as (d' & Hrun & _ & Hget).
    exists d'. split; [|exact Hget]. unfold iadd. rewrite <- Hrun.
    apply for_each_ext. intros [k v] s'. reflexivity.
  - destruct (accumulate_loop sub other d Hwf) as (d' & Hrun & _ & Hget).
    exists d'. split; [|exact Hget]. unfold isub. rewrite <- Hrun.
    apply for_each_ext. intros [k v] s'. reflexivity.
Qed.

(** *** Copies *)

Lemma filter_key_NoDup (l : list (pykey * V)) (k : pykey) :
  NoDup (l.*1) ->
  filter (fun kv => fst kv = k) l =
  match (list_to_map l : gmap pykey V) !! k with
  | Some v => [(k, v)]
  | None => []
  end.
Proof.
  induction l as [|[k0 v0] l IH]; intros Hnd.
  - change (list_to_map []) with (∅ : gmap pykey V).
    rewrite lookup_empty. reflexivity.
  - apply NoDup_cons in Hnd as [Hk0 Hnd]. rewrite filter_cons.
    change (list_to_map ((k0, v0) :: l))
      with (<[k0 := v0]> (list_to_map l : gmap pykey V)).
    simpl. rewrite lookup_insert, (IH Hnd).
    destruct (decide (k0 = k)) as [<-|Hne]; [|reflexivity].
    rewrite (not_elem_of_list_to_map_1 _ _ Hk0). reflexivity.
Qed.

Lemma filter_ext_Forall {A : Type} (P Q : A -> Prop)
  `{!forall x, Decision (P x)} `{!forall x, Decision (Q x)} (l : list A) :
  Forall (fun x => P x <-> Q x) l -> filter P l = filter Q l.
Proof.
  induction 1 as [|x l Hx _ IH]; [reflexivity|].
  rewrite !filter_cons, IH.
  destruct (decide (P x)), (decide (Q x)); tauto.
Qed.

Lemma accumulated_own_items `{!NumberLaws V} (c : matrix_class)
  (d : container_) (k : pykey) :
  canonical_for c d -> no_zero d -> (forall v : V, add zero v = v) ->
  cell (accumulated (map_to_list (entries d)) k) = entries d !! k.
Proof.
  intros [_ Hcan] Hnz Hadd. unfold accumulated.
  rewrite (filter_ext_Forall _ (fun kv => fst kv = k)).
  - rewrite filter_key_NoDup by apply NoDup_fst_map_to_list.
    rewrite list_to_map_to_list.
    destruct (entries d !! k) as [v|] eqn:Hk; simpl.
    + rewrite Hadd. unfold cell. rewrite (Hnz k v Hk). reflexivity.
    + unfold cell. rewrite (proj2 (truthy_false_iff zero) eq_refl).
      reflexivity.
  - apply Forall_forall. intros [k' v'] Hin. simpl.
    apply elem_of_map_to_list in Hin.
    destruct (Hcan k' v' Hin) as [_ Hs]. rewrite Hs. reflexivity.
Qed.

Lemma copy_canonical `{!NumberLaws V} (c : matrix_class) (d : container_) :
  canonical_for c d -> no_zero d -> (forall v : V, add zero v = v) ->
  copy d = inr d.
Proof.
  intros Hcan Hnz Hadd. unfold copy.
  destruct (init_loop_accumulates (mcls d) (map_to_list (entries d)))
    as (d' & Hrun & Hcls & Hd').
  { apply Forall_forall. intros [k v] Hin. simpl.
    apply elem_of_map_to_list in Hin. destruct Hcan as [Hc Hk].
    rewrite Hc. apply (Hk k v Hin). }
  unfold matrix_init. rewrite Hrun. f_equal.
  destruct d as [cd ed], d' as [cd' ed']. simpl in *. subst cd'. f_equal.
  apply map_eq. intros k. rewrite Hd'.
  apply (accumulated_own_items c {| mcls := cd; entries := ed |} k);
    assumption.
Qed.

(** X19: with numbers for which [0 + v] is [v], [copy] of a constructed
    container, after any run of statements, returns normally a container
    of the same class with the same entries. *)
Theorem copy_returns_equal_container `{!NumberLaws V} (c : matrix_class)
  (items : list (pykey * V)) (d : container_) (prog : list (statement V)) :
  (forall v : V, add zero v = v) ->
  matrix_init c items = inr d ->
  copy (run prog d) = inr (run prog d).
Proof.
  intros Hadd Hinit. apply (copy_canonical c); [| |exact Hadd].
  - apply canonical_run, (canonical_init c items d Hinit).
  - assert (Hempty : forall c', no_zero {| mcls := c'; entries := ∅ |}).
    { intros c' k v Hk. simpl in Hk. rewrite lookup_empty in Hk.
      discriminate. }
    apply (keeps_run no_zero keeps_store Hempty).
    pose proof (returned_matrix_init no_zero keeps_store Hempty c items)
      as Hr.
    rewrite Hinit in Hr. exact Hr.
Qed.

(** *** Scalar multiplication and division *)

Lemma imul_loop (other : V) (ks : list pykey) (d0 d : container_) :
  NoDup ks ->
  (forall k, k ∈ ks -> well_formed (mcls d) k /\ sorted_key k = k) ->
  (forall k, k ∈ ks -> entries d !! k = entries d0 !! k) ->
  exists d',
    for_each ks (fun k => imul_item k other) d = (inr tt, d') /\
    mcls d' = mcls d /\
    forall k, entries d' !! k =
              if decide (k ∈ ks)
              then cell (mul (default zero (entries d0 !! k)) other)
              else entries d !! k.
Proof.
  revert d. induction ks as [|k0 ks IH]; intros d Hnd Hks Hsame.
  - exists d. split; [reflexivity|]. split; [reflexivity|].
    intros k. rewrite decide_False; [reflexivity | apply not_elem_of_nil].
  - apply NoDup_cons in Hnd as [Hk0 Hnd].
    destruct (Hks k0) as [Hwf Hsort]; [apply elem_of_cons; auto|].
    simpl for_each. rewrite bind_unfold. unfold imul_item at 1.
    rewrite (setitem_well_formed _ _ d Hwf), Hsort.
    rewrite store_returns.
    destruct (IH (snd (store k0 (mul (getitem k0 d) other) d)) Hnd)
      as (d' & Hrun & Hcls & Hd').
    + intros k Hk. rewrite store_mcls. apply Hks, elem_of_cons. auto.
    + intros k Hk. unfold store.
      assert (k0 <> k) by (intros ->; contradiction).
      destruct (truthy _); simpl;
        [rewrite lookup_insert_ne by assumption
        |rewrite lookup_delete_ne by assumption];
        apply Hsame, elem_of_cons; auto.
    + exists d'. split; [exact Hrun|].
      split; [rewrite Hcls; apply store_mcls|].
      intros k. rewrite Hd'. unfold getitem. rewrite Hsort.
      rewrite (Hsame k0) by (apply elem_of_cons; auto).
      destruct (decide (k ∈ ks)) as [Hk|Hk].
      * rewrite decide_True by (apply elem_of_cons; auto). reflexivity.
      * unfold store. destruct (decide (k0 = k)) as [<-|Hne].
        -- rewrite decide_True by (apply elem_of_cons; auto). unfold cell.
           destruct (truthy _); simpl;
             [apply lookup_insert_eq | apply lookup_delete_eq].
        -- rewrite decide_False
             by (intros Hc; apply elem_of_cons in Hc as [->|?]; tauto).
           destruct (truthy _); simpl;
             [apply lookup_insert_ne | apply lookup_delete_ne]; exact Hne.
Qed.

(** X20: [d *= other] on a constructed container, after any run of
    statements, returns normally; every stored coefficient is replaced by
    its product with [other], an entry whose product is false is deleted,
    and no entry is added. *)
Theorem imul_scales_entries (c : matrix_class) (items : list (pykey * V))
  (d : container_) (prog : list (statement V)) (other : V) :
  matrix_init c items = inr d ->
  exists d',
    imul other (run prog d) = (inr tt, d') /\
    mcls d' = c /\
    forall k, entries d' !! k =
              match entries (run prog d) !! k with
              | Some v => if truthy (mul v other) then Some (mul v other)
                          else None
              | None => None
              end.
Proof.
  intros Hinit.
  destruct (canonical_run c prog d (canonical_init c items d Hinit))
    as [Hc Hk].
  set (d1 := run prog d) in *.
  destruct (imul_loop other ((map_to_list (entries d1)).*1) d1 d1)
    as (d' & Hrun & Hcls & Hd').
  - apply NoDup_fst_map_to_list.
  - intros k Hin. apply list_elem_of_fmap in Hin as ([k' v] & -> & Hin).
    apply elem_of_map_to_list in Hin. rewrite Hc. exact (Hk k' v Hin).
  - reflexivity.
  - exists d'. split; [exact Hrun|]. split; [congruence|].
    intros k. rewrite Hd'.
    destruct (entries d1 !! k) as [v|] eqn:Hv.
    + rewrite decide_True; [reflexivity|].
      apply list_elem_of_fmap. exists (k, v). split; [reflexivity|].
      apply elem_of_map_to_list. exact Hv.
    + rewrite decide_False; [reflexivity|].
      intros Hin. apply list_elem_of_fmap in Hin as ([k' v] & -> & Hin).
      apply elem_of_map_to_list in Hin. simpl in Hv. congruence.
Qed.

(** X21: [d /= other] with a divisor on which true division raises (a
    zero) returns normally on an empty container, and on a non-empty one
    raises the division's exception leaving the container as it was. *)
Theorem itruediv_by_zero (other : V) (e : exn) (d : container_) :
  (forall v : V, truediv v other = inl e) ->
  itruediv other d =
  (if decide (entries d = ∅) then inr tt else inl e, d).
Proof.
  intros Hdiv. unfold itruediv.
  destruct (decide (entries d = ∅)) as [Hemp|Hne].
  - rewrite Hemp, map_to_list_empty. reflexivity.
  - destruct (map_to_list (entries d)) as [|[k v] l] eqn:Hl.
    + apply map_to_list_empty_iff in Hl. contradiction.
    + simpl. rewrite bind_unfold. unfold itruediv_item. rewrite Hdiv.
      reflexivity.
Qed.

End MatrixOperations.

(** ** The block parser *)

Section BlockParser.
Variables open_ close : ascii.

Lemma str_index_spec (code : list ascii) :
  match str_index open_ code with
  | None => open_ ∉ code
  | Some j =>
      exists pre rest, code = pre ++ (open_ :: rest) /\ (open_ ∉ pre) /\
                       length pre = j
  end.
Proof.
  induction code as [|s code IH]; simpl; [apply not_elem_of_nil|].
  destruct (decide (s = open_)) as [->|Hne].
  - exists [], code. split; [reflexivity|].
    split; [apply not_elem_of_nil | reflexivity].
  - destruct (str_index open_ code) as [j|]; simpl.
    + destruct IH as (pre & rest & -> & Hpre & <-).
      exists (s :: pre), rest. split; [reflexivity|]. split; [|reflexivity].
      intros Hin. apply elem_of_cons in Hin as [?|?]; [congruence|tauto].
    + intros Hin. apply elem_of_cons in Hin as [?|?]; [congruence|tauto].
Qed.

(** X22: [next_block] raises the [ValueError] of [str.index] exactly when
    the opening bracket does not occur in the code. *)
Theorem next_block_raises_iff (code : list ascii) :
  (exists e, next_block code open_ close = inl e) <-> open_ ∉ code.
Proof.
  unfold next_block. pose proof (str_index_spec code) as Hi.
  destruct (str_index open_ code) as [j|].
  - destruct Hi as (pre & rest & -> & _ & _).
    destruct (scan_block _ _ _ _ _); split;
      try (intros [e [=]]); intros Hn; exfalso; apply Hn;
      apply elem_of_app; right; apply elem_of_cons; auto.
  - split; [intros _; exact Hi | eauto].
Qed.

Lemma scan_block_balanced (b rest : list ascii) (count : Z) (i : nat) :
  open_ <> close -> balanced open_ close b -> 1 <= count ->
  scan_block open_ close (b ++ rest) count i =
  scan_block open_ close rest count (i + length b).
Proof.
  intros Hdiff Hb. revert rest count i.
  induction Hb as [|c b Ho Hc _ IH|b1 b2 _ IH1 _ IH2];
    intros rest count i Hcount.
  - simpl. f_equal. lia.
  - simpl. destruct (decide (c = open_)); [contradiction|].
    destruct (decide (c = close)); [contradiction|].
    destruct (decide (count = 0)); [lia|].
    rewrite IH by exact Hcount. f_equal. lia.
  - simpl. destruct (decide (open_ = open_)); [|contradiction].
    destruct (decide (count + 1 = 0)); [lia|].
    rewrite <- app_assoc. rewrite IH1 by lia. simpl.
    destruct (decide (close = open_)) as [Heq|Hne]; [congruence|].
    destruct (decide (close = close)); [|contradiction].
    destruct (decide (count + 1 - 1 = 0)); [lia|].
    rewrite IH2 by lia. rewrite length_app. simpl. f_equal; lia.
Qed.

(** X23: for distinct brackets, when the code is a text without the
    opening bracket, then a bracketed block with matching brackets
    inside, then any text, [next_block] returns that block; the index it
    returns is the length of the block plus one, counted from the
    character after the opening bracket (not from the start of the
    code). *)
Theorem next_block_returns_first_block (pre body rest : list ascii) :
  open_ <> close -> open_ ∉ pre -> balanced open_ close body ->
  next_block (pre ++ (open_ :: (body ++ (close :: rest)))) open_ close =
  inr (Some (body, (length body + 1)%nat)).
Proof.
  intros Hne Hpre Hbody. unfold next_block.
  pose proof (str_index_spec (pre ++ (open_ :: (body ++ (close :: rest)))))
    as Hi.
  destruct (str_index open_ _) as [j|].
  - destruct Hi as (pre' & rest' & Heq & Hpre' & <-).
    assert (Hp : pre' = pre).
    { clear -Heq Hpre Hpre'. revert pre' Heq Hpre'.
      induction pre as [|c pre IH]; intros [|c' pre'] Heq Hpre'; simpl in *.
      - reflexivity.
      - injection Heq as <- _. exfalso. apply Hpre'. apply elem_of_cons. auto.
      - injection Heq as -> _. exfalso. apply Hpre. apply elem_of_cons. auto.
      - injection Heq as -> Heq. f_equal. apply IH.
        + intros Hin. apply Hpre, elem_of_cons. auto.
        + exact Heq.
        + intros Hin. apply Hpre', elem_of_cons. auto. }
    subst pre'.
    replace (drop (length pre + 1)
                  (pre ++ (open_ :: (body ++ (close :: rest)))))
      with (body ++ (close :: rest)).
    2:{ rewrite drop_app_add'; [reflexivity | reflexivity]. }
    rewrite (scan_block_balanced body (close :: rest) 1 0 Hne Hbody) by lia.
    simpl. destruct (decide (close = open_)); [congruence|].
    destruct (decide (close = close)); [|contradiction]. simpl.
    rewrite take_app_length. reflexivity.
  - exfalso. apply Hi. apply elem_of_app. right. apply elem_of_cons. auto.
Qed.

Lemma scan_block_spec (code : list ascii) (count : Z) (i j : nat) :
  open_ <> close -> 1 <= count ->
  scan_block open_ close code count i = Some j ->
  exists b rest,
    code = b ++ (close :: rest) /\ j = (i + length b)%nat /\
    count + occurrences open_ b - occurrences close b = 1.
Proof.
  intros Hne. revert count i.
  induction code as [|s code IH]; intros count i Hcount Hscan;
    [discriminate|].
  simpl in Hscan. unfold occurrences in *.
  destruct (decide (s = open_)) as [->|Hso].
  - destruct (decide (count + 1 = 0)); [lia|].
    apply IH in Hscan as (b & rest & -> & -> & Hocc); [|lia].
    exists (open_ :: b), rest. split; [reflexivity|].
    split; [simpl; lia|].
    rewrite filter_cons_True by reflexivity.
    rewrite filter_cons_False by exact Hne. simpl length. lia.
  - destruct (decide (s = close)) as [->|Hsc].
    + destruct (decide (count - 1 = 0)) as [Hz|Hnz].
      * injection Hscan as <-. exists [], code.
        split; [reflexivity|]. split; [simpl; lia|]. simpl. lia.
      * apply IH in Hscan as (b & rest & -> & -> & Hocc); [|lia].
        exists (close :: b), rest. split; [reflexivity|].
        split; [simpl; lia|].
        rewrite filter_cons_False by congruence.
        rewrite filter_cons_True by reflexivity. simpl length. lia.
    + destruct (decide (count = 0)); [lia|].
      apply IH in Hscan as (b & rest & -> & -> & Hocc); [|lia].
      exists (s :: b), rest. split; [reflexivity|].
      split; [simpl; lia|].
      rewrite !filter_cons_False by assumption. exact Hocc.
Qed.

(** X24: for distinct brackets, whenever [next_block] returns a block, the
    code is a text without the opening bracket, the opening bracket, the
    block, a closing bracket and a rest; the block holds as many opening
    as closing brackets, and the index returned is its length plus
    one. *)
Theorem next_block_returns_enclosed_text (code block : list ascii)
  (i : nat) :
  open_ <> close ->
  next_block code open_ close = inr (Some (block, i)) ->
  exists pre rest,
    code = pre ++ (open_ :: (block ++ (close :: rest))) /\
    (open_ ∉ pre) /\
    occurrences open_ block = occurrences close block /\
    i = (length block + 1)%nat.
Proof.
  intros Hne. unfold next_block.
  pose proof (str_index_spec code) as Hi.
  destruct (str_index open_ code) as [j|]; [|discriminate].
  destruct Hi as (pre & rest & -> & Hpre & <-).
  replace (drop (length pre + 1) (pre ++ (open_ :: rest))) with rest
    by (rewrite drop_app_add'; reflexivity).
  destruct (scan_block open_ close rest 1 0) as [k|] eqn:Hscan;
    [|discriminate].
  apply scan_block_spec in Hscan as (b & rest' & -> & -> & Hocc);
    [|exact Hne | lia].
  simpl. rewrite take_app_length. intros [= <- <-].
  exists pre, rest'. split; [reflexivity|]. split; [exact Hpre|].
  split; lia.
Qed.

End BlockParser.

Lemma scan_block_same_bracket (c : ascii) (code : list ascii) (count : Z)
  (i : nat) :
  1 <= count -> scan_block c c code count i = None.
Proof.
  revert count i. induction code as [|s code IH]; intros count i Hc;
    [reflexivity|].
  simpl. destruct (decide (s = c)).
  - destruct (decide (count + 1 = 0)); [lia|]. apply IH. lia.
  - destruct (decide (count = 0)); [lia|]. apply IH. lia.
Qed.

(** X25: when the opening and the closing bracket are the same character,
    [next_block] returns [None] on every code that holds the character:
    the count only grows. *)
Theorem next_block_same_bracket (c : ascii) (code : list ascii) :
  c ∈ code -> next_block code c c = inr None.
Proof.
  intros Hin. unfold next_block.
  pose proof (str_index_spec c code) as Hi.
  destruct (str_index c code) as [j|]; [|contradiction].
  rewrite scan_block_same_bracket by lia. reflexivity.
Qed.

(** ** Graph problems *)

Section IndexMaps.
Context {K A : Type} `{Countable K}.

Lemma dict_of_reverse (l : list (K * A)) :
  dict_of l = list_to_map (reverse l).
Proof.
  induction l as [|[k a] l IH] using rev_ind; [reflexivity|].
  unfold dict_of. rewrite foldl_app, reverse_snoc. simpl.
  fold (dict_of l). rewrite IH. reflexivity.
Qed.

(** A comprehension over items with distinct keys holds exactly the
    items. *)
Lemma dict_of_lookup (l : list (K * A)) (k : K) (a : A) :
  NoDup (l.*1) -> dict_of l !! k = Some a <-> (k, a) ∈ l.
Proof.
  intros Hnd. rewrite dict_of_reverse, <- elem_of_list_to_map.
  - apply elem_of_reverse.
  - rewrite fmap_reverse, reverse_Permutation. exact Hnd.
Qed.

End IndexMaps.

Section VertexIndices.
Context {vertex : Type} `{Countable vertex}.

(** [{x: i for i, x in enumerate(vertices)}] numbers the vertices by their
    positions. *)
Lemma vertex_to_index_lookup (vs : list vertex) (v : vertex) (i : Z) :
  NoDup vs ->
  dict_of ((fun ix => (snd ix, fst ix)) <$> enumerate vs) !! v = Some i <->
  0 <= i /\ vs !! Z.to_nat i = Some v.
Proof.
  intros Hnd. rewrite dict_of_lookup.
  - rewrite list_elem_of_fmap. unfold enumerate. split.
    + intros ([j x] & [= -> ->] & Hin).
      apply elem_of_lookup_imap in Hin as (n & y & [= -> ->] & Hn).
      split; [lia|]. rewrite Nat2Z.id. exact Hn.
    + intros [Hi Hv]. exists (i, v). split; [reflexivity|].
      apply elem_of_lookup_imap. exists (Z.to_nat i), v.
      split; [|exact Hv]. f_equal. lia.
  - replace (((fun ix : Z * vertex => (snd ix, fst ix)) <$> enumerate vs).*1)
      with vs; [exact Hnd|].
    apply list_eq. intros n. unfold enumerate.
    rewrite !list_lookup_fmap, list_lookup_imap.
    destruct (vs !! n); reflexivity.
Qed.

(** [{i: x for x, i in vertex_to_index.items()}] inverts a numbering with
    distinct numbers. *)
Lemma index_to_vertex_lookup (m : gmap vertex Z) (i : Z) (v : vertex) :
  (forall v1 v2 j, m !! v1 = Some j -> m !! v2 = Some j -> v1 = v2) ->
  dict_of ((fun xi => (snd xi, fst xi)) <$> map_to_list m) !! i = Some v <->
  m !! v = Some i.
Proof.
  intros Hinj. rewrite dict_of_lookup.
  - rewrite list_elem_of_fmap. split.
    + intros ([x j] & [= -> ->] & Hin). apply elem_of_map_to_list. exact Hin.
    + intros Hm. exists (v, i). split; [reflexivity|].
      apply elem_of_map_to_list. exact Hm.
  - rewrite <- list_fmap_compose. apply NoDup_fmap_2_strong.
    + intros [v1 j1] [v2 j2] H1 H2 Heq. simpl in Heq. subst j2.
      apply elem_of_map_to_list in H1, H2. f_equal. exact (Hinj _ _ _ H1 H2).
    + apply NoDup_map_to_list.
Qed.

Lemma vertex_to_index_injective (vs : list vertex) (v1 v2 : vertex)
  (j : Z) :
  NoDup vs ->
  dict_of ((fun ix => (snd ix, fst ix)) <$> enumerate vs) !! v1 = Some j ->
  dict_of ((fun ix => (snd ix, fst ix)) <$> enumerate vs) !! v2 = Some j ->
  v1 = v2.
Proof.
  intros Hnd H1 H2.
  apply (vertex_to_index_lookup vs _ _ Hnd) in H1 as [_ H1].
  apply (vertex_to_index_lookup vs _ _ Hnd) in H2 as [_ H2]. congruence.
Qed.

Lemma elem_of_endpoints (edges : gset (vertex * vertex)) (v : vertex) :
  v ∈ endpoints edges <->
  exists e, e ∈ edges /\ (v = fst e \/ v = snd e).
Proof.
  unfold endpoints. rewrite elem_of_list_to_set, list_elem_of_bind.
  split.
  - intros (e & Hv & He). exists e. apply elem_of_elements in He.
    split; [exact He|].
    apply elem_of_cons in Hv as [->|Hv]; [auto|].
    apply elem_of_cons in Hv as [->|Hv]; [auto | inversion Hv].
  - intros (e & He & Hv). exists e. split; [|apply elem_of_elements, He].
    destruct Hv as [-> | ->].
    + apply elem_of_cons. left. reflexivity.
    + apply elem_of_cons. right. apply elem_of_cons. left. reflexivity.
Qed.

(** X26: the two index maps of a [VertexCover] are inverse to each other:
    every end of an edge has a number in [0, N), distinct vertices have
    distinct numbers, a number maps back to its vertex, and nothing else
    is numbered; [N] and [n] are the numbers of vertices and of edges. *)
Theorem VertexCover_indices_are_inverse (edges : gset (vertex * vertex)) :
  let self := VertexCover.init edges in
  (forall v, v ∈ VertexCover.V self <->
             exists e, e ∈ edges /\ (v = fst e \/ v = snd e)) /\
  (forall v, v ∈ VertexCover.V self <->
             exists i, VertexCover._vertex_to_index self !! v = Some i) /\
  (forall v i, VertexCover._vertex_to_index self !! v = Some i ->
               0 <= i < VertexCover._N self) /\
  (forall i, 0 <= i < VertexCover._N self ->
             exists v, VertexCover._index_to_vertex self !! i = Some v) /\
  (forall v i, VertexCover._vertex_to_index self !! v = Some i <->
               VertexCover._index_to_vertex self !! i = Some v) /\
  VertexCover._N self = Z.of_nat (size (VertexCover.V self)) /\
  VertexCover._n self = Z.of_nat (size edges).
Proof.
  intros self.
  pose proof (NoDup_elements (endpoints edges)) as Hnd.
  assert (Hlook : forall v i,
            VertexCover._vertex_to_index self !! v = Some i <->
            0 <= i /\ elements (endpoints edges) !! Z.to_nat i = Some v).
  { intros v i. apply vertex_to_index_lookup, Hnd. }
  assert (Hinv : forall v i,
            VertexCover._vertex_to_index self !! v = Some i <->
            VertexCover._index_to_vertex self !! i = Some v).
  { intros v i. symmetry. apply index_to_vertex_lookup.
    intros v1 v2 j. apply vertex_to_index_injective, Hnd. }
  assert (Hlen : VertexCover._N self =
                 Z.of_nat (length (elements (endpoints edges))))
    by reflexivity.
  split; [apply elem_of_endpoints|]. split; [|split; [|split; [|split]]].
  - intros v. unfold VertexCover.V. simpl. split.
    + intros Hv. apply elem_of_elements, list_elem_of_lookup in Hv as [n Hn].
      exists (Z.of_nat n). apply Hlook. rewrite Nat2Z.id. split; [lia|].
      exact Hn.
    + intros [i Hi]. apply Hlook in Hi as [_ Hi].
      apply elem_of_elements, list_elem_of_lookup. eauto.
  - intros v i Hi. apply Hlook in Hi as [H0 Hi].
    apply lookup_lt_Some in Hi. rewrite Hlen. lia.
  - intros i [H0 Hi]. rewrite Hlen in Hi.
    destruct (lookup_lt_is_Some_2 (elements (endpoints edges)) (Z.to_nat i))
      as [v Hv]; [lia|].
    exists v. apply Hinv, Hlook. split; [exact H0 | exact Hv].
  - exact Hinv.
  - split; reflexivity.
Qed.

End VertexIndices.

(** *** The objective of a container of rational coefficients *)

Section Objective.
Variable x : Z -> Qc.

Abbreviation qmatrix_ := (matrix Qc).

Lemma objective_insert (c : matrix_class) (m : gmap pykey Qc) (k : pykey)
  (q : Qc) :
  m !! k = None ->
  objective x {| mcls := c; entries := <[k := q]> m |} =
  (q * key_product x k + objective x {| mcls := c; entries := m |})%Qc.
Proof.
  intros Hk. unfold objective. simpl.
  rewrite map_fold_insert_L; [reflexivity | | exact Hk].
  intros. ring.
Qed.

Lemma objective_delete (c : matrix_class) (m : gmap pykey Qc) (k : pykey) :
  objective x {| mcls := c; entries := m |} =
  (default (Q2Qc 0) (m !! k) * key_product x k
   + objective x {| mcls := c; entries := delete k m |})%Qc.
Proof.
  destruct (m !! k) as [q|] eqn:Hk; simpl.
  - rewrite <- (insert_delete_id m k q Hk) at 1.
    apply objective_insert, lookup_delete_eq.
  - rewrite delete_id by exact Hk. ring.
Qed.

Lemma objective_store (k : pykey) (value : Qc) (d : qmatrix_) :
  objective x (snd (store k value d)) =
  (objective x d - default (Q2Qc 0) (entries d !! k) * key_product x k
   + value * key_product x k)%Qc.
Proof.
  destruct d as [c m]. unfold store.
  destruct (truthy value) eqn:Ht; unfold with_entries;
    cbn [snd mcls entries].
  - rewrite (objective_delete c m k).
    rewrite <- (insert_delete_eq m k value).
    rewrite objective_insert by apply lookup_delete_eq. ring.
  - rewrite (objective_delete c m k).
    apply Qc_truthy_false_iff in Ht. rewrite Ht.
    change (zero (V := Qc)) with (Q2Qc 0). ring.
Qed.

Lemma key_product_sorted_pair (a b : Z) :
  key_product x (sorted_key (KTuple [a; b])) = (x a * x b)%Qc.
Proof.
  simpl. destruct (sorted_pair a b) as [-> | ->]; simpl; ring.
Qed.

(** [Q[(a, b)] += v] and [Q[(a, b)] -= v] change the objective by
    [v * x[a] * x[b]]. *)
Lemma iadd_item_objective (a b : Z) (v : Qc) (d : qmatrix_) :
  well_formed (mcls d) (KTuple [a; b]) ->
  exists d',
    iadd_item (KTuple [a; b]) v d = (inr tt, d') /\ mcls d' = mcls d /\
    objective x d' = (objective x d + v * (x a * x b))%Qc.
Proof.
  intros Hwf. unfold iadd_item.
  rewrite (setitem_well_formed _ _ d Hwf), store_returns.
  eexists. split; [reflexivity|]. split; [apply store_mcls|].
  rewrite objective_store, key_product_sorted_pair. unfold getitem.
  change (zero (V := Qc)) with (Q2Qc 0).
  change (add (V := Qc)) with Qcplus. ring.
Qed.

Lemma isub_item_objective (a b : Z) (v : Qc) (d : qmatrix_) :
  well_formed (mcls d) (KTuple [a; b]) ->
  exists d',
    isub_item (KTuple [a; b]) v d = (inr tt, d') /\ mcls d' = mcls d /\
    objective x d' = (objective x d - v * (x a * x b))%Qc.
Proof.
  intros Hwf. unfold isub_item.
  rewrite (setitem_well_formed _ _ d Hwf), store_returns.
  eexists. split; [reflexivity|]. split; [apply store_mcls|].
  rewrite objective_store, key_product_sorted_pair. unfold getitem.
  change (zero (V := Qc)) with (Q2Qc 0).
  change (sub (V := Qc)) with Qcminus. ring.
Qed.

Lemma total_cons (q : Qc) (l : list Qc) :
  total (q :: l) = (q + total l)%Qc.
Proof. reflexivity. Qed.

(** A loop whose every pass returns and changes the objective by a known
    amount changes it by the sum of the amounts. *)
Lemma for_each_objective {A : Type} (c : matrix_class) (l : list A)
  (body : A -> Py qmatrix_ unit) (delta : A -> Qc) :
  (forall a d, a ∈ l -> mcls d = c ->
     exists d', body a d = (inr tt, d') /\ mcls d' = c /\
                objective x d' = (objective x d + delta a)%Qc) ->
  forall d, mcls d = c ->
    exists d', for_each l body d = (inr tt, d') /\ mcls d' = c /\
               objective x d' = (objective x d + total (delta <$> l))%Qc.
Proof.
  induction l as [|a l IH]; intros Hbody d Hd.
  - exists d. split; [reflexivity|]. split; [exact Hd|].
    change (total (delta <$> [])) with (Q2Qc 0). ring.
  - destruct (Hbody a d) as (d1 & H1 & Hc1 & Ho1);
      [apply elem_of_cons; auto | exact Hd|].
    destruct (IH (fun a' d' Ha' => Hbody a' d' (proj2 (elem_of_cons _ _ _)
                                                   (or_intror Ha')))
                 d1 Hc1) as (d2 & H2 & Hc2 & Ho2).
    exists d2. simpl for_each. rewrite (bind_ok _ _ _ _ _ H1).
    split; [exact H2|]. split; [exact Hc2|].
    rewrite Ho2, Ho1, fmap_cons, total_cons. ring.
Qed.

Lemma total_ext {A : Type} (f g : A -> Qc) (l : list A) :
  (forall a, a ∈ l -> f a = g a) -> total (f <$> l) = total (g <$> l).
Proof.
  induction l as [|a l IH]; intros Hfg; [reflexivity|].
  rewrite !fmap_cons, !total_cons.
  rewrite (Hfg a) by (apply elem_of_cons; auto).
  rewrite IH by (intros a' Ha'; apply Hfg, elem_of_cons; auto).
  reflexivity.
Qed.

Lemma total_scaled_shifted {A : Type} (c : Qc) (g : A -> Qc) (l : list A) :
  total ((fun a => c * (g a - Q2Qc 1))%Qc <$> l) =
  (c * total (g <$> l) - Q2Qc (inject_Z (Z.of_nat (length l))) * c)%Qc.
Proof.
  induction l as [|a l IH].
  - change (total _) with (Q2Qc 0) at 1. change (total _) with (Q2Qc 0).
    change (Q2Qc (inject_Z (Z.of_nat (length [])))) with (Q2Qc 0). ring.
  - rewrite !fmap_cons, !total_cons, IH. cbn [length].
    replace (Q2Qc (inject_Z (Z.of_nat (S (length l)))))
      with (Q2Qc (inject_Z (Z.of_nat (length l))) + Q2Qc 1)%Qc; [ring|].
    apply Qc_is_canon. simpl. rewrite Nat2Z.inj_succ. unfold Z.succ.
    rewrite inject_Z_plus. rewrite !Qred_correct. reflexivity.
Qed.

Lemma total_zero {A : Type} (g : A -> Qc) (l : list A) :
  (forall a, a ∈ l -> g a = Q2Qc 0) -> total (g <$> l) = Q2Qc 0.
Proof.
  induction l as [|a l IH]; intros Hg; [reflexivity|].
  rewrite fmap_cons, total_cons.
  rewrite (Hg a) by (apply elem_of_cons; auto).
  rewrite IH by (intros a' Ha'; apply Hg, elem_of_cons; auto). ring.
Qed.

End Objective.

(** *** VertexCover.to_qubo *)

Section VertexCoverFacts.
Context {vertex : Type} `{Countable vertex}.

Lemma total_scaled {A : Type} (c : Qc) (g : A -> Qc) (l : list A) :
  total ((fun a => c * g a)%Qc <$> l) = (c * total (g <$> l))%Qc.
Proof.
  induction l as [|a l IH].
  - change (total _) with (Q2Qc 0) at 1. change (total _) with (Q2Qc 0). ring.
  - rewrite !fmap_cons, !total_cons, IH. ring.
Qed.

(** Both ends of an edge are numbered, with non-negative numbers. *)
Lemma ends_are_numbered (edges : gset (vertex * vertex))
  (e : vertex * vertex) :
  e ∈ edges ->
  exists iu iv,
    dict_of ((fun ix => (snd ix, fst ix))
               <$> enumerate (elements (endpoints edges))) !! fst e = Some iu /\
    dict_of ((fun ix => (snd ix, fst ix))
               <$> enumerate (elements (endpoints edges))) !! snd e = Some iv /\
    0 <= iu /\ 0 <= iv.
Proof.
  intros He.
  pose proof (NoDup_elements (endpoints edges)) as Hnd.
  assert (Hnum : forall v, v ∈ endpoints edges ->
            exists i, dict_of ((fun ix => (snd ix, fst ix))
                        <$> enumerate (elements (endpoints edges))) !! v =
                      Some i /\ 0 <= i).
  { intros v Hv. apply elem_of_elements, list_elem_of_lookup in Hv as [n Hn].
    exists (Z.of_nat n). split; [|lia].
    apply vertex_to_index_lookup; [exact Hnd|].
    rewrite Nat2Z.id. split; [lia | exact Hn]. }
  destruct (Hnum (fst e)) as (iu & Hu & Hu0);
    [apply elem_of_endpoints; eauto|].
  destruct (Hnum (snd e)) as (iv & Hv & Hv0);
    [apply elem_of_endpoints; eauto|].
  exists iu, iv. repeat split; assumption.
Qed.

(** The run of the two loops of [to_qubo], for any values of the
    variables. *)
Lemma to_qubo_loops (edges : gset (vertex * vertex)) (A B : Qc)
  (x : Z -> Qc) :
  let self := VertexCover.init edges in
  let var := variable_of (VertexCover._vertex_to_index self) in
  exists Q,
    (for_each (seqZ 0 (VertexCover._N self))
              (fun i => iadd_item (KTuple [i; i]) B);;
     for_each (elements (VertexCover._edges self))
              (VertexCover.encode_edge self A))
      {| mcls := QUBOMatrix; entries := ∅ |} = (inr tt, Q) /\
    objective x Q =
    (total ((fun i => B * (x i * x i)) <$> seqZ 0 (VertexCover._N self))
     + total ((fun e => A * (x (var (fst e)) * x (var (snd e)))
                        - A * (x (var (fst e)) * x (var (fst e)))
                        - A * (x (var (snd e)) * x (var (snd e))))
                <$> elements edges))%Qc.
Proof.
  intros self var.
  destruct (for_each_objective x QUBOMatrix (seqZ 0 (VertexCover._N self))
              (fun i => iadd_item (KTuple [i; i]) B)
              (fun i => B * (x i * x i))%Qc)
    with (d := {| mcls := QUBOMatrix; entries := ∅ |} : matrix Qc)
    as (Q1 & Hrun1 & Hc1 & Ho1); [|reflexivity|].
  { intros i d Hi Hd. apply elem_of_seqZ in Hi.
    destruct (iadd_item_objective x i i B d) as (d' & Hd' & Hc' & Ho').
    - rewrite Hd. simpl. lia.
    - exists d'. split; [exact Hd'|]. split; [congruence | exact Ho']. }
  destruct (for_each_objective x QUBOMatrix (elements edges)
              (VertexCover.encode_edge self A)
              (fun e => A * (x (var (fst e)) * x (var (snd e)))
                        - A * (x (var (fst e)) * x (var (fst e)))
                        - A * (x (var (snd e)) * x (var (snd e))))%Qc)
    with (d := Q1) as (Q2 & Hrun2 & Hc2 & Ho2); [|exact Hc1|].
  { intros e d He Hd. apply elem_of_elements in He.
    destruct (ends_are_numbered edges e He) as (iu & iv & Hu & Hv & Hu0 & Hv0).
    assert (Hgu : dict_get (S := matrix Qc)
                    (VertexCover._vertex_to_index self) (fst e) d
                  = (inr iu, d))
      by (unfold dict_get; simpl; rewrite Hu; reflexivity).
    assert (Hgv : dict_get (S := matrix Qc)
                    (VertexCover._vertex_to_index self) (snd e) d
                  = (inr iv, d))
      by (unfold dict_get; simpl; rewrite Hv; reflexivity).
    assert (Hvu : var (fst e) = iu)
      by (unfold var, variable_of; simpl; rewrite Hu; reflexivity).
    assert (Hvv : var (snd e) = iv)
      by (unfold var, variable_of; simpl; rewrite Hv; reflexivity).
    rewrite Hvu, Hvv. unfold VertexCover.encode_edge.
    rewrite (bind_ok _ _ _ _ _ Hgu), (bind_ok _ _ _ _ _ Hgv).
    destruct (iadd_item_objective x iu iv A d) as (d1 & Hd1 & Hcl1 & Hob1);
      [rewrite Hd; simpl; lia|].
    destruct (isub_item_objective x iu iu A d1) as (d2 & Hd2 & Hcl2 & Hob2);
      [rewrite Hcl1, Hd; simpl; lia|].
    destruct (isub_item_objective x iv iv A d2) as (d3 & Hd3 & Hcl3 & Hob3);
      [rewrite Hcl2, Hcl1, Hd; simpl; lia|].
    exists d3.
    rewrite (bind_ok _ _ _ _ _ Hd1), (bind_ok _ _ _ _ _ Hd2), Hd3.
    split; [reflexivity|]. split; [congruence|].
    rewrite Hob3, Hob2, Hob1. ring. }
  exists Q2. split.
  - rewrite (bind_ok _ _ _ _ _ Hrun1). exact Hrun2.
  - rewrite Ho2, Ho1.
    assert (H0 : objective x {| mcls := QUBOMatrix; entries := ∅ |} = Q2Qc 0)
      by reflexivity.
    rewrite H0. ring.
Qed.

(** X27: [to_qubo] never raises and returns the offset [n * A]; for
    variables with values in [{0, 1}], the objective of the returned
    matrix plus the offset is [B] times the sum of the variables plus [A]
    times the sum, over the edges, of [(1 - x[u]) * (1 - x[v])] (one for
    an edge with no colored end, else zero).  So, as the docstring says,
    when every edge has a colored end the objective plus the offset is
    [B] times the number of colored vertices. *)
Theorem VertexCover_to_qubo_value (edges : gset (vertex * vertex))
  (A B : Qc) :
  let self := VertexCover.init edges in
  let var := variable_of (VertexCover._vertex_to_index self) in
  let offset := (Q2Qc (inject_Z (VertexCover._n self)) * A)%Qc in
  exists Q,
    VertexCover.to_qubo self A B = inr (Q, offset) /\
    forall x : Z -> Qc,
      (forall i, x i = Q2Qc 0 \/ x i = Q2Qc 1) ->
      (objective x Q + offset =
       B * total (x <$> seqZ 0 (VertexCover._N self))
       + A * total ((fun e => (Q2Qc 1 - x (var (fst e)))
                              * (Q2Qc 1 - x (var (snd e))))
                      <$> elements edges))%Qc /\
      ((forall e, e ∈ edges ->
                  x (var (fst e)) = Q2Qc 1 \/ x (var (snd e)) = Q2Qc 1) ->
       (objective x Q + offset =
        B * total (x <$> seqZ 0 (VertexCover._N self)))%Qc).
Proof.
  intros self var offset.
  destruct (to_qubo_loops edges A B (fun _ => Q2Qc 0)) as (Q & Hrun & _).
  exists Q. split.
  { unfold VertexCover.to_qubo.
    change (matrix_init QUBOMatrix [])
      with (inr {| mcls := QUBOMatrix; entries := ∅ |}
              : result (matrix Qc)).
    unfold rbind, self. rewrite Hrun. reflexivity. }
  intros x Hx.
  destruct (to_qubo_loops edges A B x) as (Q' & Hrun' & Hobj).
  rewrite Hrun in Hrun'. injection Hrun' as <-.
  fold self in Hobj. fold var in Hobj.
  assert (Hsq : forall i, (x i * x i = x i)%Qc).
  { intros i. destruct (Hx i) as [-> | ->]; ring. }
  assert (Hmain :
    (objective x Q + offset =
     B * total (x <$> seqZ 0 (VertexCover._N self))
     + A * total ((fun e => (Q2Qc 1 - x (var (fst e)))
                            * (Q2Qc 1 - x (var (snd e))))
                    <$> elements edges))%Qc).
  { rewrite Hobj.
    rewrite (total_ext (fun i => B * (x i * x i))%Qc (fun i => B * x i)%Qc)
      by (intros i _; rewrite Hsq; reflexivity).
    rewrite total_scaled.
    rewrite (total_ext _ (fun e => A * ((Q2Qc 1 - x (var (fst e)))
                                        * (Q2Qc 1 - x (var (snd e)))
                                        - Q2Qc 1))%Qc)
      by (intros e _; rewrite !Hsq; ring).
    rewrite total_scaled_shifted. unfold offset.
    change (VertexCover._n self) with (Z.of_nat (size edges)).
    change (size edges) with (length (elements edges)). ring. }
  split; [exact Hmain|]. intros Hcover. rewrite Hmain.
  rewrite (total_zero (fun e => (Q2Qc 1 - x (var (fst e)))
                                * (Q2Qc 1 - x (var (snd e))))%Qc);
    [ring|].
  intros e He. apply elem_of_elements in He.
  destruct (Hcover e He) as [-> | ->]; ring.
Qed.

End VertexCoverFacts.

(** *** VertexCover.convert_solution *)

Section VertexCoverSolutions.
Context {vertex : Type} `{Countable vertex}.

Lemma colored_returns (self : VertexCover.t (vertex := vertex))
  (items : list (Z * Z)) :
  (forall i, (i, 1) ∈ items ->
             is_Some (VertexCover._index_to_vertex self !! i)) ->
  exists s,
    VertexCover.colored self items = inr s /\
    forall v, v ∈ s <->
              exists i, (i, 1) ∈ items /\
                        VertexCover._index_to_vertex self !! i = Some v.
Proof.
  induction items as [|[i x] items IH]; intros Hkeys.
  - exists ∅. split; [reflexivity|]. intros v. split.
    + intros Hv. apply elem_of_empty in Hv. contradiction.
    + intros (i & Hi & _). inversion Hi.
  - destruct IH as (s & Hs & Hmem).
    { intros i' Hi'. apply Hkeys, elem_of_cons. auto. }
    cbn [VertexCover.colored]. destruct (decide (x = 1)) as [-> | Hx].
    + destruct (Hkeys i) as [w Hw]; [apply elem_of_cons; auto|].
      rewrite Hw, Hs. exists ({[w]} ∪ s). split; [reflexivity|].
      intros v. rewrite elem_of_union, elem_of_singleton, Hmem. split.
      * intros [-> | (i' & Hi' & Hv)].
        -- exists i. split; [apply elem_of_cons; auto | exact Hw].
        -- exists i'. split; [apply elem_of_cons; auto | exact Hv].
      * intros (i' & Hi' & Hv). apply elem_of_cons in Hi' as [Heq | Hi'].
        -- injection Heq as ->. left. congruence.
        -- right. exists i'. auto.
    + exists s. split; [exact Hs|]. intros v. rewrite Hmem. split.
      * intros (i' & Hi' & Hv). exists i'.
        split; [apply elem_of_cons; auto | exact Hv].
      * intros (i' & Hi' & Hv). apply elem_of_cons in Hi' as [Heq | Hi'].
        -- injection Heq as -> Hone. congruence.
        -- exists i'. auto.
Qed.

Lemma colored_raises (self : VertexCover.t (vertex := vertex))
  (items : list (Z * Z)) :
  (exists i, (i, 1) ∈ items /\
             VertexCover._index_to_vertex self !! i = None) ->
  VertexCover.colored self items = inl (KeyError missing_key).
Proof.
  induction items as [|[i x] items IH]; intros (i0 & Hi0 & Hnone).
  - inversion Hi0.
  - cbn [VertexCover.colored]. destruct (decide (x = 1)) as [-> | Hx].
    + destruct (VertexCover._index_to_vertex self !! i) as [w|] eqn:Hw;
        [|reflexivity].
      apply elem_of_cons in Hi0 as [Heq | Hi0].
      * injection Heq as ->. congruence.
      * rewrite IH by eauto. reflexivity.
    + apply elem_of_cons in Hi0 as [Heq | Hi0].
      * injection Heq as -> Hone. congruence.
      * apply IH. eauto.
Qed.

(** X28: [convert_solution] reads only the variables with value [1].  If
    all of them are variables of the problem, it returns the set of the
    vertices whose variable has value [1]; if one of them is not, it
    raises [KeyError]. *)
Theorem VertexCover_convert_solution (edges : gset (vertex * vertex))
  (solution : solver_output) :
  let self := VertexCover.init edges in
  ((forall i, as_dict solution !! i = Some 1 ->
              0 <= i < VertexCover.num_binary_variables self) ->
   exists s,
     VertexCover.convert_solution self solution = inr s /\
     forall v, v ∈ s <->
               exists i, VertexCover._vertex_to_index self !! v = Some i /\
                         as_dict solution !! i = Some 1) /\
  ((exists i, as_dict solution !! i = Some 1 /\
              ~ 0 <= i < VertexCover.num_binary_variables self) ->
   VertexCover.convert_solution self solution = inl (KeyError missing_key)).
Proof.
  intros self.
  pose proof (NoDup_elements (endpoints edges)) as Hnd.
  assert (Hlook : forall v i,
            VertexCover._vertex_to_index self !! v = Some i <->
            0 <= i /\ elements (endpoints edges) !! Z.to_nat i = Some v).
  { intros v i. apply vertex_to_index_lookup, Hnd. }
  assert (Hinv : forall v i,
            VertexCover._index_to_vertex self !! i = Some v <->
            VertexCover._vertex_to_index self !! v = Some i).
  { intros v i. apply index_to_vertex_lookup.
    intros v1 v2 j. apply vertex_to_index_injective, Hnd. }
  assert (Hlen : VertexCover.num_binary_variables self =
                 Z.of_nat (length (elements (endpoints edges))))
    by reflexivity.
  unfold VertexCover.convert_solution. split.
  - intros Hrange.
    destruct (colored_returns self (map_to_list (as_dict solution)))
      as (s & Hs & Hmem).
    { intros i Hi. apply elem_of_map_to_list in Hi.
      destruct (Hrange i Hi) as [H0 HN]. rewrite Hlen in HN.
      destruct (lookup_lt_is_Some_2 (elements (endpoints edges))
                  (Z.to_nat i)) as [v Hv]; [lia|].
      exists v. apply Hinv, Hlook. split; [exact H0 | exact Hv]. }
    exists s. split; [exact Hs|]. intros v. rewrite Hmem. split.
    + intros (i & Hi & Hv). exists i. split; [apply Hinv, Hv|].
      apply elem_of_map_to_list. exact Hi.
    + intros (i & Hv & Hi). exists i. split; [|apply Hinv, Hv].
      apply elem_of_map_to_list. exact Hi.
  - intros (i & Hi & Hout). apply colored_raises. exists i.
    split; [apply elem_of_map_to_list; exact Hi|].
    destruct (VertexCover._index_to_vertex self !! i) as [v|] eqn:Hv;
      [|reflexivity].
    exfalso. apply Hout. apply Hinv, Hlook in Hv as [H0 Hv].
    apply lookup_lt_Some in Hv. rewrite Hlen. lia.
Qed.

End VertexCoverSolutions.

(** *** GraphPartitioning.to_ising *)

Section GraphPartitioningFacts.
Context {vertex : Type} `{Countable vertex}.

Lemma Q2Qc_of_nat_succ (k : nat) :
  Q2Qc (inject_Z (Z.of_nat (S k))) =
  (Q2Qc (inject_Z (Z.of_nat k)) + Q2Qc 1)%Qc.
Proof.
  apply Qc_is_canon. simpl. rewrite Nat2Z.inj_succ. unfold Z.succ.
  rewrite inject_Z_plus. rewrite !Qred_correct. reflexivity.
Qed.

Lemma Q2Qc_two : Q2Qc 2 = (Q2Qc 1 + Q2Qc 1)%Qc.
Proof. apply Qc_is_canon. reflexivity. Qed.

Lemma seqZ_succ (a : Z) (k : nat) :
  seqZ a (Z.of_nat (S k)) = a :: seqZ (a + 1) (Z.of_nat k).
Proof. rewrite seqZ_cons by lia. f_equal. f_equal; lia. Qed.

(** The sum over the pairs [i < j] of [2 * c * z[i] * z[j]], for spins. *)
Lemma pairs_total (z : Z -> Qc) (c : Qc) (N : Z) :
  (forall i, (z i * z i = Q2Qc 1)%Qc) ->
  forall (k : nat) (a : Z), a + Z.of_nat k = N ->
    total ((fun i => total ((fun j => (Q2Qc 2 * c) * (z i * z j))%Qc
                              <$> seqZ (i + 1) (N - (i + 1))))
             <$> seqZ a (Z.of_nat k)) =
    (c * (total (z <$> seqZ a (Z.of_nat k))
          * total (z <$> seqZ a (Z.of_nat k))
          - Q2Qc (inject_Z (Z.of_nat k))))%Qc.
Proof.
  intros Hz. induction k as [|k IH]; intros a Ha.
  - rewrite seqZ_nil by lia. rewrite !fmap_nil.
    change (total []) with (Q2Qc 0).
    change (Q2Qc (inject_Z (Z.of_nat 0))) with (Q2Qc 0). ring.
  - rewrite seqZ_succ, !fmap_cons, !total_cons.
    rewrite (IH (a + 1)) by lia.
    replace (N - (a + 1)) with (Z.of_nat k) by lia.
    rewrite (total_ext (fun j => (Q2Qc 2 * c) * (z a * z j))%Qc
                       (fun j => (Q2Qc 2 * c * z a) * z j)%Qc)
      by (intros j _; ring).
    rewrite total_scaled, Q2Qc_of_nat_succ.
    set (T := total (z <$> seqZ (a + 1) (Z.of_nat k))).
    set (K := Q2Qc (inject_Z (Z.of_nat k))).
    rewrite Q2Qc_two.
    transitivity (c * ((z a + T) * (z a + T) - (K + Q2Qc 1))
                  - c * (z a * z a - Q2Qc 1))%Qc; [ring|].
    rewrite Hz. ring.
Qed.

(** The sum over the edges of [- B / 2 * z[u] * z[v]], with half of [B]
    for every edge added. *)
Lemma edges_total {A : Type} (B : Qc) (g : A -> Qc) (l : list A) :
  (total ((fun e => - (B / Q2Qc 2 * g e))%Qc <$> l)
   + B * Q2Qc (inject_Z (Z.of_nat (length l))) / Q2Qc 2 =
   B * total ((fun e => (Q2Qc 1 - g e) / Q2Qc 2)%Qc <$> l))%Qc.
Proof.
  induction l as [|a l IH].
  - rewrite !fmap_nil. change (total []) with (Q2Qc 0).
    change (Q2Qc (inject_Z (Z.of_nat (length (@nil A))))) with (Q2Qc 0).
    field. discriminate.
  - rewrite !fmap_cons, !total_cons. cbn [length].
    rewrite Q2Qc_of_nat_succ.
    set (R := total ((fun e => (Q2Qc 1 - g e) / Q2Qc 2)%Qc <$> l)) in *.
    replace (B * ((Q2Qc 1 - g a) / Q2Qc 2 + R))%Qc
      with (B * (Q2Qc 1 - g a) / Q2Qc 2 + B * R)%Qc
      by (field; discriminate).
    rewrite <- IH. field. discriminate.
Qed.

Lemma init_returns (edges : gset (vertex * vertex))
  (self : GraphPartitioning.t) :
  GraphPartitioning.init edges = inr self ->
  GraphPartitioning._edges self = edges /\
  GraphPartitioning._vertex_to_index self =
    dict_of ((fun ix => (snd ix, fst ix))
               <$> enumerate (elements (endpoints edges))) /\
  GraphPartitioning._N self = Z.of_nat (size (endpoints edges)) /\
  GraphPartitioning._n self = Z.of_nat (size edges).
Proof.
  unfold GraphPartitioning.init.
  destruct (decide _); [|discriminate]. intros [= <-]. simpl. auto.
Qed.

(** The first loop of [to_ising]: every pair [i < j] is a key of an
    [IsingCoupling]. *)
Lemma to_ising_pairs (z : Z -> Qc) (A : Qc) (N : Z) (d : matrix Qc) :
  mcls d = IsingCoupling ->
  exists d',
    for_each (seqZ 0 N)
      (fun i =>
         for_each (seqZ (i + 1) (N - (i + 1)))
           (fun j => iadd_item (KTuple [i; j]) (Q2Qc 2 * A)%Qc)) d
    = (inr tt, d') /\
    mcls d' = IsingCoupling /\
    objective z d' =
    (objective z d
     + total ((fun i => total ((fun j => (Q2Qc 2 * A) * (z i * z j))%Qc
                                 <$> seqZ (i + 1) (N - (i + 1))))
                <$> seqZ 0 N))%Qc.
Proof.
  intros Hd.
  apply (for_each_objective z IsingCoupling (seqZ 0 N)
           (fun i =>
              for_each (seqZ (i + 1) (N - (i + 1)))
                (fun j => iadd_item (KTuple [i; j]) (Q2Qc 2 * A)%Qc))
           (fun i => total ((fun j => (Q2Qc 2 * A) * (z i * z j))%Qc
                              <$> seqZ (i + 1) (N - (i + 1)))));
    [|exact Hd].
  intros i d0 Hi Hd0.
  apply (for_each_objective z IsingCoupling (seqZ (i + 1) (N - (i + 1)))
           (fun j => iadd_item (KTuple [i; j]) (Q2Qc 2 * A)%Qc)
           (fun j => (Q2Qc 2 * A) * (z i * z j))%Qc);
    [|exact Hd0].
  intros j d1 Hj Hd1. apply elem_of_seqZ in Hi, Hj.
  destruct (iadd_item_objective z i j (Q2Qc 2 * A)%Qc d1)
    as (d' & Hd' & Hc' & Ho'); [rewrite Hd1; simpl; lia|].
  exists d'. split; [exact Hd'|]. split; [congruence | exact Ho'].
Qed.

(** The second loop of [to_ising] on a graph with no edge from a vertex
    to itself. *)
Lemma to_ising_edges (z : Z -> Qc) (edges : gset (vertex * vertex))
  (self : GraphPartitioning.t) (B : Qc) (d : matrix Qc) :
  GraphPartitioning.init edges = inr self ->
  (forall e, e ∈ edges -> fst e <> snd e) ->
  mcls d = IsingCoupling ->
  exists d',
    for_each (elements edges) (GraphPartitioning.encode_edge self B) d
    = (inr tt, d') /\
    mcls d' = IsingCoupling /\
    objective z d' =
    (objective z d
     + total ((fun e =>
                 - (B / Q2Qc 2
                    * (z (variable_of
                            (GraphPartitioning._vertex_to_index self) (fst e))
                       * z (variable_of
                              (GraphPartitioning._vertex_to_index self)
                              (snd e)))))
                <$> elements edges))%Qc.
Proof.
  intros Hinit Hloop Hd.
  destruct (init_returns edges self Hinit) as (_ & Hv2i & _ & _).
  apply (for_each_objective z IsingCoupling (elements edges)
           (GraphPartitioning.encode_edge self B)
           (fun e =>
              - (B / Q2Qc 2
                 * (z (variable_of
                         (GraphPartitioning._vertex_to_index self) (fst e))
                    * z (variable_of
                           (GraphPartitioning._vertex_to_index self)
                           (snd e)))))%Qc);
    [|exact Hd].
  intros e d0 He Hd0. apply elem_of_elements in He.
  destruct (ends_are_numbered edges e He) as (iu & iv & Hu & Hv & Hu0 & Hv0).
  assert (Huv : iu <> iv).
  { intros ->. apply (Hloop e He).
    exact (vertex_to_index_injective _ _ _ _
             (NoDup_elements (endpoints edges)) Hu Hv). }
  rewrite <- Hv2i in Hu, Hv.
  assert (Hgu : dict_get (S := matrix Qc)
                  (GraphPartitioning._vertex_to_index self) (fst e) d0
                = (inr iu, d0))
    by (unfold dict_get; rewrite Hu; reflexivity).
  assert (Hgv : dict_get (S := matrix Qc)
                  (GraphPartitioning._vertex_to_index self) (snd e) d0
                = (inr iv, d0))
    by (unfold dict_get; rewrite Hv; reflexivity).
  unfold variable_of. rewrite Hu, Hv. simpl default.
  unfold GraphPartitioning.encode_edge.
  rewrite (bind_ok _ _ _ _ _ Hgu), (bind_ok _ _ _ _ _ Hgv).
  destruct (isub_item_objective z iu iv (B / Q2Qc 2)%Qc d0)
    as (d' & Hd' & Hc' & Ho'); [rewrite Hd0; simpl; lia|].
  exists d'. split; [exact Hd'|]. split; [congruence|].
  rewrite Ho'. ring.
Qed.

(** The second loop of [to_ising] raises at the first edge from a vertex
    to itself. *)
Lemma to_ising_edges_raise (edges : gset (vertex * vertex))
  (self : GraphPartitioning.t) (B : Qc) (l : list (vertex * vertex)) :
  GraphPartitioning.init edges = inr self ->
  (forall e, e ∈ l -> e ∈ edges) ->
  Exists (fun e => fst e = snd e) l ->
  forall d, mcls d = IsingCoupling ->
    exists d',
      for_each l (GraphPartitioning.encode_edge self B) d
      = (inl (KeyError
                "Key formatted incorrectly, must be tuple of two different integers"),
         d').
Proof.
  intros Hinit.
  destruct (init_returns edges self Hinit) as (_ & Hv2i & _ & _).
  induction l as [|e l IH]; intros Hin Hex d Hd; [inversion Hex|].
  assert (He : e ∈ edges) by (apply Hin, elem_of_cons; auto).
  destruct (ends_are_numbered edges e He) as (iu & iv & Hu & Hv & Hu0 & Hv0).
  rewrite <- Hv2i in Hu, Hv.
  assert (Hgu : dict_get (S := matrix Qc)
                  (GraphPartitioning._vertex_to_index self) (fst e) d
                = (inr iu, d))
    by (unfold dict_get; rewrite Hu; reflexivity).
  assert (Hgv : dict_get (S := matrix Qc)
                  (GraphPartitioning._vertex_to_index self) (snd e) d
                = (inr iv, d))
    by (unfold dict_get; rewrite Hv; reflexivity).
  cbn [for_each]. rewrite bind_unfold.
  unfold GraphPartitioning.encode_edge at 1.
  rewrite (bind_ok _ _ _ _ _ Hgu), (bind_ok _ _ _ _ _ Hgv).
  destruct (decide (fst e = snd e)) as [Heq | Hne].
  - assert (iu = iv) as -> by congruence.
    exists d. unfold isub_item, setitem. rewrite Hd.
    unfold IsingCoupling_setitem.
    rewrite bool_decide_eq_true_2 by reflexivity. reflexivity.
  - assert (Huv : iu <> iv).
    { intros ->. apply Hne. rewrite Hv2i in Hu, Hv.
      exact (vertex_to_index_injective _ _ _ _
               (NoDup_elements (endpoints edges)) Hu Hv). }
    destruct (isub_item_objective (fun _ => Q2Qc 0) iu iv
                (B / Q2Qc 2)%Qc d)
      as (d1 & Hd1 & Hc1 & _); [rewrite Hd; simpl; lia|].
    rewrite Hd1. apply IH.
    + intros e' He'. apply Hin, elem_of_cons. auto.
    + apply Exists_cons in Hex as [Hex | Hex]; [contradiction | exact Hex].
    + congruence.
Qed.

(** X29: on a graph with an edge from a vertex to itself, [to_ising]
    raises the [KeyError] of [IsingCoupling.__setitem__], whatever [A]
    and [B] are. *)
Theorem GraphPartitioning_to_ising_self_loop
  (edges : gset (vertex * vertex)) (self : GraphPartitioning.t)
  (A : option Qc) (B : Qc) :
  GraphPartitioning.init edges = inr self ->
  (exists e, e ∈ edges /\ fst e = snd e) ->
  GraphPartitioning.to_ising self A B =
  inl (KeyError
         "Key formatted incorrectly, must be tuple of two different integers").
Proof.
  intros Hinit (e & He & Hloop).
  destruct (init_returns edges self Hinit) as (Hedges & _ & _ & _).
  unfold GraphPartitioning.to_ising.
  change (matrix_init IsingField [])
    with (inr {| mcls := IsingField; entries := ∅ |} : result (matrix Qc)).
  change (matrix_init IsingCoupling [])
    with (inr {| mcls := IsingCoupling; entries := ∅ |}
            : result (matrix Qc)).
  unfold rbind.
  match goal with
  | |- context [for_each (seqZ 0 ?N) ?body] =>
      destruct (to_ising_pairs (fun _ => Q2Qc 0)
                  (match A with
                   | Some a => a
                   | None =>
                       (Q2Qc (inject_Z
                                (Z.min (2 * GraphPartitioning._degree self)
                                       (GraphPartitioning._N self)))
                        * B / Q2Qc 8)%Qc
                   end)
                  N {| mcls := IsingCoupling; entries := ∅ |})
        as (J1 & Hrun1 & Hc1 & _); [reflexivity|]
  end.
  destruct (to_ising_edges_raise edges self B (elements edges) Hinit)
    with (d := J1) as (J2 & Hrun2); [| |exact Hc1|].
  { intros e' He'. apply elem_of_elements. exact He'. }
  { apply Exists_exists. exists e. split; [|exact Hloop].
    apply elem_of_elements. exact He. }
  rewrite (bind_ok _ _ _ _ _ Hrun1), Hedges, Hrun2. reflexivity.
Qed.

(** X30: on a graph with no edge from a vertex to itself, [to_ising]
    returns an empty field [h], a coupling [J] and the offset
    [A * N + B * n / 2]; for spins [z] the objective of [J] plus the
    offset is [A] times the square of the sum of the spins plus [B] times
    the sum, over the edges, of [(1 - z[u] * z[v]) / 2] (one for an edge
    between the two parts, else zero). *)
Theorem GraphPartitioning_to_ising_value
  (edges : gset (vertex * vertex)) (self : GraphPartitioning.t)
  (A : option Qc) (B : Qc) :
  GraphPartitioning.init edges = inr self ->
  (forall e, e ∈ edges -> fst e <> snd e) ->
  let var := variable_of (GraphPartitioning._vertex_to_index self) in
  let A' :=
    match A with
    | Some a => a
    | None =>
        (Q2Qc (inject_Z (Z.min (2 * GraphPartitioning._degree self)
                               (GraphPartitioning._N self)))
         * B / Q2Qc 8)%Qc
    end in
  let offset :=
    (A' * Q2Qc (inject_Z (GraphPartitioning._N self))
     + B * Q2Qc (inject_Z (GraphPartitioning._n self)) / Q2Qc 2)%Qc in
  exists h J,
    GraphPartitioning.to_ising self A B = inr (h, J, offset) /\
    entries h = ∅ /\
    forall z : Z -> Qc,
      (forall i, z i = Q2Qc 1 \/ z i = (- Q2Qc 1)%Qc) ->
      (objective z J + offset =
       A' * (total (z <$> seqZ 0 (GraphPartitioning._N self))
             * total (z <$> seqZ 0 (GraphPartitioning._N self)))
       + B * total ((fun e => (Q2Qc 1 - z (var (fst e)) * z (var (snd e)))
                              / Q2Qc 2)
                      <$> elements edges))%Qc.
Proof.
  intros Hinit Hloop var A' offset.
  destruct (init_returns edges self Hinit) as (Hedges & _ & HN & Hn).
  assert (Hruns : forall z : Z -> Qc,
    exists J,
      (for_each (seqZ 0 (GraphPartitioning._N self))
         (fun i =>
            for_each (seqZ (i + 1) (GraphPartitioning._N self - (i + 1)))
              (fun j => iadd_item (KTuple [i; j]) (Q2Qc 2 * A')%Qc));;
       for_each (elements (GraphPartitioning._edges self))
         (GraphPartitioning.encode_edge self B))
        {| mcls := IsingCoupling; entries := ∅ |} = (inr tt, J) /\
      objective z J =
      (total ((fun i =>
                 total ((fun j => (Q2Qc 2 * A') * (z i * z j))%Qc
                          <$> seqZ (i + 1)
                                (GraphPartitioning._N self - (i + 1))))
                <$> seqZ 0 (GraphPartitioning._N self))
       + total ((fun e => - (B / Q2Qc 2
                             * (z (var (fst e)) * z (var (snd e)))))%Qc
                  <$> elements edges))%Qc).
  { intros z.
    destruct (to_ising_pairs z A' (GraphPartitioning._N self)
                {| mcls := IsingCoupling; entries := ∅ |})
      as (J1 & Hrun1 & Hc1 & Ho1); [reflexivity|].
    destruct (to_ising_edges z edges self B J1 Hinit Hloop Hc1)
      as (J2 & Hrun2 & _ & Ho2).
    exists J2. split.
    - rewrite (bind_ok _ _ _ _ _ Hrun1), Hedges. exact Hrun2.
    - rewrite Ho2, Ho1.
      assert (H0 : objective z {| mcls := IsingCoupling; entries := ∅ |}
                   = Q2Qc 0) by reflexivity.
      rewrite H0. unfold var. ring. }
  destruct (Hruns (fun _ => Q2Qc 0)) as (J & Hrun & _).
  exists {| mcls := IsingField; entries := ∅ |}, J.
  split; [|split; [reflexivity|]].
  { unfold GraphPartitioning.to_ising.
    change (matrix_init IsingField [])
      with (inr {| mcls := IsingField; entries := ∅ |}
              : result (matrix Qc)).
    change (matrix_init IsingCoupling [])
      with (inr {| mcls := IsingCoupling; entries := ∅ |}
              : result (matrix Qc)).
    unfold rbind. cbv zeta. fold A'. rewrite Hrun. reflexivity. }
  intros z Hz.
  destruct (Hruns z) as (J' & Hrun' & Hobj).
  rewrite Hrun in Hrun'. injection Hrun' as <-.
  assert (Hsq : forall i, (z i * z i = Q2Qc 1)%Qc).
  { intros i. destruct (Hz i) as [-> | ->]; ring. }
  rewrite Hobj. unfold offset. rewrite HN, Hn.
  rewrite (pairs_total z A' (Z.of_nat (size (endpoints edges))) Hsq
             (size (endpoints edges)) 0) by lia.
  change (size edges) with (length (elements edges)).
  rewrite <- (edges_total B
                (fun e => z (var (fst e)) * z (var (snd e)))%Qc
                (elements edges)).
  ring.
Qed.

End GraphPartitioningFacts.

(** ** Concrete runs *)

Lemma schedule_update_refines_single_updates_witness :
  Forall (fun phase : Qc * Z => 0 <= snd phase)
         [(Q2Qc 2, 2); (Q2Qc 1, 0); (Q2Qc 0, 1)] /\
  schedule_update [(Q2Qc 2, 2); (Q2Qc 1, 0); (Q2Qc 0, 1)] (Some 11)
                  (chain_world 2 7) =
  schedule_as_single_updates [(Q2Qc 2, 2); (Q2Qc 1, 0); (Q2Qc 0, 1)]
                             (Some 11) (chain_world 2 7).
Proof.
  assert (Hs : Forall (fun phase : Qc * Z => 0 <= snd phase)
                      [(Q2Qc 2, 2); (Q2Qc 1, 0); (Q2Qc 0, 1)]).
  { repeat constructor; simpl; lia. }
  split; [exact Hs|].
  apply (schedule_update_refines_single_updates _ _ _ Hs).
Defined.

Lemma update_negative_count_raises_after_seeding_witness :
  -1 < 0 /\
  update (Q2Qc 1) (-1) (Some 5) (chain_world 1 7) =
  (inl (ValueError "Cannot update a negative number of times"),
   {| self_ := chain_sim 1; random_ := random_seed (RandomSource := lcg) 5 |}).
Proof.
  split; [lia|].
  apply (update_negative_count_raises_after_seeding
           (Q2Qc 1) (-1) (Some 5) (chain_world 1 7)).
  lia.
Defined.

(** C6, counterexample: [update(1, -1, seed=5)] fails, and the random
    state, [7] before the call, is the seeded one afterwards. *)
Lemma update_negative_count_reseeds :
  fst (update (Q2Qc 1) (-1) (Some 5) (chain_world 1 7)) =
    inl (ValueError "Cannot update a negative number of times") /\
  random_ (snd (update (Q2Qc 1) (-1) (Some 5) (chain_world 1 7))) <>
    random_ (chain_world 1 7).
Proof.
  split; [reflexivity|]. vm_compute. discriminate.
Qed.

Lemma memory_zero_get_past_states_witness :
  SpinSimulation_init SpinSimulation chain None 0 = inr (chain_sim 0) /\
  get_past_states None
    (self_ (run_calls [CallUpdate (Q2Qc 1) 3 (Some 5);
                       CallScheduleUpdate [(Q2Qc 0, 2)] None]
                      (chain_world 0 7))) =
  [state (self_ (run_calls [CallUpdate (Q2Qc 1) 3 (Some 5);
                            CallScheduleUpdate [(Q2Qc 0, 2)] None]
                           (chain_world 0 7)))].
Proof.
  assert (Hinit : SpinSimulation_init SpinSimulation chain None 0 =
                  inr (chain_sim 0)) by (vm_compute; reflexivity).
  split; [exact Hinit|].
  apply (memory_zero_get_past_states (R := lcg) SpinSimulation chain None
           (chain_sim 0) 7 _ Hinit).
Defined.

(** C1, failing input: [SpinSimulation(chain, memory=2)] after
    [update(1, 3, seed=5)] holds two snapshots, and [get_past_states()]
    returns only the more recent one, followed by the current state: two
    elements where [memory + 1 = 3] are available. *)
Theorem get_past_states_omits_oldest_snapshot :
  let s := self_ (snd (update (Q2Qc 1) 3 (Some 5) (chain_world 2 7))) in
  Z.of_nat (length (_past_states s)) = _memory s /\
  _memory s = 2 /\
  get_past_states None s = drop 1 (_past_states s) ++ [state s] /\
  length (get_past_states None s) = 2%nat.
Proof.
  vm_compute. repeat split; reflexivity.
Qed.

(** C5, failing input: on [SpinSimulation(chain)], whose state is all [1],
    [set_state({0: 2, 1: 1, 2: 1})] raises the [ValueError] and leaves the
    rejected assignment in [_state]. *)
Theorem SpinSimulation_set_state_assigns_before_raising :
  let bad : gmap nat Z := {[ 0%nat := 2; 1%nat := 1; 2%nat := 1 ]} in
  fst (set_state bad (chain_sim 0)) =
    inl (ValueError "State must contain only 1's and -1's") /\
  _state (chain_sim 0) !! 0%nat = Some 1 /\
  _state (snd (set_state bad (chain_sim 0))) !! 0%nat = Some 2.
Proof.
  vm_compute. repeat split; reflexivity.
Qed.

(** C4, counterexample: [update(-1, seed=5)] on
    [SpinSimulation(chain, memory=1)], whose state is all [1], returns
    normally and has stored a snapshot; each of the three candidates of
    the sweep is flipped, so the product of the three spins, [1] before,
    is [-1] afterwards and the state has changed. *)
Lemma update_negative_temperature_runs :
  let w := chain_world 1 7 in
  let w' := snd (update (Q2Qc (-1)) 1 (Some 5) w) in
  fst (update (Q2Qc (-1)) 1 (Some 5) w) = inr tt /\
  length (_past_states (self_ w)) = 0%nat /\
  length (_past_states (self_ w')) = 1%nat /\
  product_of (_state (self_ w)) [0; 1; 2]%nat = 1 /\
  product_of (_state (self_ w')) [0; 1; 2]%nat = -1 /\
  _state (self_ w') <> _state (self_ w).
Proof.
  vm_compute. repeat split; try reflexivity. discriminate.
Qed.

Lemma lcg_choices_elem {A : Type} (g : Z) (pop : list A) (k : nat) (x : A) :
  x ∈ fst (lcg_choices g pop k) -> x ∈ pop.
Proof.
  revert g. induction k as [|k IH]; intros g; simpl.
  - intros Hx. inversion Hx.
  - destruct (pop !! _) as [y|] eqn:Hy; [|intros Hx; inversion Hx].
    specialize (IH (lcg_next g)).
    destruct (lcg_choices (lcg_next g) pop k) as [xs g'']. simpl in *.
    intros Hx. apply elem_of_cons in Hx as [->|Hx]; [|exact (IH Hx)].
    apply list_elem_of_lookup. eauto.
Qed.

Global Instance lcg_laws : RandomSourceLaws lcg.
Proof. constructor. intros A g pop k x. apply lcg_choices_elem. Qed.

Global Instance lcg_metropolis : MetropolisLaws lcg.
Proof.
  constructor. intros u dE T HdE HT. cbn [lt_exp lcg].
  unfold Qccompare. rewrite (proj1 (Qlt_alt _ _) HT).
  rewrite (proj2 (Z.ltb_lt 0 dE) HdE). reflexivity.
Qed.

Lemma delta_E_is_energy_difference_witness :
  exists dE before after s',
    delta_E 1%nat (chain_sim 0) = (inr dE, chain_sim 0) /\
    puso_value (_state (chain_sim 0)) (model_items chain) = Some before /\
    _flip_bit 1%nat (chain_sim 0) = (inr tt, s') /\
    puso_value (_state s') (model_items chain) = Some after /\
    dE = after - before.
Proof.
  apply (delta_E_is_energy_difference (model_items chain) (chain_sim 0) 1%nat).
  - unfold distinct_labels. compute_done.
  - vm_compute. reflexivity.
  - unfold total_on. compute_done.
  - compute_done.
Defined.



(** C2, counterexample: on [SpinSimulation({(0,): 0.5, (1,): 1e17})],
    whose state is all [1], the [dE] computed for variable [0] is
    [-2 * 0.5 = -1.0], while the energy of the whole model is [1e17]
    before and after the flip (the sum of [0.5] or [-0.5] and [1e17]
    rounds to [1e17]): the difference is [0.0]. *)
Theorem delta_E_differs_from_float_energy_difference :
  let s := float_fields_sim in
  let s' := snd (_flip_bit 0%nat s) in
  distinct_labels (model_items float_fields) /\
  total_on (_variables s) (_state s) /\
  build_subgraphs (_variables s) (model_items float_fields)
  = inr (_subgraphs s) /\
  _state s !! 0%nat = Some 1 /\ _state s !! 1%nat = Some 1 /\
  delta_E 0%nat s = (inr (-1)%float, s) /\
  puso_value (_state s) (model_items float_fields) = Some 1e17%float /\
  fst (_flip_bit 0%nat s) = inr tt /\
  puso_value (_state s') (model_items float_fields) = Some 1e17%float /\
  PrimFloat.sub 1e17 1e17 = 0%float /\
  PrimFloat.eqb (-1) 0 = false.
Proof.
  split; [unfold distinct_labels; compute_done|].
  split; [unfold total_on; compute_done|].
  vm_compute. repeat split; reflexivity.
Qed.

Lemma negative_temperature_is_not_rejected_witness :
  fst (update (Q2Qc (-1)) 2 (Some 5) (chain_world 1 7)) = inr tt /\
  fst (delta_E 1%nat (chain_sim 1)) = inr 4 /\
  exists v,
    _state (chain_sim 1) !! 1%nat = Some v /\
    fst (candidate (Q2Qc (-1)) 1%nat (chain_world 1 7)) = inr tt /\
    _state (self_ (snd (candidate (Q2Qc (-1)) 1%nat (chain_world 1 7)))) =
    <[1%nat := v * -1]> (_state (chain_sim 1)).
Proof.
  assert (Hinit : SpinSimulation_init SpinSimulation chain None 1 =
                  inr (chain_sim 1)) by (vm_compute; reflexivity).
  pose proof (negative_temperature_is_not_rejected (R := lcg)
                SpinSimulation chain None 1 (chain_sim 1) 7 [] Hinit)
    as (Hupdate & _ & _ & Hflip).
  split; [apply Hupdate; [reflexivity | lia]|].
  split; [vm_compute; reflexivity|].
  apply (Hflip (Q2Qc (-1)) 1%nat); [reflexivity|].
  apply elem_of_cons. right. apply elem_of_cons. left. reflexivity.
Defined.

Lemma matrix_no_zero_and_order_independent_witness :
  matrix_init (V := Qc) IsingCoupling
    [(KTuple [0; 1], Q2Qc 1); (KTuple [1; 0], Q2Qc 2)] =
    inr {| mcls := IsingCoupling;
           entries := {[ KTuple [0; 1] := Q2Qc 3 ]} |} /\
  getitem (KTuple [1; 0])
          (run [IAdd [(KTuple [2; 0], Q2Qc 5)]; IMul (Q2Qc 0);
                SetItem (KTuple [3; 1]) (Q2Qc 4); TrueDiv (Q2Qc 0)]
               {| mcls := IsingCoupling;
                  entries := {[ KTuple [0; 1] := Q2Qc 3 ]} |}) =
  getitem (KTuple [0; 1])
          (run [IAdd [(KTuple [2; 0], Q2Qc 5)]; IMul (Q2Qc 0);
                SetItem (KTuple [3; 1]) (Q2Qc 4); TrueDiv (Q2Qc 0)]
               {| mcls := IsingCoupling;
                  entries := {[ KTuple [0; 1] := Q2Qc 3 ]} |}).
Proof.
  assert (Hinit : matrix_init (V := Qc) IsingCoupling
                    [(KTuple [0; 1], Q2Qc 1); (KTuple [1; 0], Q2Qc 2)] =
                  inr {| mcls := IsingCoupling;
                         entries := {[ KTuple [0; 1] := Q2Qc 3 ]} |})
    by (vm_compute; reflexivity).
  split; [exact Hinit|].
  apply (proj1 (proj2 (matrix_no_zero_and_order_independent
                         IsingCoupling _ _ _ Hinit)) [1; 0] [0; 1]).
  apply Permutation_swap.
Defined.

(** The example of the docstrings: [{(0, 1): 1, (1, 0): 2}] gives the one
    entry [(0, 1): 3]. *)
Lemma matrix_init_accumulates_witness :
  exists d,
    matrix_init (V := Qc) QUBOMatrix
      [(KTuple [0; 1], Q2Qc 1); (KTuple [1; 0], Q2Qc 2)] = inr d /\
    map_to_list (entries d) = [(KTuple [0; 1], Q2Qc 3)].
Proof.
  assert (Hnd : NoDup ([(KTuple [0; 1], Q2Qc 1);
                        (KTuple [1; 0], Q2Qc 2)].*1)) by compute_done.
  assert (Hwf : Forall (fun kv : pykey * Qc => well_formed QUBOMatrix (fst kv))
                       [(KTuple [0; 1], Q2Qc 1); (KTuple [1; 0], Q2Qc 2)]).
  { repeat constructor; simpl; lia. }
  destruct (matrix_init_accumulates QUBOMatrix _ Hnd Hwf)
    as (d & Hd & _).
  exists d. split; [exact Hd|].
  vm_compute in Hd. injection Hd as <-. vm_compute. reflexivity.
Defined.

(** ** Concrete runs of the life cycle *)

Lemma chain_variables (mem : Z) :
  _variables (chain_sim mem) = [2; 1; 0]%nat.
Proof. vm_compute. reflexivity. Qed.

Lemma chain_constructed (mem : Z) :
  SpinSimulation_init SpinSimulation chain None mem = inr (chain_sim mem).
Proof. vm_compute. reflexivity. Qed.

Lemma set_state_ignores_other_labels_witness :
  set_state ({[ 0%nat := 1; 1%nat := -1; 2%nat := 1 ]} : gmap nat Z)
            (chain_sim 0) =
  set_state ({[ 0%nat := 1; 1%nat := -1; 2%nat := 1; 5%nat := 7 ]}
               : gmap nat Z)
            (chain_sim 0).
Proof.
  apply set_state_ignores_other_labels.
  intros v Hv. rewrite chain_variables in Hv.
  rewrite !elem_of_cons, elem_of_nil in Hv.
  destruct Hv as [-> | [-> | [-> | []]]]; vm_compute; reflexivity.
Defined.

Lemma set_state_missing_variable_witness :
  set_state ({[ 0%nat := 1; 1%nat := 1 ]} : gmap nat Z) (chain_sim 0) =
  (inl (KeyError missing_key), chain_sim 0).
Proof.
  apply (set_state_missing_variable _ _ 2%nat).
  - rewrite chain_variables. apply elem_of_cons. left. reflexivity.
  - vm_compute. reflexivity.
Defined.

Lemma SpinSimulation_set_state_accepts_witness :
  fst (set_state ({[ 0%nat := 1; 1%nat := -1; 2%nat := 1 ]} : gmap nat Z)
                 (chain_sim 0)) = inr tt <->
  (forall v, v ∈ _variables (chain_sim 0) ->
             ({[ 0%nat := 1; 1%nat := -1; 2%nat := 1 ]} : gmap nat Z) !! v
             = Some 1 \/
             ({[ 0%nat := 1; 1%nat := -1; 2%nat := 1 ]} : gmap nat Z) !! v
             = Some (-1)).
Proof.
  apply (proj1 (SpinSimulation_set_state_accepts
                  ({[ 0%nat := 1; 1%nat := -1; 2%nat := 1 ]} : gmap nat Z)
                  (chain_sim 0) eq_refl)).
Defined.

Lemma reset_restores_constructed_witness :
  on_self reset
    (run_calls [CallUpdate (Q2Qc 1) 3 (Some 5); CallSetState ∅]
               (chain_world 1 7)) =
  (inr tt,
   {| self_ := chain_sim 1;
      random_ :=
        random_ (run_calls [CallUpdate (Q2Qc 1) 3 (Some 5); CallSetState ∅]
                           (chain_world 1 7)) |}).
Proof.
  apply (reset_restores_constructed (R := lcg) SpinSimulation chain None 1
           (chain_sim 1) 7 _ (chain_constructed 1)).
Defined.

Lemma history_is_bounded_witness :
  Z.of_nat
    (length (_past_states
               (self_ (run_calls [CallUpdate (Q2Qc 1) 5 (Some 5)]
                                 (chain_world 2 7)))))
  <= Z.max 0 2.
Proof.
  apply (history_is_bounded (R := lcg) SpinSimulation chain None 2
           (chain_sim 2) 7 _ (chain_constructed 2)).
Defined.

Lemma update_records_previous_state_witness :
  get_past_states (Some 2)
    (self_ (snd (update (Q2Qc 1) 1 (Some 5) (chain_world 1 7)))) =
  [state (self_ (chain_world 1 7));
   state (self_ (snd (update (Q2Qc 1) 1 (Some 5) (chain_world 1 7))))].
Proof.
  apply (update_records_previous_state (R := lcg) (Q2Qc 1) (Some 5)
           (chain_world 1 7)).
  change (1 <= 1). lia.
Defined.

Lemma update_keeps_spin_domain_witness :
  _state (self_ (run_calls [CallUpdate (Q2Qc 1) 3 (Some 5); CallReset;
                            CallScheduleUpdate [(Q2Qc 2, 2)] None]
                           (chain_world 1 7))) !! 2%nat = Some (-1) /\
  (-1 = 1 \/ -1 = -1).
Proof.
  assert (Hv : _state (self_ (run_calls
                 [CallUpdate (Q2Qc 1) 3 (Some 5); CallReset;
                  CallScheduleUpdate [(Q2Qc 2, 2)] None]
                 (chain_world 1 7))) !! 2%nat = Some (-1))
    by (vm_compute; reflexivity).
  split; [exact Hv|].
  apply (update_keeps_spin_domain (R := lcg) chain None 1 (chain_sim 1) 7
           [CallUpdate (Q2Qc 1) 3 (Some 5); CallReset;
            CallScheduleUpdate [(Q2Qc 2, 2)] None]
           (chain_constructed 1)
           ltac:(repeat constructor) 2%nat (-1) Hv).
Defined.

Lemma zero_temperature_keeps_local_minimum_witness :
  _state (self_ (snd (update (Q2Qc 0) 4 (Some 3) (chain_world 0 7)))) =
  _state (self_ (chain_world 0 7)).
Proof.
  apply (zero_temperature_keeps_local_minimum (R := lcg) 4 (Some 3)
           (chain_world 0 7)).
  intros i dE. change (self_ (chain_world 0 7)) with (chain_sim 0).
  rewrite (delta_E_indexed (model_items chain) (chain_sim 0) i
             (init_indexes _ _ _ _ _ (chain_constructed 0))).
  rewrite chain_variables.
  destruct (decide (i ∈ [2; 1; 0]%nat)) as [Hi|]; [|discriminate].
  rewrite !elem_of_cons, elem_of_nil in Hi.
  destruct Hi as [-> | [-> | [-> | []]]]; vm_compute; intros [= <-];
    reflexivity.
Defined.

Lemma update_splits_witness :
  update (Q2Qc 1) (2 + 1) None (chain_world 1 7) =
  (update (Q2Qc 1) 2 None;; update (Q2Qc 1) 1 None) (chain_world 1 7).
Proof. apply (update_splits (R := lcg)); lia. Defined.

Lemma get_past_states_nonpositive_witness :
  get_past_states (Some (-1))
    (self_ (snd (update (Q2Qc 1) 3 (Some 5) (chain_world 3 7)))) =
  drop (Z.to_nat (1 - -1))
       (_past_states
          (self_ (snd (update (Q2Qc 1) 3 (Some 5) (chain_world 3 7)))))
  ++ [state (self_ (snd (update (Q2Qc 1) 3 (Some 5) (chain_world 3 7))))].
Proof. apply get_past_states_nonpositive. lia. Defined.

Lemma construction_rejects_unassigned_label_witness :
  exists e,
    SpinSimulation_init SpinSimulation
      {| model_items := {[ [0; 1]%nat := -1 ]}; model_variables := None |}
      (Some {[ 0%nat := 1 ]}) 0 = inl e.
Proof.
  apply (construction_rejects_unassigned_label SpinSimulation
           {[ [0; 1]%nat := -1 ]} {[ 0%nat := 1 ]} 0 [0; 1]%nat (-1) 1%nat).
  - vm_compute. reflexivity.
  - apply elem_of_cons. right. apply elem_of_cons. left. reflexivity.
  - vm_compute. reflexivity.
Defined.

(** ** Concrete runs of the containers *)

Lemma coupling_constructed :
  matrix_init (V := Qc) IsingCoupling
    [(KTuple [0; 1], Q2Qc 1); (KTuple [1; 0], Q2Qc 2)] =
  inr {| mcls := IsingCoupling; entries := {[ KTuple [0; 1] := Q2Qc 3 ]} |}.
Proof. vm_compute. reflexivity. Qed.

Lemma setitem_then_getitem_witness :
  getitem (KTuple [0; 1])
    (snd (setitem (KTuple [1; 0]) (Q2Qc 3)
            ({| mcls := QUBOMatrix; entries := ∅ |} : matrix Qc))) =
  if decide (sorted_key (KTuple [0; 1]) = sorted_key (KTuple [1; 0]))
  then (if truthy (Q2Qc 3) then Q2Qc 3 else zero)
  else getitem (KTuple [0; 1])
         ({| mcls := QUBOMatrix; entries := ∅ |} : matrix Qc).
Proof. apply (setitem_then_getitem (V := Qc)). simpl. lia. Defined.

Lemma stored_keys_are_sorted_witness :
  mcls (run [IAdd [(KTuple [2; 0], Q2Qc 5)]; IMul (Q2Qc 2);
             SetItem (KTuple [3; 1]) (Q2Qc 4)]
            {| mcls := IsingCoupling;
               entries := {[ KTuple [0; 1] := Q2Qc 3 ]} |}) = IsingCoupling /\
  forall k v,
    entries (run [IAdd [(KTuple [2; 0], Q2Qc 5)]; IMul (Q2Qc 2);
                  SetItem (KTuple [3; 1]) (Q2Qc 4)]
                 {| mcls := IsingCoupling;
                    entries := {[ KTuple [0; 1] := Q2Qc 3 ]} |}) !! k
    = Some v ->
    well_formed IsingCoupling k /\ sorted_key k = k /\
    (forall a b, k = KTuple [a; b] -> a <= b).
Proof.
  apply (stored_keys_are_sorted (V := Qc) IsingCoupling _ _ _
           coupling_constructed).
Defined.

Lemma iadd_isub_accumulate_witness :
  exists d',
    iadd [(KTuple [1; 0], Q2Qc 2); (KTuple [0; 1], Q2Qc 5)]
         ({| mcls := QUBOMatrix;
             entries := {[ KTuple [0; 1] := Q2Qc 3 ]} |} : matrix Qc)
    = (inr tt, d') /\
    forall key,
      getitem key d' =
      foldl add
        (getitem key
           ({| mcls := QUBOMatrix;
               entries := {[ KTuple [0; 1] := Q2Qc 3 ]} |} : matrix Qc))
        (snd <$> filter (fun kv => sorted_key (fst kv) = sorted_key key)
                        [(KTuple [1; 0], Q2Qc 2); (KTuple [0; 1], Q2Qc 5)]).
Proof.
  apply (proj1 (iadd_isub_accumulate (V := Qc)
                  [(KTuple [1; 0], Q2Qc 2); (KTuple [0; 1], Q2Qc 5)]
                  {| mcls := QUBOMatrix;
                     entries := {[ KTuple [0; 1] := Q2Qc 3 ]} |}
                  ltac:(repeat constructor; simpl; lia))).
Defined.

Lemma copy_returns_equal_container_witness :
  copy (run [IAdd [(KTuple [2; 0], Q2Qc 5)]; IMul (Q2Qc 2)]
            ({| mcls := IsingCoupling;
                entries := {[ KTuple [0; 1] := Q2Qc 3 ]} |} : matrix Qc)) =
  inr (run [IAdd [(KTuple [2; 0], Q2Qc 5)]; IMul (Q2Qc 2)]
           {| mcls := IsingCoupling;
              entries := {[ KTuple [0; 1] := Q2Qc 3 ]} |}).
Proof.
  apply (copy_returns_equal_container (V := Qc) IsingCoupling
           [(KTuple [0; 1], Q2Qc 1); (KTuple [1; 0], Q2Qc 2)]).
  - intros v. change (Q2Qc 0 + v = v)%Qc. ring.
  - exact coupling_constructed.
Defined.

Lemma imul_scales_entries_witness :
  exists d',
    imul (Q2Qc 0)
      (run [IAdd [(KTuple [2; 0], Q2Qc 5)]]
           ({| mcls := IsingCoupling;
               entries := {[ KTuple [0; 1] := Q2Qc 3 ]} |} : matrix Qc))
    = (inr tt, d') /\
    mcls d' = IsingCoupling /\
    forall k,
      entries d' !! k =
      match entries (run [IAdd [(KTuple [2; 0], Q2Qc 5)]]
                         ({| mcls := IsingCoupling;
                             entries := {[ KTuple [0; 1] := Q2Qc 3 ]} |}
                            : matrix Qc)) !! k with
      | Some v => if truthy (mul v (Q2Qc 0)) then Some (mul v (Q2Qc 0))
                  else None
      | None => None
      end.
Proof.
  apply (imul_scales_entries (V := Qc) IsingCoupling _ _ _ (Q2Qc 0)
           coupling_constructed).
Defined.

Lemma itruediv_by_zero_witness :
  itruediv (Q2Qc 0)
    ({| mcls := QUBOMatrix;
        entries := {[ KTuple [0; 1] := Q2Qc 3 ]} |} : matrix Qc) =
  (if decide (({[ KTuple [0; 1] := Q2Qc 3 ]} : gmap pykey Qc) = ∅)
   then inr tt else inl ZeroDivisionError,
   {| mcls := QUBOMatrix; entries := {[ KTuple [0; 1] := Q2Qc 3 ]} |}).
Proof.
  apply (itruediv_by_zero (V := Qc) (Q2Qc 0) ZeroDivisionError).
  intros v. reflexivity.
Defined.

(** ** Concrete runs of the block parser *)

Lemma next_block_returns_first_block_witness :
  next_block
    (["a"; "b"] ++ ("(" :: (["c"; "("; "d"; ")"; "e"]
                            ++ (")" :: ["f"; "("; "g"; ")"]))))%char
    "(" ")" =
  inr (Some (["c"; "("; "d"; ")"; "e"]%char,
             (length ["c"; "("; "d"; ")"; "e"]%char + 1)%nat)).
Proof.
  apply next_block_returns_first_block.
  - discriminate.
  - rewrite !not_elem_of_cons. repeat split; try discriminate.
    apply not_elem_of_nil.
  - apply balanced_char; [discriminate | discriminate |].
    apply (balanced_block _ _ ["d"%char] ["e"%char]).
    + apply balanced_char; [discriminate | discriminate | constructor].
    + apply balanced_char; [discriminate | discriminate | constructor].
Defined.

Lemma next_block_returns_enclosed_text_witness :
  exists pre rest,
    ["f"; "("; "x"; "("; "y"; ")"; ")"; "z"]%char =
      pre ++ ("("%char :: (["x"; "("; "y"; ")"]%char
                            ++ (")"%char :: rest))) /\
    ("("%char ∉ pre) /\
    occurrences "(" ["x"; "("; "y"; ")"]%char =
      occurrences ")" ["x"; "("; "y"; ")"]%char /\
    5%nat = (length ["x"; "("; "y"; ")"]%char + 1)%nat.
Proof.
  apply (next_block_returns_enclosed_text "(" ")"
           ["f"; "("; "x"; "("; "y"; ")"; ")"; "z"]%char).
  - discriminate.
  - vm_compute. reflexivity.
Defined.

Lemma next_block_same_bracket_witness :
  next_block ["a"; "|"; "b"; "|"]%char "|" "|" = inr None.
Proof.
  apply next_block_same_bracket.
  apply elem_of_cons. right. apply elem_of_cons. left. reflexivity.
Defined.

(** ** Concrete runs of the graph problems *)

Lemma VertexCover_to_qubo_value_witness :
  exists Q,
    VertexCover.to_qubo
      (VertexCover.init ({[ (0, 1); (1, 2) ]} : gset (Z * Z)))
      (Q2Qc 2) (Q2Qc 1) = inr (Q, (Q2Qc (inject_Z 2) * Q2Qc 2)%Qc) /\
    (objective (fun _ => Q2Qc 1) Q + Q2Qc (inject_Z 2) * Q2Qc 2 =
     Q2Qc 1 * total ((fun _ => Q2Qc 1) <$> seqZ 0 3))%Qc.
Proof.
  destruct (VertexCover_to_qubo_value
              ({[ (0, 1); (1, 2) ]} : gset (Z * Z)) (Q2Qc 2) (Q2Qc 1))
    as (Q & HQ & Hvalue).
  exists Q. split; [exact HQ|].
  apply (proj2 (Hvalue (fun _ => Q2Qc 1) (fun _ => or_intror eq_refl))).
  intros e _. left. reflexivity.
Defined.

Lemma VertexCover_convert_solution_witness :
  exists s,
    VertexCover.convert_solution
      (VertexCover.init ({[ (0, 1); (1, 2) ]} : gset (Z * Z)))
      (AsList [1; 0; 1]) = inr s /\
    forall v, v ∈ s <->
      exists i,
        VertexCover._vertex_to_index
          (VertexCover.init ({[ (0, 1); (1, 2) ]} : gset (Z * Z))) !! v
        = Some i /\
        as_dict (AsList [1; 0; 1]) !! i = Some 1.
Proof.
  apply (proj1 (VertexCover_convert_solution
                  ({[ (0, 1); (1, 2) ]} : gset (Z * Z)) (AsList [1; 0; 1]))).
  intros i Hi. change (VertexCover.num_binary_variables _) with 3.
  unfold as_dict in Hi. apply dict_of_lookup in Hi; [|compute_done].
  change (enumerate [1; 0; 1]) with [(0, 1); (1, 0); (2, 1)] in Hi.
  rewrite !elem_of_cons, elem_of_nil in Hi.
  destruct Hi as [[= ->] | [[= ->] | [[= ->] | []]]]; lia.
Defined.

Lemma GraphPartitioning_to_ising_self_loop_witness :
  rbind (GraphPartitioning.init ({[ (0, 0); (0, 1) ]} : gset (Z * Z)))
        (fun self => GraphPartitioning.to_ising self None (Q2Qc 1)) =
  inl (KeyError
         "Key formatted incorrectly, must be tuple of two different integers").
Proof.
  assert (Hinit : exists self,
            GraphPartitioning.init ({[ (0, 0); (0, 1) ]} : gset (Z * Z))
            = inr self) by (vm_compute; eexists; reflexivity).
  destruct Hinit as [self Hinit]. rewrite Hinit. unfold rbind.
  apply (GraphPartitioning_to_ising_self_loop _ self None (Q2Qc 1) Hinit).
  exists (0, 0). split; [|reflexivity].
  apply elem_of_union. left. apply elem_of_singleton. reflexivity.
Defined.

Lemma GraphPartitioning_to_ising_value_witness :
  let edges : gset (Z * Z) := {[ (0, 1); (1, 2); (0, 3) ]} in
  let z : Z -> Qc := fun i => if i <? 2 then Q2Qc 1 else (- Q2Qc 1)%Qc in
  exists self h J,
    GraphPartitioning.init edges = inr self /\
    GraphPartitioning.to_ising self (Some (Q2Qc 3)) (Q2Qc 1) =
    inr (h, J,
         (Q2Qc 3 * Q2Qc (inject_Z (GraphPartitioning._N self))
          + Q2Qc 1 * Q2Qc (inject_Z (GraphPartitioning._n self)) / Q2Qc 2)%Qc)
    /\
    entries h = ∅ /\
    (objective z J
     + (Q2Qc 3 * Q2Qc (inject_Z (GraphPartitioning._N self))
        + Q2Qc 1 * Q2Qc (inject_Z (GraphPartitioning._n self)) / Q2Qc 2) =
     Q2Qc 3
     * (total (z <$> seqZ 0 (GraphPartitioning._N self))
        * total (z <$> seqZ 0 (GraphPartitioning._N self)))
     + Q2Qc 1
       * total ((fun e =>
                   (Q2Qc 1
                    - z (variable_of
                           (GraphPartitioning._vertex_to_index self) (fst e))
                      * z (variable_of
                             (GraphPartitioning._vertex_to_index self)
                             (snd e)))
                   / Q2Qc 2)
                  <$> elements edges))%Qc.
Proof.
  intros edges z.
  assert (Hinit : exists self, GraphPartitioning.init edges = inr self)
    by (vm_compute; eexists; reflexivity).
  destruct Hinit as [self Hinit].
  assert (Hloop : forall e : Z * Z, e ∈ edges -> fst e <> snd e).
  { intros e He. unfold edges in He.
    rewrite !elem_of_union, !elem_of_singleton in He.
    destruct He as [[-> | ->] | ->]; simpl; lia. }
  destruct (GraphPartitioning_to_ising_value edges self (Some (Q2Qc 3))
              (Q2Qc 1) Hinit Hloop) as (h & J & Hrun & Hh & Hvalue).
  exists self, h, J. split; [exact Hinit|]. split; [exact Hrun|].
  split; [exact Hh|].
  apply (Hvalue z). intros i. unfold z. destruct (i <? 2); auto.
Defined.
